(** * Covering tiles: quadtree traversal of maplibre-gl-js

    A shallow embedding of the traversal engine (the source file that defines
    [isTileVisible] and [coveringTiles], imported by its neighbours as
    [./covering_tiles]) and of [src/geo/projection/mercator_covering_tiles.ts]
    (the planar-only routine [mercatorCoveringTiles] with its helper
    functions, and the class [MercatorCoveringTilesDetailsProvider]).

    Conventions of the embedding.
    - Zoom levels, tile columns and rows and wrap numbers are integers ([Z]).
      Every other number that the caller passes in is a rational ([Q]).
    - The zoom computed for one tile goes through divisions and logarithms
      of such numbers; it is evaluated in [JS.number], the rationals with
      [NaN] and the two infinities, by the rules of IEEE arithmetic.  Zero has
      no sign, and rounding and overflow are outside the model.
    - [<<] and [>>] are the 32-bit operators of the language ([JS.shl],
      [JS.sar]).
    - A call either completes normally or throws ([JS.completion]).
    - The class [OverscaledTileID] is not among the sources: an identifier is
      the record of the constructor's arguments, and the arguments that the
      constructor refuses by throwing are a parameter ([TileIDs]).
    - The [while] loop over the explicit stack is a function of a step budget;
      [None] means that the budget ran out before the stack was empty.
    - The field [tileDistanceToCamera] is computed as in the source although
      nothing reads it. *)

From Stdlib Require Import ZArith QArith Qabs Qround Bool List Lia Lqa.
From Stdlib Require Import Sorted Permutation.
Import ListNotations.

Set Implicit Arguments.

(* ================================================================== *)
(** ** The JavaScript fragment used by the sources *)

Module JS.

(** [PlainError] is an [Error] object thrown by library code. *)
Inductive Error : Type := ReferenceError | TypeError | PlainError.

(** Outcome of evaluating an expression or a call. *)
Inductive completion (A : Type) : Type :=
| Normal (a : A)
| Throw (e : Error).
Arguments Normal {A} a.
Arguments Throw {A} e.

Definition bind {A B} (c : completion A) (k : A -> completion B) : completion B :=
  match c with
  | Normal a => k a
  | Throw e => Throw e
  end.

(** Reading a [const] binding inside its own initialiser: the binding is in
    its temporal dead zone. *)
Definition uninitialised (A : Type) : completion A := Throw ReferenceError.

(** [ToInt32]: reduction modulo 2^32 into the signed range. *)
Definition ToInt32 (n : Z) : Z :=
  let m := (n mod 2 ^ 32)%Z in
  if (m >=? 2 ^ 31)%Z then (m - 2 ^ 32)%Z else m.

(** [a << n] and [a >> n]; the shift count is taken modulo 32. *)
Definition shl (a n : Z) : Z := ToInt32 (Z.shiftl (ToInt32 a) (n mod 32)).
Definition sar (a n : Z) : Z := Z.shiftr (ToInt32 a) (n mod 32).

(** A Number that may be one of the special values; [A] is [Q] for numbers
    at large and [Z] for whole numbers. *)
Inductive special (A : Type) : Type :=
| Fin (a : A)
| PosInfinity
| NegInfinity
| NaN.
Arguments Fin {A} a.
Arguments PosInfinity {A}.
Arguments NegInfinity {A}.
Arguments NaN {A}.

Definition number : Type := special Q.

Definition isPositive (q : Q) : bool := negb (Qle_bool q 0).
Definition isNegative (q : Q) : bool := negb (Qle_bool 0 q).

Definition infinity (pos : bool) : number := if pos then PosInfinity else NegInfinity.

(** [a + b] *)
Definition add (a b : number) : number :=
  match a, b with
  | NaN, _ | _, NaN => NaN
  | Fin x, Fin y => Fin (x + y)
  | PosInfinity, NegInfinity | NegInfinity, PosInfinity => NaN
  | PosInfinity, _ | _, PosInfinity => PosInfinity
  | NegInfinity, _ | _, NegInfinity => NegInfinity
  end.

(** [a * b]; an infinity times zero is [NaN]. *)
Definition mul (a b : number) : number :=
  match a, b with
  | NaN, _ | _, NaN => NaN
  | Fin x, Fin y => Fin (x * y)
  | PosInfinity, Fin y | Fin y, PosInfinity =>
      if Qeq_bool y 0 then NaN else infinity (isPositive y)
  | NegInfinity, Fin y | Fin y, NegInfinity =>
      if Qeq_bool y 0 then NaN else infinity (isNegative y)
  | PosInfinity, PosInfinity | NegInfinity, NegInfinity => PosInfinity
  | PosInfinity, NegInfinity | NegInfinity, PosInfinity => NegInfinity
  end.

(** [a / b]; zero by zero and infinity by infinity are [NaN], any other
    number by zero is an infinity, a number by an infinity is zero. *)
Definition div (a b : number) : number :=
  match a, b with
  | NaN, _ | _, NaN => NaN
  | Fin x, Fin y =>
      if Qeq_bool y 0 then
        if Qeq_bool x 0 then NaN else infinity (isPositive x)
      else Fin (x / y)
  | Fin _, _ => Fin 0
  | PosInfinity, Fin y => infinity (negb (isNegative y))
  | NegInfinity, Fin y => infinity (isNegative y)
  | _, _ => NaN
  end.

(** [Math.floor] and [Math.round] (ties go up). *)
Definition whole (f : Q -> Z) (a : number) : special Z :=
  match a with
  | Fin q => Fin (f q)
  | PosInfinity => PosInfinity
  | NegInfinity => NegInfinity
  | NaN => NaN
  end.
Definition Math_floor : number -> special Z := whole Qfloor.
Definition Math_round : number -> special Z := whole (fun q => Qfloor (q + (1 # 2))).

(** [Math.max(a, b)] and [Math.min(a, b)] *)
Definition Math_max (a b : special Z) : special Z :=
  match a, b with
  | NaN, _ | _, NaN => NaN
  | PosInfinity, _ | _, PosInfinity => PosInfinity
  | NegInfinity, c | c, NegInfinity => c
  | Fin x, Fin y => Fin (Z.max x y)
  end.

Definition Math_min (a b : special Z) : special Z :=
  match a, b with
  | NaN, _ | _, NaN => NaN
  | NegInfinity, _ | _, NegInfinity => NegInfinity
  | PosInfinity, c | c, PosInfinity => c
  | Fin x, Fin y => Fin (Z.min x y)
  end.

(** [a >= b]; false when either side is [NaN]. *)
Definition ge (a b : special Z) : bool :=
  match a, b with
  | NaN, _ | _, NaN => false
  | PosInfinity, _ | _, NegInfinity => true
  | Fin x, Fin y => (x >=? y)%Z
  | _, _ => false
  end.

(** [a < b]; false when either side is [NaN]. *)
Definition lt (a b : special Z) : bool :=
  match a, b with
  | NaN, _ | _, NaN => false
  | _, _ => negb (ge a b)
  end.

(** [Array.prototype.sort(compareFn)]: a stable sort; [a] goes before [b]
    when [compareFn a b <= 0].  For a consistent comparator every stable
    sorting algorithm returns this list. *)
Section Sort.
Variable A : Type.
Variable compareFn : A -> A -> Q.

Fixpoint insert (a : A) (l : list A) : list A :=
  match l with
  | [] => [a]
  | b :: l' => if Qle_bool (compareFn a b) 0 then a :: b :: l' else b :: insert a l'
  end.

Definition sort (l : list A) : list A := fold_right insert [] l.
End Sort.

(** Order induced on the elements by a numeric key. *)
Definition ascending {A : Type} (key : A -> Q) (a b : A) : Prop := key a <= key b.

End JS.

Notation "x <- c ;; k" := (JS.bind c (fun x => k))
  (at level 61, c at next level, right associativity).

Declare Scope number_scope.
Delimit Scope number_scope with number.
Bind Scope number_scope with JS.number.
Infix "+" := JS.add : number_scope.
Infix "*" := JS.mul : number_scope.
Infix "/" := JS.div : number_scope.

(* ================================================================== *)
(** ** External collaborators *)

Definition vec2 : Type := (Q * Q)%type.
Definition vec3 : Type := (Q * Q * Q)%type.
Definition vec4 : Type := (Q * Q * Q * Q)%type.

(** [vec2.sqrLen] of gl-matrix. *)
Definition vec2_sqrLen (v : vec2) : Q := fst v * fst v + snd v * snd v.

(** The transcendental part of [Math] on the rationals; irrational-valued,
    hence kept abstract. *)
Class MathFns : Type := {
  Math_hypot : Q -> Q -> Q;
  Math_atan : Q -> Q;
  Math_cos : Q -> Q;
  Math_sqrt : Q -> Q;
  Math_log2 : Q -> Q;
  Math_PI : Q
}.

(** Three facts of the real functions, asked for where a result depends on
    them: the cosine of an arc tangent and the cosine of zero are positive,
    and a hypotenuse over a leg that is not zero is positive. *)
Class MathLaws (M : MathFns) : Prop := {
  Math_cos_atan : forall q, 0 < Math_cos (Math_atan q);
  Math_cos_zero : forall q, q == 0 -> 0 < Math_cos q;
  Math_hypot_leg : forall a b, ~ b == 0 -> 0 < Math_hypot a b
}.

(** [Math.atan], [Math.cos] and [Math.log2] on all numbers. *)
Module Math.
Section Functions.
Context {M : MathFns}.

Definition atan (a : JS.number) : JS.number :=
  match a with
  | JS.Fin q => JS.Fin (Math_atan q)
  | JS.PosInfinity => JS.Fin (Math_PI / 2)
  | JS.NegInfinity => JS.Fin (- (Math_PI / 2))
  | JS.NaN => JS.NaN
  end.

Definition cos (a : JS.number) : JS.number :=
  match a with
  | JS.Fin q => JS.Fin (Math_cos q)
  | _ => JS.NaN
  end.

Definition log2 (a : JS.number) : JS.number :=
  match a with
  | JS.Fin q =>
      if JS.isNegative q then JS.NaN
      else if Qeq_bool q 0 then JS.NegInfinity
      else JS.Fin (Math_log2 q)
  | JS.PosInfinity => JS.PosInfinity
  | _ => JS.NaN
  end.
End Functions.
End Math.

(** Modelled from the spec: [scaleZoom] of [transform_helper] is not among the
    sources; the specification writes the level-of-detail formula with the
    base-2 logarithm in its place. *)
Definition scaleZoom `{MathFns} (scale : JS.number) : JS.number := Math.log2 scale.

Module IntersectionResult.
Inductive t : Type := None | Partial | Full.

Definition eqb (a b : t) : bool :=
    match a, b with
    | None, None | Partial, Partial | Full, Full => true
    | _, _ => false
    end.
End IntersectionResult.

(** [Aabb] of [util/primitives]: the two corners given to its constructor. *)
Record Aabb : Type := new_Aabb { aabb_min : vec3; aabb_max : vec3 }.

(** The geometry of [util/primitives], consumed and not implemented here. *)
Class Primitives : Type := {
  Frustum : Type;
  intersectsFrustum : Aabb -> Frustum -> IntersectionResult.t;
  intersectsPlane : Aabb -> vec4 -> IntersectionResult.t;
  distanceX : Aabb -> vec2 -> Q;
  distanceY : Aabb -> vec2 -> Q
}.

Record MercatorCoordinate : Type := { mc_x : Q; mc_y : Q; mc_z : Q }.

Record CanonicalTileID : Type := { cz : Z; cx : Z; cy : Z }.

(** An [OverscaledTileID]: the arguments its constructor was given. *)
Record OverscaledTileID : Type := {
  overscaledZ : JS.special Z;
  tile_wrap : Z;
  canonical : CanonicalTileID
}.

(** The arguments [(overscaledZ, wrap, z, x, y)] for which the constructor
    of [source/tile_id] throws instead of building the identifier. *)
Class TileIDs : Type := {
  refuses : JS.special Z -> Z -> Z -> Z -> Z -> bool
}.

(** [new OverscaledTileID(overscaledZ, wrap, z, x, y)]. *)
Definition new_OverscaledTileID `{TileIDs} (oz : JS.special Z) (w z x y : Z)
  : JS.completion OverscaledTileID :=
  if refuses oz w z x y then JS.Throw JS.PlainError
  else JS.Normal {| overscaledZ := oz; tile_wrap := w;
                    canonical := {| cz := z; cx := x; cy := y |} |}.

Record MinMaxElevation : Type := { minElevation : option Q; maxElevation : option Q }.

Record Terrain : Type := { getMinMaxElevation : OverscaledTileID -> MinMaxElevation }.

Record CoveringTilesOptions : Type := {
  tileSize : Q;
  minzoom : option Z;
  maxzoom : option Z;
  roundZoom : bool;
  reparseOverscaled : bool;
  terrain : option Terrain
}.

Record IReadonlyTransform : Type := {
  tr_zoom : Q;
  tr_pitch : Q;
  tr_fov : Q;
  tr_maxZoom : Z;
  tr_tileSize : Q;
  tr_elevation : Q;
  tr_renderWorldCopies : bool;
  tr_pitchBehavior : Q;
  tr_padding_top : Q;
  coveringZoomLevel : CoveringTilesOptions -> Z
}.

(** A tile address [{x, y, z}] as passed to the details functions. *)
Record TileXYZ : Type := { tx : Z; ty : Z; tz : Z }.

(** Values that reach the two dynamically typed parameters of
    [isTileVisible]. *)
Inductive JsValue : Type :=
| JsNull
| JsVec4 (v : vec4)
| JsAabb (b : Aabb).

Definition truthy (v : JsValue) : bool :=
  match v with JsNull => false | _ => true end.

(** The [plane] argument of the traversal: a [vec4] or [null]. *)
Definition plane_value (plane : option vec4) : JsValue :=
  match plane with Some p => JsVec4 p | None => JsNull end.

(* ================================================================== *)
(** ** The traversal engine ([./covering_tiles]) *)

Module CoveringTiles.

Record CoveringTilesResult : Type := {
  tileID : OverscaledTileID;
  distanceSq : Q;
  tileDistanceToCamera : Q
}.

Record CoveringTilesStackEntry : Type := {
  zoom : Z;
  x : Z;
  y : Z;
  wrap : Z;
  fullyVisible : bool
}.

(** The details object.  [allowVariableZoom] is whether the value of that
    property is truthy, which is all the engine asks of it. *)
Record CoveringTilesDetails : Type := {
  distanceToTile2d : Q -> Q -> TileXYZ -> Aabb -> Q;
  getWrap : MercatorCoordinate -> TileXYZ -> Z -> Z;
  getTileAABB : TileXYZ -> Z -> Q -> CoveringTilesOptions -> JS.completion Aabb;
  allowVariableZoom : bool
}.

Section Classifier.
Context {P : Primitives}.

(** Method calls [v.intersectsFrustum(frustum)] and
    [v.intersectsPlane(plane)]: the receiver must be a box.  A plane
    argument that is not a [vec4] lies outside the declared parameter of
    the external method; no call in this development reaches that case. *)
Definition call_intersectsFrustum (v : JsValue) (frustum : Frustum)
  : JS.completion IntersectionResult.t :=
  match v with
  | JsAabb b => JS.Normal (intersectsFrustum b frustum)
  | _ => JS.Throw JS.TypeError
  end.

Definition call_intersectsPlane (v plane : JsValue)
  : JS.completion IntersectionResult.t :=
  match v, plane with
  | JsAabb b, JsVec4 p => JS.Normal (intersectsPlane b p)
  | _, _ => JS.Throw JS.TypeError
  end.

(** [isTileVisible(frustum, aabb, plane?)]. *)
Definition isTileVisible (frustum : Frustum) (aabb plane : JsValue)
  : JS.completion IntersectionResult.t :=
  frustumTest <- call_intersectsFrustum aabb frustum ;;
  if negb (truthy plane) then JS.Normal frustumTest
  else
    planeTest <- call_intersectsPlane aabb plane ;;
    if IntersectionResult.eqb frustumTest IntersectionResult.None
       || IntersectionResult.eqb planeTest IntersectionResult.None
    then JS.Normal IntersectionResult.None
    else if IntersectionResult.eqb frustumTest IntersectionResult.Full
            && IntersectionResult.eqb planeTest IntersectionResult.Full
    then JS.Normal IntersectionResult.Full
    else JS.Normal IntersectionResult.Partial.
End Classifier.

(** What one iteration of the [while] loop does with the popped entry. *)
Inductive Outcome : Type :=
| Culled                                       (* [continue] after the visibility test *)
| Dropped                                      (* [continue]: [it.zoom < minZoom] *)
| Emit (r : CoveringTilesResult)               (* [result.push] *)
| Subdivide (children : list CoveringTilesStackEntry).  (* four [stack.push] *)

Section Engine.
Context {M : MathFns} {P : Primitives} {T : TileIDs}.
Variable transform : IReadonlyTransform.
Variable frustum : Frustum.
Variable plane : option vec4.
Variables cameraCoord centerCoord : MercatorCoordinate.
Variable options : CoveringTilesOptions.
Variable details : CoveringTilesDetails.

Definition desiredZ : Z := coveringZoomLevel transform options.

(** [options.minzoom || 0] *)
Definition minZoom : Z :=
  match minzoom options with
  | Some m => if (m =? 0)%Z then 0%Z else m
  | None => 0%Z
  end.

(** [options.maxzoom !== undefined ? options.maxzoom : transform.maxZoom] *)
Definition maxZoom : Z :=
  match maxzoom options with
  | Some m => m
  | None => tr_maxZoom transform
  end.

Definition nominalZ : Z := Z.min (Z.max 0 desiredZ) maxZoom.

Definition numTiles : Q := 2 ^ nominalZ.
Definition cameraPoint : vec2 := (numTiles * mc_x cameraCoord, numTiles * mc_y cameraCoord).
Definition centerPoint : vec2 := (numTiles * mc_x centerCoord, numTiles * mc_y centerCoord).
Definition distanceToCenter2d : Q :=
  Math_hypot (mc_x centerCoord - mc_x cameraCoord) (mc_y centerCoord - mc_y cameraCoord).
Definition distanceZ : Q := Qabs (mc_z centerCoord - mc_z cameraCoord).
Definition distanceToCenter3d : Q := Math_hypot distanceToCenter2d distanceZ.

Definition newRootTile (w : Z) : CoveringTilesStackEntry :=
  {| zoom := 0; x := 0; y := 0; wrap := w; fullyVisible := false |}.

(** The stack is a list whose head is the top: [stack.push e] conses,
    [stack.pop()] takes the head. *)
Definition push (e : CoveringTilesStackEntry) (stack : list CoveringTilesStackEntry) :=
  e :: stack.

Definition initialStack : list CoveringTilesStackEntry :=
  let stack := [] in
  let stack :=
    if tr_renderWorldCopies transform then
      fold_left (fun st i => push (newRootTile i) (push (newRootTile (- i)) st))
                [1; 2; 3]%Z stack
    else stack in
  push (newRootTile 0) stack.

(** The value assigned to [thisTileDesiredZ] before the clamps. *)
Definition tileDesiredZ (distToTile2d : Q) : JS.special Z :=
  if allowVariableZoom details then
    let distToTile3d := Math_hypot distToTile2d distanceZ in
    let thisTilePitch := Math.atan (JS.Fin distToTile2d / JS.Fin distanceZ)%number in
    (if roundZoom options then JS.Math_round else JS.Math_floor)
      (JS.Fin (tr_zoom transform)
       + JS.Fin (tr_pitchBehavior transform) * scaleZoom (Math.cos thisTilePitch)
         / JS.Fin 2
       + scaleZoom (JS.Fin (tr_tileSize transform) / JS.Fin (tileSize options)
                    * JS.Fin distanceToCenter3d
                    / JS.Fin distToTile3d
                    / Math.cos (JS.Fin (tr_fov transform / 2 * Math_PI / 180)%Q)))%number
  else JS.Fin desiredZ.

(** [thisTileDesiredZ = Math.max(0, thisTileDesiredZ)] and
    [z = Math.min(thisTileDesiredZ, maxZoom)]. *)
Definition thisTileDesiredZ (distToTile2d : Q) : JS.special Z :=
  JS.Math_max (JS.Fin 0%Z) (tileDesiredZ distToTile2d).
Definition targetZ (distToTile2d : Q) : JS.special Z :=
  JS.Math_min (thisTileDesiredZ distToTile2d) (JS.Fin maxZoom).

(** The zoom computed for a tile is a number, at whatever distance. *)
Definition numericTargets : Prop :=
  forall distToTile2d, tileDesiredZ distToTile2d <> JS.NaN.

(** The four children pushed by the [for] loop, in the order of [i]. *)
Definition children (it : CoveringTilesStackEntry) (w : Z) (fv : bool)
  : list CoveringTilesStackEntry :=
  map (fun i =>
         {| zoom := zoom it + 1;
            x := JS.shl (x it) 1 + Z.rem i 2;
            y := JS.shl (y it) 1 + JS.sar i 1;
            wrap := w;
            fullyVisible := fv |})
      [0; 1; 2; 3]%Z.

(** [const tileID = {x, y, z: it.zoom}] *)
Definition tileIDOf (it : CoveringTilesStackEntry) : TileXYZ :=
  {| tx := x it; ty := y it; tz := zoom it |}.

(** The part of the loop body after the visibility test. *)
Definition afterVisibility (it : CoveringTilesStackEntry) (aabb : Aabb) (fv : bool)
  : JS.completion Outcome :=
  let tid := tileIDOf it in
  let distToTile2d :=
    distanceToTile2d details (mc_x cameraCoord) (mc_y cameraCoord) tid aabb in
  let z := targetZ distToTile2d in
  let w := getWrap details centerCoord tid (wrap it) in
  if JS.ge (JS.Fin (zoom it)) z then
    if (zoom it <? minZoom)%Z then JS.Normal Dropped
    else
      let dz := (nominalZ - zoom it)%Z in
      let dx := fst cameraPoint - (1 # 2) - inject_Z (JS.shl (x it) dz) in
      let dy := snd cameraPoint - (1 # 2) - inject_Z (JS.shl (y it) dz) in
      let overscaledZ :=
        if reparseOverscaled options then thisTileDesiredZ distToTile2d
        else JS.Fin (zoom it) in
      id <- new_OverscaledTileID
              (if (zoom it =? maxZoom)%Z then overscaledZ else JS.Fin (zoom it))
              w (zoom it) (x it) (y it) ;;
      JS.Normal
        (Emit {| tileID := id;
                 distanceSq :=
                   vec2_sqrLen (fst centerPoint - (1 # 2) - inject_Z (x it),
                                snd centerPoint - (1 # 2) - inject_Z (y it));
                 tileDistanceToCamera := Math_sqrt (dx * dx + dy * dy) |})
  else JS.Normal (Subdivide (children it w fv)).

(** One iteration of the [while] loop on the popped entry [it]. *)
Definition loopBody (it : CoveringTilesStackEntry) : JS.completion Outcome :=
  let tid := tileIDOf it in
  aabb <- getTileAABB details tid (wrap it) (tr_elevation transform) options ;;
  if negb (fullyVisible it) then
    intersectResult <- isTileVisible frustum (JsAabb aabb) (plane_value plane) ;;
    if IntersectionResult.eqb intersectResult IntersectionResult.None
    then JS.Normal Culled
    else afterVisibility it aabb
           (IntersectionResult.eqb intersectResult IntersectionResult.Full)
  else afterVisibility it aabb (fullyVisible it).

(** [while (stack.length > 0) { ... }] with accumulator [result]. *)
Fixpoint loop (fuel : nat) (stack : list CoveringTilesStackEntry)
         (result : list CoveringTilesResult)
  : option (JS.completion (list CoveringTilesResult)) :=
  match stack with
  | [] => Some (JS.Normal result)
  | it :: stack' =>
      match fuel with
      | O => None
      | S fuel' =>
          match loopBody it with
          | JS.Throw e => Some (JS.Throw e)
          | JS.Normal Culled => loop fuel' stack' result
          | JS.Normal Dropped => loop fuel' stack' result
          | JS.Normal (Emit r) => loop fuel' stack' (result ++ [r])
          | JS.Normal (Subdivide cs) =>
              loop fuel' (fold_left (fun st c => push c st) cs stack') result
          end
      end
  end.

(** [result.sort((a, b) => a.distanceSq - b.distanceSq)] *)
Definition sortResult (result : list CoveringTilesResult) : list CoveringTilesResult :=
  JS.sort (fun a b => distanceSq a - distanceSq b) result.

(** The sorted result entries, before [.map(a => a.tileID)]. *)
Definition coveringTilesEntries (fuel : nat)
  : option (JS.completion (list CoveringTilesResult)) :=
  match loop fuel initialStack [] with
  | Some (JS.Normal result) => Some (JS.Normal (sortResult result))
  | Some (JS.Throw e) => Some (JS.Throw e)
  | None => None
  end.

Definition coveringTiles (fuel : nat)
  : option (JS.completion (list OverscaledTileID)) :=
  match coveringTilesEntries fuel with
  | Some (JS.Normal sorted) => Some (JS.Normal (map tileID sorted))
  | Some (JS.Throw e) => Some (JS.Throw e)
  | None => None
  end.

(** The entries popped by the loop, each with what the iteration did. *)
Fixpoint trace (fuel : nat) (stack : list CoveringTilesStackEntry)
  : list (CoveringTilesStackEntry * JS.completion Outcome) :=
  match fuel, stack with
  | S fuel', it :: stack' =>
      (it, loopBody it) ::
      match loopBody it with
      | JS.Throw _ => []
      | JS.Normal (Subdivide cs) => trace fuel' (fold_left (fun st c => push c st) cs stack')
      | JS.Normal _ => trace fuel' stack'
      end
  | _, _ => []
  end.

(** The result entries pushed along a trace, in order. *)
Definition emitted (tr : list (CoveringTilesStackEntry * JS.completion Outcome))
  : list CoveringTilesResult :=
  flat_map (fun ev => match snd ev with JS.Normal (Emit r) => [r] | _ => [] end) tr.

(** The camera distance the loop body computes for [it]. *)
Definition distToTile2dOf (it : CoveringTilesStackEntry) (aabb : Aabb) : Q :=
  distanceToTile2d details (mc_x cameraCoord) (mc_y cameraCoord) (tileIDOf it) aabb.

(** The identifier that an emitting node asks the constructor for. *)
Definition emittedID (it : CoveringTilesStackEntry) (aabb : Aabb) : OverscaledTileID :=
  {| overscaledZ :=
       if (zoom it =? maxZoom)%Z && reparseOverscaled options
       then thisTileDesiredZ (distToTile2dOf it aabb) else JS.Fin (zoom it);
     tile_wrap := getWrap details centerCoord (tileIDOf it) (wrap it);
     canonical := {| cz := zoom it; cx := x it; cy := y it |} |}.

(** [c] is one of the entries pushed when [it] is popped. *)
Definition child_of (it c : CoveringTilesStackEntry) : Prop :=
  exists cs, loopBody it = JS.Normal (Subdivide cs) /\ In c cs.

Inductive descendant (n : CoveringTilesStackEntry) : CoveringTilesStackEntry -> Prop :=
| descendant_child c : child_of n c -> descendant n c
| descendant_step m c : descendant n m -> child_of m c -> descendant n c.

(** The visibility test of [it] is evaluated and answers [Full]. *)
Definition classifiedFull (it : CoveringTilesStackEntry) : Prop :=
  fullyVisible it = false /\
  exists aabb,
    getTileAABB details (tileIDOf it) (wrap it) (tr_elevation transform) options
    = JS.Normal aabb /\
    isTileVisible frustum (JsAabb aabb) (plane_value plane)
    = JS.Normal IntersectionResult.Full.

(** The distance the specification describes for an entry at
    [{zoom, x, y}]: from the tile corner, rescaled to nominal-zoom
    coordinates, to the view centre scaled by [2 ^ nominalZ]. *)
Definition cornerDistanceSq (zoom x y : Z) : Q :=
  let scale := 2 ^ (nominalZ - zoom) in
  vec2_sqrLen (fst centerPoint - inject_Z x * scale, snd centerPoint - inject_Z y * scale).

(** The same distance taken from the middle of the tile instead. *)
Definition middleDistanceSq (zoom x y : Z) : Q :=
  let scale := 2 ^ (nominalZ - zoom) in
  vec2_sqrLen (fst centerPoint - (inject_Z x + (1 # 2)) * scale,
               snd centerPoint - (inject_Z y + (1 # 2)) * scale).

(** Iterations that suffice for the subtree below an entry: the size of a
    complete quadtree reaching down to [maxZoom]. *)
Fixpoint quadtreeSize (h : nat) : nat :=
  match h with
  | O => 1
  | S h' => 1 + 4 * quadtreeSize h'
  end.

Definition weight (it : CoveringTilesStackEntry) : nat :=
  quadtreeSize (Z.to_nat (maxZoom - zoom it)).

Definition stackWeight (stack : list CoveringTilesStackEntry) : nat :=
  list_sum (map weight stack).

End Engine.

End CoveringTiles.

(* ================================================================== *)
(** ** mercator_covering_tiles.ts: the planar-only routine *)

Module MercatorCoveringTiles.
Import CoveringTiles.

Section Helpers.
Context {M : MathFns} {P : Primitives} {T : TileIDs}.

Definition distanceToTile2d (pointX pointY : Q) (tileID : TileXYZ) (aabb : Aabb) : Q :=
  let distanceX := distanceX aabb (pointX, pointY) in
  let distanceY := distanceY aabb (pointX, pointY) in
  Math_hypot distanceX distanceY.

Definition getWrap (centerCoord : MercatorCoordinate) (tileID : TileXYZ) (parentWrap : Z) : Z :=
  parentWrap.

(** [getTileAABB(tileID, wrap, elevation, options)].  Inside the [if]
    block the declaration [const tileID = new OverscaledTileID(tileID.z,
    ...)] hides the parameter, so its initialiser reads the block's own
    [tileID] before it is initialised. *)
Definition getTileAABB (tileID : TileXYZ) (wrap : Z) (elevation : Q)
           (options : CoveringTilesOptions) : JS.completion Aabb :=
  elevations <-
    match terrain options with
    | Some terrain =>
        inner <- JS.uninitialised TileXYZ ;;
        tileID' <- new_OverscaledTileID (JS.Fin (tz inner)) wrap (tz inner) (tx inner)
                     (ty inner) ;;
        let minMax := getMinMaxElevation terrain tileID' in
        JS.Normal (match minElevation minMax with Some e => e | None => elevation end,
                   match maxElevation minMax with Some e => e | None => elevation end)
    | None => JS.Normal (elevation, elevation)
    end ;;
  let '(minElevation, maxElevation) := elevations in
  let numTiles := inject_Z (JS.shl 1 (tz tileID)) in
  JS.Normal
    (new_Aabb (inject_Z wrap + inject_Z (tx tileID) / numTiles,
               inject_Z (ty tileID) / numTiles, minElevation)
              (inject_Z wrap + inject_Z (tx tileID + 1) / numTiles,
               inject_Z (ty tileID + 1) / numTiles, maxElevation)).
End Helpers.

Section Routine.
Context {M : MathFns} {P : Primitives} {T : TileIDs}.
Variable transform : IReadonlyTransform.
Variable frustum : Frustum.
Variable plane : option vec4.
Variables cameraCoord centerCoord : MercatorCoordinate.
Variable options : CoveringTilesOptions.

Definition desiredZ : Z := coveringZoomLevel transform options.
Definition minZoom : Z :=
  match minzoom options with
  | Some m => if (m =? 0)%Z then 0%Z else m
  | None => 0%Z
  end.
Definition maxZoom : Z :=
  match maxzoom options with
  | Some m => m
  | None => tr_maxZoom transform
  end.
Definition nominalZ : Z := Z.min (Z.max 0 desiredZ) maxZoom.

Definition numTiles : Q := 2 ^ nominalZ.
Definition cameraPoint : vec2 := (numTiles * mc_x cameraCoord, numTiles * mc_y cameraCoord).
Definition centerPoint : vec2 := (numTiles * mc_x centerCoord, numTiles * mc_y centerCoord).
Definition distanceToCenter2d : Q :=
  Math_hypot (mc_x centerCoord - mc_x cameraCoord) (mc_y centerCoord - mc_y cameraCoord).
Definition distanceZ : Q := Qabs (mc_z centerCoord - mc_z cameraCoord).
Definition distanceToCenter3d : Q := Math_hypot distanceToCenter2d distanceZ.

(** [options.terrain || transform.pitch > 60.0 || transform.padding.top >= 0.1] *)
Definition allowZariableZoom : bool :=
  match terrain options with
  | Some _ => true
  | None => negb (Qle_bool (tr_pitch transform) 60)
            || Qle_bool (1 # 10) (tr_padding_top transform)
  end.

Definition newRootTile (w : Z) : CoveringTilesStackEntry :=
  {| zoom := 0; x := 0; y := 0; wrap := w; fullyVisible := false |}.

Definition initialStack : list CoveringTilesStackEntry :=
  let stack := [] in
  let stack :=
    if tr_renderWorldCopies transform then
      fold_left (fun st i => newRootTile i :: newRootTile (- i) :: st) [1; 2; 3]%Z stack
    else stack in
  newRootTile 0 :: stack.

Definition tileDesiredZ (distToTile2d : Q) : JS.special Z :=
  if allowZariableZoom then
    let distToTile3d := Math_hypot distToTile2d distanceZ in
    let thisTilePitch := Math.atan (JS.Fin distToTile2d / JS.Fin distanceZ)%number in
    (if roundZoom options then JS.Math_round else JS.Math_floor)
      (JS.Fin (tr_zoom transform)
       + JS.Fin (tr_pitchBehavior transform) * scaleZoom (Math.cos thisTilePitch)
         / JS.Fin 2
       + scaleZoom (JS.Fin (tr_tileSize transform) / JS.Fin (tileSize options)
                    * JS.Fin distanceToCenter3d
                    / JS.Fin distToTile3d
                    / Math.cos (JS.Fin (tr_fov transform / 2 * Math_PI / 180)%Q)))%number
  else JS.Fin desiredZ.

Definition afterVisibility (it : CoveringTilesStackEntry) (aabb : Aabb) (fv : bool)
  : JS.completion Outcome :=
  let tid := {| tx := x it; ty := y it; tz := zoom it |} in
  let distToTile2d := distanceToTile2d (mc_x cameraCoord) (mc_y cameraCoord) tid aabb in
  let thisTileDesiredZ := JS.Math_max (JS.Fin 0%Z) (tileDesiredZ distToTile2d) in
  let z := JS.Math_min thisTileDesiredZ (JS.Fin maxZoom) in
  let w := getWrap centerCoord tid (wrap it) in
  if JS.ge (JS.Fin (zoom it)) z then
    if (zoom it <? minZoom)%Z then JS.Normal Dropped
    else
      let dz := (nominalZ - zoom it)%Z in
      let dx := fst cameraPoint - (1 # 2) - inject_Z (JS.shl (x it) dz) in
      let dy := snd cameraPoint - (1 # 2) - inject_Z (JS.shl (y it) dz) in
      let overscaledZ :=
        if reparseOverscaled options then thisTileDesiredZ else JS.Fin (zoom it) in
      id <- new_OverscaledTileID
              (if (zoom it =? maxZoom)%Z then overscaledZ else JS.Fin (zoom it))
              w (zoom it) (x it) (y it) ;;
      JS.Normal
        (Emit {| tileID := id;
                 distanceSq :=
                   vec2_sqrLen (fst centerPoint - (1 # 2) - inject_Z (x it),
                                snd centerPoint - (1 # 2) - inject_Z (y it));
                 tileDistanceToCamera := Math_sqrt (dx * dx + dy * dy) |})
  else
    JS.Normal
      (Subdivide
         (map (fun i =>
                 {| zoom := zoom it + 1;
                    x := JS.shl (x it) 1 + Z.rem i 2;
                    y := JS.shl (y it) 1 + JS.sar i 1;
                    wrap := w;
                    fullyVisible := fv |})
              [0; 1; 2; 3]%Z)).

(** One iteration.  The classifier is called as
    [isTileVisible(frustum, plane, aabb)]: its box parameter receives the
    plane and its plane parameter receives the box. *)
Definition loopBody (it : CoveringTilesStackEntry) : JS.completion Outcome :=
  let tid := {| tx := x it; ty := y it; tz := zoom it |} in
  aabb <- getTileAABB tid (wrap it) (tr_elevation transform) options ;;
  if negb (fullyVisible it) then
    intersectResult <- isTileVisible frustum (plane_value plane) (JsAabb aabb) ;;
    if IntersectionResult.eqb intersectResult IntersectionResult.None
    then JS.Normal Culled
    else afterVisibility it aabb
           (IntersectionResult.eqb intersectResult IntersectionResult.Full)
  else afterVisibility it aabb (fullyVisible it).

Fixpoint loop (fuel : nat) (stack : list CoveringTilesStackEntry)
         (result : list CoveringTilesResult)
  : option (JS.completion (list CoveringTilesResult)) :=
  match stack with
  | [] => Some (JS.Normal result)
  | it :: stack' =>
      match fuel with
      | O => None
      | S fuel' =>
          match loopBody it with
          | JS.Throw e => Some (JS.Throw e)
          | JS.Normal Culled => loop fuel' stack' result
          | JS.Normal Dropped => loop fuel' stack' result
          | JS.Normal (Emit r) => loop fuel' stack' (result ++ [r])
          | JS.Normal (Subdivide cs) =>
              loop fuel' (fold_left (fun st c => c :: st) cs stack') result
          end
      end
  end.

Definition mercatorCoveringTiles (fuel : nat)
  : option (JS.completion (list OverscaledTileID)) :=
  match loop fuel initialStack [] with
  | Some (JS.Normal result) =>
      Some (JS.Normal
              (map tileID (JS.sort (fun a b => distanceSq a - distanceSq b) result)))
  | Some (JS.Throw e) => Some (JS.Throw e)
  | None => None
  end.
End Routine.

End MercatorCoveringTiles.

(* ================================================================== *)
(** ** mercator_covering_tiles.ts: class MercatorCoveringTilesDetailsProvider *)

Module MercatorCoveringTilesDetailsProvider.

Section Methods.
Context {M : MathFns} {P : Primitives} {T : TileIDs}.

Definition distanceToTile2d (pointX pointY : Q) (tileID : TileXYZ) (aabb : Aabb) : Q :=
  let distanceX := distanceX aabb (pointX, pointY) in
  let distanceY := distanceY aabb (pointX, pointY) in
  Math_hypot distanceX distanceY.

Definition getWrap (centerCoord : MercatorCoordinate) (tileID : TileXYZ) (parentWrap : Z) : Z :=
  parentWrap.

Definition getTileAABB (tileID : TileXYZ) (wrap : Z) (elevation : Q)
           (options : CoveringTilesOptions) : JS.completion Aabb :=
  elevations <-
    match terrain options with
    | Some terrain =>
        overscaledTileID <-
          new_OverscaledTileID (JS.Fin (tz tileID)) wrap (tz tileID) (tx tileID)
            (ty tileID) ;;
        let minMax := getMinMaxElevation terrain overscaledTileID in
        JS.Normal (match minElevation minMax with Some e => e | None => elevation end,
                   match maxElevation minMax with Some e => e | None => elevation end)
    | None => JS.Normal (elevation, elevation)
    end ;;
  let '(minElevation, maxElevation) := elevations in
  let numTiles := inject_Z (JS.shl 1 (tz tileID)) in
  JS.Normal
    (new_Aabb (inject_Z wrap + inject_Z (tx tileID) / numTiles,
               inject_Z (ty tileID) / numTiles, minElevation)
              (inject_Z wrap + inject_Z (tx tileID + 1) / numTiles,
               inject_Z (ty tileID + 1) / numTiles, maxElevation)).

(** [!!options.terrain || transform.pitch > 60.0 || transform.padding.top >= 0.1] *)
Definition allowVariableZoom (transform : IReadonlyTransform)
           (options : CoveringTilesOptions) : bool :=
  match terrain options with Some _ => true | None => false end
  || negb (Qle_bool (tr_pitch transform) 60)
  || Qle_bool (1 # 10) (tr_padding_top transform).

(** An instance of the class as the details argument of the engine.  The
    engine reads the property [allowVariableZoom] and does not call it; on an
    instance the property holds the method, a function, which is truthy. *)
Definition details : CoveringTiles.CoveringTilesDetails :=
  {| CoveringTiles.distanceToTile2d := distanceToTile2d;
     CoveringTiles.getWrap := getWrap;
     CoveringTiles.getTileAABB := getTileAABB;
     CoveringTiles.allowVariableZoom := true |}.
End Methods.

End MercatorCoveringTilesDetailsProvider.

(* ================================================================== *)
(** ** Concrete collaborators for the scenarios *)

Module Scenario.
Import CoveringTiles.

(** A view region standing for the frustum: the rectangle
    [vx0, vx1] x [vy0, vy1] of the map plane, at every elevation. *)
Record ViewRect : Type := { vx0 : Q; vx1 : Q; vy0 : Q; vy1 : Q }.

Definition box_x0 (b : Aabb) : Q := fst (fst (aabb_min b)).
Definition box_y0 (b : Aabb) : Q := snd (fst (aabb_min b)).
Definition box_z0 (b : Aabb) : Q := snd (aabb_min b).
Definition box_x1 (b : Aabb) : Q := fst (fst (aabb_max b)).
Definition box_y1 (b : Aabb) : Q := snd (fst (aabb_max b)).
Definition box_z1 (b : Aabb) : Q := snd (aabb_max b).

Definition Qlt_bool (a b : Q) : bool := negb (Qle_bool b a).
Definition Qmax (a b : Q) : Q := if Qle_bool a b then b else a.
Definition Qmin (a b : Q) : Q := if Qle_bool a b then a else b.

(** Box against view rectangle: outside, inside, or straddling. *)
Definition rectTest (b : Aabb) (v : ViewRect) : IntersectionResult.t :=
  if Qle_bool (box_x1 b) (vx0 v) || Qle_bool (vx1 v) (box_x0 b)
     || Qle_bool (box_y1 b) (vy0 v) || Qle_bool (vy1 v) (box_y0 b)
  then IntersectionResult.None
  else if Qle_bool (vx0 v) (box_x0 b) && Qle_bool (box_x1 b) (vx1 v)
          && Qle_bool (vy0 v) (box_y0 b) && Qle_bool (box_y1 b) (vy1 v)
  then IntersectionResult.Full
  else IntersectionResult.Partial.

(** Box against the half-space [a x + b y + c z + d >= 0]. *)
Definition planeTest (b : Aabb) (p : vec4) : IntersectionResult.t :=
  let '(pa, pb, pc, pd) := p in
  let lo := Qmin (pa * box_x0 b) (pa * box_x1 b) + Qmin (pb * box_y0 b) (pb * box_y1 b)
            + Qmin (pc * box_z0 b) (pc * box_z1 b) + pd in
  let hi := Qmax (pa * box_x0 b) (pa * box_x1 b) + Qmax (pb * box_y0 b) (pb * box_y1 b)
            + Qmax (pc * box_z0 b) (pc * box_z1 b) + pd in
  if Qle_bool 0 lo then IntersectionResult.Full
  else if Qlt_bool hi 0 then IntersectionResult.None
  else IntersectionResult.Partial.

(** Signed offset from the point to the nearest point of the box, per axis. *)
Definition axisDistance (lo hi p : Q) : Q := Qmax (Qmin hi p) lo - p.

Definition planar : Primitives :=
  {| Frustum := ViewRect;
     intersectsFrustum := rectTest;
     intersectsPlane := planeTest;
     distanceX := fun b p => axisDistance (box_x0 b) (box_x1 b) (fst p);
     distanceY := fun b p => axisDistance (box_y0 b) (box_y1 b) (snd p) |}.

(** A constructor of tile identifiers that validates its arguments: it
    refuses a canonical zoom outside 0..25, a column or row outside the
    pyramid of that zoom, and an overscaled zoom below the canonical zoom. *)
Definition checkedIDs : TileIDs :=
  {| refuses := fun oz w z x y =>
       JS.lt oz (JS.Fin z)
       || (z <? 0)%Z || (25 <? z)%Z
       || (y <? 0)%Z || (2 ^ z <=? y)%Z
       || (x <? 0)%Z || (2 ^ z <=? x)%Z |}.

(** Rational stand-ins for the transcendental functions.  They agree with the
    real functions at the arguments the scenarios evaluate: [hypot] on the
    axes, [atan 0], [cos 0] and [cos (PI/3)], [log2] at powers of two from 1
    on, [sqrt] at perfect squares. *)
Definition PI_approx : Q := 355 # 113.

Definition rationalMath : MathFns :=
  {| Math_hypot := fun a b =>
       if Qeq_bool a 0 then Qabs b else if Qeq_bool b 0 then Qabs a else Qabs a + Qabs b;
     Math_atan := fun q => q;
     Math_cos := fun a => if Qeq_bool a (PI_approx / 3) then 1 # 2 else 1;
     Math_sqrt := fun q => inject_Z (Z.sqrt (Qfloor q));
     Math_log2 := fun q => inject_Z (Z.log2 (Qfloor q));
     Math_PI := PI_approx |}.

(** Scenario A of the specification: camera overhead, pitch 0, the view covers
    the unit square, nominal zoom 2, zoom range 0..5, one world copy. *)
Definition unitSquare : ViewRect := {| vx0 := 0; vx1 := 1; vy0 := 0; vy1 := 1 |}.

Definition overheadCamera : MercatorCoordinate :=
  {| mc_x := 1 # 2; mc_y := 1 # 2; mc_z := 1 |}.
Definition mapCenter : MercatorCoordinate :=
  {| mc_x := 1 # 2; mc_y := 1 # 2; mc_z := 0 |}.

Definition transformAt (z : Z) (copies : bool) : IReadonlyTransform :=
  {| tr_zoom := inject_Z z;
     tr_pitch := 0;
     tr_fov := 0;
     tr_maxZoom := 22;
     tr_tileSize := 512;
     tr_elevation := 0;
     tr_renderWorldCopies := copies;
     tr_pitchBehavior := 1;
     tr_padding_top := 0;
     coveringZoomLevel := fun _ => Z.max 0 z |}.

Definition optionsRange (lo hi : option Z) (reparse : bool) : CoveringTilesOptions :=
  {| tileSize := 512;
     minzoom := lo;
     maxzoom := hi;
     roundZoom := false;
     reparseOverscaled := reparse;
     terrain := None |}.

(** A terrain collaborator with no elevation data for any tile. *)
Definition flatTerrain : Terrain :=
  {| getMinMaxElevation := fun _ => {| minElevation := None; maxElevation := None |} |}.

Definition optionsTerrain (hi : option Z) : CoveringTilesOptions :=
  {| tileSize := 512;
     minzoom := None;
     maxzoom := hi;
     roundZoom := false;
     reparseOverscaled := false;
     terrain := Some flatTerrain |}.

(** Two details objects as the interface of the engine declares them: the
    functions of the planar provider and a boolean [allowVariableZoom]. *)
Definition fixedZoomDetails : CoveringTilesDetails :=
  {| distanceToTile2d := @MercatorCoveringTilesDetailsProvider.distanceToTile2d rationalMath planar;
     getWrap := MercatorCoveringTilesDetailsProvider.getWrap;
     getTileAABB := @MercatorCoveringTilesDetailsProvider.getTileAABB checkedIDs;
     allowVariableZoom := false |}.

Definition variableZoomDetails : CoveringTilesDetails :=
  {| distanceToTile2d := @MercatorCoveringTilesDetailsProvider.distanceToTile2d rationalMath planar;
     getWrap := MercatorCoveringTilesDetailsProvider.getWrap;
     getTileAABB := @MercatorCoveringTilesDetailsProvider.getTileAABB checkedIDs;
     allowVariableZoom := true |}.

(** Scenario D with per-tile zoom: a 120 degree field of view, zoom rounded,
    camera over the point (3/10, 3/10), and a view that only reaches the
    tiles around that point. *)
Definition wideTransform : IReadonlyTransform :=
  {| tr_zoom := 2;
     tr_pitch := 0;
     tr_fov := 120;
     tr_maxZoom := 22;
     tr_tileSize := 512;
     tr_elevation := 0;
     tr_renderWorldCopies := false;
     tr_pitchBehavior := 1;
     tr_padding_top := 1;
     coveringZoomLevel := fun _ => 2%Z |}.

Definition optionsFloor3 : CoveringTilesOptions :=
  {| tileSize := 512;
     minzoom := Some 3%Z;
     maxzoom := Some 5%Z;
     roundZoom := true;
     reparseOverscaled := false;
     terrain := None |}.

Definition nearPoint : ViewRect :=
  {| vx0 := 29 # 100; vx1 := 31 # 100; vy0 := 29 # 100; vy1 := 31 # 100 |}.

Definition cameraOverPoint : MercatorCoordinate :=
  {| mc_x := 3 # 10; mc_y := 3 # 10; mc_z := 1 |}.
Definition pointOnMap : MercatorCoordinate :=
  {| mc_x := 3 # 10; mc_y := 3 # 10; mc_z := 0 |}.

(** A camera level with the view centre and over the root tile, looking at a
    part of the map away from its own position. *)
Definition levelCamera : MercatorCoordinate :=
  {| mc_x := 3 # 10; mc_y := 3 # 10; mc_z := 0 |}.

Definition farView : ViewRect :=
  {| vx0 := 6 # 10; vx1 := 9 # 10; vy0 := 6 # 10; vy1 := 9 # 10 |}.

(** Details that put every tile at distance 0 from the camera, in one and
    the same box. *)
Definition nearDetails : CoveringTilesDetails :=
  {| distanceToTile2d := fun _ _ _ _ => 0;
     getWrap := fun _ _ parentWrap => parentWrap;
     getTileAABB := fun _ _ _ _ => JS.Normal (new_Aabb (0, 0, 0) (1, 1, 0));
     allowVariableZoom := true |}.

Definition rootTile : CoveringTilesStackEntry :=
  {| zoom := 0; x := 0; y := 0; wrap := 0; fullyVisible := false |}.

Definition firstChild : CoveringTilesStackEntry :=
  {| zoom := 1; x := 0; y := 0; wrap := 0; fullyVisible := true |}.

Definition run (t : IReadonlyTransform) (v : ViewRect) (o : CoveringTilesOptions)
           (d : CoveringTilesDetails) (fuel : nat) :=
  @coveringTiles rationalMath planar checkedIDs t v None overheadCamera mapCenter o d fuel.

Definition runEntries (t : IReadonlyTransform) (v : ViewRect) (o : CoveringTilesOptions)
           (d : CoveringTilesDetails) (fuel : nat) :=
  @coveringTilesEntries rationalMath planar checkedIDs t v None overheadCamera mapCenter o d
    fuel.

Definition tile (oz w z x y : Z) : OverscaledTileID :=
  {| overscaledZ := JS.Fin oz; tile_wrap := w; canonical := {| cz := z; cx := x; cy := y |} |}.

End Scenario.

(* ================================================================== *)
(** ** Quadtree addresses *)

Module Address.
Import CoveringTiles.

(** The address [{zoom, x, y, wrap}] of a stack entry or of a returned tile. *)
Record t : Type := { a_zoom : Z; a_x : Z; a_y : Z; a_wrap : Z }.

Definition ofEntry (it : CoveringTilesStackEntry) : t :=
  {| a_zoom := zoom it; a_x := x it; a_y := y it; a_wrap := wrap it |}.


(** An address inside the pyramid: [0 <= x, y < 2 ^ zoom]. *)
Definition valid (a : t) : Prop :=
  (0 <= a_zoom a)%Z /\ (0 <= a_x a < 2 ^ a_zoom a)%Z /\ (0 <= a_y a < 2 ^ a_zoom a)%Z.





End Address.

(** The footprint of a box in the map plane. *)
Definition aabb_x0 (b : Aabb) : Q := fst (fst (aabb_min b)).
Definition aabb_y0 (b : Aabb) : Q := snd (fst (aabb_min b)).
Definition aabb_x1 (b : Aabb) : Q := fst (fst (aabb_max b)).
Definition aabb_y1 (b : Aabb) : Q := snd (fst (aabb_max b)).

(* ================================================================== *)
(** ** shaping: tagged strings, line breaking and icon boxes

    The text-shaping source that follows the provider class in
    [src/geo/projection/mercator_covering_tiles.ts].  A string is the list of
    its UTF-16 code units; a dictionary that is only read is its lookup
    function.  Numbers are rationals as above: a division by zero, which the
    program answers with NaN or Infinity, is outside the model, so the
    properties of quotients ask for a positive [maxWidth] and positive
    sizes. *)

From Stdlib Require String.

Module Shaping.
Import String.StringSyntax.

(** *** Arrays and strings of the language *)

(** [array.slice(start, end)] for non-negative integers. *)
Definition slice {A : Type} (start stop : nat) (l : list A) : list A :=
  firstn (stop - start) (skipn start l).

(** [string.substring(start, end)]: both indices are clamped to the length
    and swapped when out of order. *)
Definition substring {A : Type} (start stop : nat) (l : list A) : list A :=
  let s := Nat.min start (length l) in
  let e := Nat.min stop (length l) in
  slice (Nat.min s e) (Nat.max s e) l.

(** *** Collaborators *)

Inductive VerticalAlign : Type := va_bottom | va_center | va_top.

Record GlyphMetrics : Type := {
  gm_width : Q; gm_height : Q; gm_left : Q; gm_top : Q; gm_advance : Q
}.

Record StyleGlyph : Type := { sg_metrics : GlyphMetrics }.

Inductive TextFit : Type := stretchOrShrink | stretchOnly | proportional.

Record ImagePosition : Type := {
  displaySize : Q * Q;
  pixelRatio : Q;
  content : option (Q * Q * Q * Q);
  textFitWidth : option TextFit;
  textFitHeight : option TextFit
}.

(** [glyphMap[fontStack][codePoint]] and [imagePositions[name]]. *)
Definition GlyphMap : Type := String.string -> option (Z -> option StyleGlyph).
Definition ImagePositions : Type := String.string -> option ImagePosition.

(** [script_detection] and [one_em], which are not among the sources. *)
Class TextEnv : Type := {
  charAllowsIdeographicBreaking : Z -> bool;
  ONE_EM : Q
}.

(** A section of a formatted text, as the style specification passes it. *)
Record FormattedSection : Type := {
  fs_text : list Z;
  fs_image : option String.string;     (* [section.image.name], when an image is given *)
  fs_scale : option Q;
  fs_fontStack : option String.string;
  fs_verticalAlign : option VerticalAlign
}.

(** *** SectionOptions *)

Record SectionOptions : Type := {
  scale : Q;
  fontStack : String.string;
  imageName : option String.string;
  verticalAlign : VerticalAlign
}.

(** Truthiness of a [string | null]. *)
Definition nonEmpty (s : option String.string) : bool :=
  match s with
  | Some n => negb (String.eqb n String.EmptyString)
  | None => false
  end.

(** [SectionOptions.forText(scale, fontStack, verticalAlign)] *)
Definition forText (sc : option Q) (font : String.string) (va : option VerticalAlign)
  : SectionOptions :=
  {| scale := match sc with Some q => if Qeq_bool q 0 then 1 else q | None => 1 end;
     fontStack := font;
     imageName := None;
     verticalAlign := match va with Some v => v | None => va_bottom end |}.

(** [SectionOptions.forImage(imageName, verticalAlign)] *)
Definition forImage (name : String.string) (va : option VerticalAlign) : SectionOptions :=
  {| scale := 1;
     fontStack := String.EmptyString;
     imageName := Some name;
     verticalAlign := match va with Some v => v | None => va_bottom end |}.

(** *** TaggedString *)

Definition PUAbegin : Z := 57344.   (* 0xE000 *)
Definition PUAend : Z := 63743.     (* 0xF8FF *)

Record TaggedString : Type := {
  text : list Z;
  sectionIndex : list nat;
  sections : list SectionOptions;
  imageSectionID : option Z
}.

(** [new TaggedString()] *)
Definition emptyTagged : TaggedString :=
  {| text := []; sectionIndex := []; sections := []; imageSectionID := None |}.

(** The [whitespace], [breakable] and [breakableBefore] tables. *)
Definition whitespace (c : Z) : bool :=
  ((c =? 9) || (c =? 10) || (c =? 11) || (c =? 12) || (c =? 13) || (c =? 32))%Z.

Definition breakable (c : Z) : bool :=
  ((c =? 10) || (c =? 32) || (c =? 38) || (c =? 41) || (c =? 43) || (c =? 45)
   || (c =? 47) || (c =? 173) || (c =? 183) || (c =? 8203) || (c =? 8208)
   || (c =? 8211) || (c =? 8231))%Z.

Definition breakableBefore (c : Z) : bool := (c =? 40)%Z.

(** A table read at [charCodeAt(i)]; outside the string the code is NaN and
    the entry is missing. *)
Definition at_code (table : Z -> bool) (code : option Z) : bool :=
  match code with Some c => table c | None => false end.

Definition getSection (ts : TaggedString) (index : nat) : option SectionOptions :=
  match nth_error (sectionIndex ts) index with
  | Some k => nth_error (sections ts) k
  | None => None
  end.

Definition getCharCode (ts : TaggedString) (index : nat) : option Z :=
  nth_error (text ts) index.

(** [getNextImageSectionCharCode()]: the code, and the new [imageSectionID]. *)
Definition getNextImageSectionCharCode (ts : TaggedString) : option Z * option Z :=
  match imageSectionID ts with
  | None => (Some PUAbegin, Some PUAbegin)
  | Some id =>
      if (id =? 0)%Z then (Some PUAbegin, Some PUAbegin)
      else if (id >=? PUAend)%Z then (None, Some id)
      else (Some (id + 1)%Z, Some (id + 1)%Z)
  end.

(** [addTextSection(section, defaultFontStack)] *)
Definition addTextSection (ts : TaggedString) (section : FormattedSection)
           (defaultFontStack : String.string) : TaggedString :=
  let font := match fs_fontStack section with
              | Some f => if String.eqb f String.EmptyString then defaultFontStack else f
              | None => defaultFontStack
              end in
  let sections' :=
    sections ts ++ [forText (fs_scale section) font (fs_verticalAlign section)] in
  let index := (length sections' - 1)%nat in
  {| text := text ts ++ fs_text section;
     sectionIndex := sectionIndex ts ++ repeat index (length (fs_text section));
     sections := sections';
     imageSectionID := imageSectionID ts |}.

(** [addImageSection(section)]; the two warnings are not modelled. *)
Definition addImageSection (ts : TaggedString) (section : FormattedSection)
  : TaggedString :=
  let name := match fs_image section with Some n => n | None => String.EmptyString end in
  if (String.length name =? 0)%nat then ts
  else
    let '(code, id') := getNextImageSectionCharCode ts in
    match code with
    | None => {| text := text ts; sectionIndex := sectionIndex ts;
                 sections := sections ts; imageSectionID := id' |}
    | Some c =>
        let sections' := sections ts ++ [forImage name (fs_verticalAlign section)] in
        {| text := text ts ++ [c];
           sectionIndex := sectionIndex ts ++ [(length sections' - 1)%nat];
           sections := sections';
           imageSectionID := id' |}
    end.

(** [TaggedString.fromFeature(text, defaultFontStack)] on the sections of the
    formatted text. *)
Definition fromFeature (formatted : list FormattedSection)
           (defaultFontStack : String.string) : TaggedString :=
  fold_left
    (fun result section =>
       match fs_image section with
       | None => addTextSection result section defaultFontStack
       | Some _ => addImageSection result section
       end)
    formatted emptyTagged.

(** What callers rely on: every code unit has an index into [sections]. *)
Definition wellTagged (ts : TaggedString) : bool :=
  (length (text ts) =? length (sectionIndex ts))%nat
  && forallb (fun k => (k <? length (sections ts))%nat) (sectionIndex ts).

Definition isImage (s : option SectionOptions) : bool :=
  match s with Some o => nonEmpty (imageName o) | None => false end.

(** The code units of the text that stand for an image section, in order. *)
Definition imageChars (ts : TaggedString) : list Z :=
  map fst
    (filter (fun '(_, k) => isImage (nth_error (sections ts) k))
       (combine (text ts) (sectionIndex ts))).

(** The state of the image counter after [n] images have been added. *)
Definition imageState (ts : TaggedString) (n : nat) : Prop :=
  wellTagged ts = true
  /\ (Z.of_nat n <= 6400)%Z
  /\ imageChars ts = map (fun k => (PUAbegin + Z.of_nat k)%Z) (seq 0 n)
  /\ imageSectionID ts
     = if (n =? 0)%nat then None else Some (PUAbegin + Z.of_nat n - 1)%Z.

(** The number of leading code units that are white space: the first loop of
    [trim]. *)
Fixpoint leadingWhitespace (l : list Z) : nat :=
  match l with
  | c :: l' => if whitespace c then S (leadingWhitespace l') else O
  | [] => O
  end.

(** Whether a string starts with white space. *)
Definition startsWithWhitespace (l : list Z) : bool :=
  match l with c :: _ => whitespace c | [] => false end.

(** [trim()] *)
Definition trim (ts : TaggedString) : TaggedString :=
  let beginningWhitespace := leadingWhitespace (text ts) in
  let trailingWhitespace :=
    (length (text ts)
     - leadingWhitespace (rev (skipn beginningWhitespace (text ts))))%nat in
  {| text := substring beginningWhitespace trailingWhitespace (text ts);
     sectionIndex := slice beginningWhitespace trailingWhitespace (sectionIndex ts);
     sections := sections ts;
     imageSectionID := imageSectionID ts |}.

(** [substring(start, end)] of a tagged string. *)
Definition taggedSubstring (ts : TaggedString) (start stop : nat) : TaggedString :=
  {| text := substring start stop (text ts);
     sectionIndex := slice start stop (sectionIndex ts);
     sections := sections ts;
     imageSectionID := None |}.

(** [breakLines(input, lineBreakPoints)] *)
Definition breakLines (input : TaggedString) (lineBreakPoints : list nat)
  : list TaggedString :=
  let '(lines, start) :=
    fold_left
      (fun '(lines, start) lineBreak =>
         (lines ++ [taggedSubstring input start lineBreak], lineBreak))
      lineBreakPoints ([], O) in
  if (start <? length (text input))%nat
  then lines ++ [taggedSubstring input start (length (text input))]
  else lines.

(** *** Measuring *)

Section Measuring.
Context {E : TextEnv}.
Variable glyphMap : GlyphMap.
Variable imagePositions : ImagePositions.
Variable spacing : Q.
Variable layoutTextSize : Q.

(** [getGlyphAdvance(codePoint, section, ...)]; reading [section.imageName]
    of a missing section throws. *)
Definition getGlyphAdvance (codePoint : option Z) (section : option SectionOptions)
  : JS.completion Q :=
  match section with
  | None => JS.Throw JS.TypeError
  | Some s =>
      if negb (nonEmpty (imageName s)) then
        let glyph :=
          match glyphMap (fontStack s), codePoint with
          | Some positions, Some c => positions c
          | _, _ => None
          end in
        match glyph with
        | None => JS.Normal 0
        | Some g => JS.Normal (gm_advance (sg_metrics g) * scale s + spacing)
        end
      else
        match imageName s with
        | Some name =>
            match imagePositions name with
            | None => JS.Normal 0
            | Some imagePosition =>
                JS.Normal (fst (displaySize imagePosition) * scale s * ONE_EM
                           / layoutTextSize + spacing)
            end
        | None => JS.Normal 0
        end
  end.

(** The sum computed by the loop of [determineAverageLineWidth]. *)
Fixpoint totalAdvance (logicalInput : TaggedString) (indices : list nat) (totalWidth : Q)
  : JS.completion Q :=
  match indices with
  | [] => JS.Normal totalWidth
  | index :: rest =>
      advance <- getGlyphAdvance (getCharCode logicalInput index)
                                 (getSection logicalInput index) ;;
      totalAdvance logicalInput rest (totalWidth + advance)
  end.

(** [determineAverageLineWidth(logicalInput, spacing, maxWidth, ...)] *)
Definition determineAverageLineWidth (logicalInput : TaggedString) (maxWidth : Q)
  : JS.completion Q :=
  totalWidth <- totalAdvance logicalInput (seq 0 (length (text logicalInput))) 0 ;;
  let lineCount := Z.max 1 (Qceiling (totalWidth / maxWidth)) in
  JS.Normal (totalWidth / inject_Z lineCount).

End Measuring.

(** *** Choosing line breaks *)

(** [calculateBadness(lineWidth, targetWidth, penalty, isLastBreak)] *)
Definition calculateBadness (lineWidth targetWidth penalty : Q) (isLastBreak : bool) : Q :=
  let raggedness := (lineWidth - targetWidth) * (lineWidth - targetWidth) in
  if isLastBreak then
    if negb (Qle_bool targetWidth lineWidth) then raggedness / 2 else raggedness * 2
  else raggedness + Qabs penalty * penalty.

(** [calculatePenalty(codePoint, nextCodePoint, penalizableIdeographicBreak)] *)
Definition calculatePenalty (codePoint nextCodePoint : option Z)
           (penalizableIdeographicBreak : bool) : Q :=
  let penalty := 0 in
  let penalty := if at_code (Z.eqb 10) codePoint then penalty - 10000 else penalty in
  let penalty := if penalizableIdeographicBreak then penalty + 150 else penalty in
  let penalty :=
    if at_code (Z.eqb 40) codePoint || at_code (Z.eqb 65288) codePoint
    then penalty + 50 else penalty in
  let penalty :=
    if at_code (Z.eqb 41) nextCodePoint || at_code (Z.eqb 65289) nextCodePoint
    then penalty + 50 else penalty in
  penalty.

(** [type Break = {index, x, priorBreak, badness}] *)
#[warnings="-register-all"] Inductive Break : Type :=
| mkBreak (index : nat) (bx : Q) (priorBreak : option Break) (badness : Q).

Definition index (b : Break) : nat := let '(mkBreak i _ _ _) := b in i.
Definition bx (b : Break) : Q := let '(mkBreak _ x _ _) := b in x.
Definition priorBreak (b : Break) : option Break := let '(mkBreak _ _ p _) := b in p.
Definition badness (b : Break) : Q := let '(mkBreak _ _ _ q) := b in q.

(** [evaluateBreak(breakIndex, breakX, targetWidth, potentialBreaks, penalty,
    isLastBreak)] *)
Definition evaluateBreak (breakIndex : nat) (breakX targetWidth : Q)
           (potentialBreaks : list Break) (penalty : Q) (isLastBreak : bool) : Break :=
  let '(bestPriorBreak, bestBreakBadness) :=
    fold_left
      (fun '(bestPriorBreak, bestBreakBadness) potentialBreak =>
         let lineWidth := breakX - bx potentialBreak in
         let breakBadness :=
           calculateBadness lineWidth targetWidth penalty isLastBreak
           + badness potentialBreak in
         if Qle_bool breakBadness bestBreakBadness
         then (Some potentialBreak, breakBadness)
         else (bestPriorBreak, bestBreakBadness))
      potentialBreaks
      (None, calculateBadness breakX targetWidth penalty isLastBreak) in
  mkBreak breakIndex breakX bestPriorBreak bestBreakBadness.

(** [leastBadBreaks(lastLineBreak)] *)
Fixpoint breaksUpTo (b : Break) : list nat :=
  match b with
  | mkBreak i _ prior _ =>
      match prior with
      | None => []
      | Some p => breaksUpTo p
      end ++ [i]
  end.

Definition leastBadBreaks (lastLineBreak : option Break) : list nat :=
  match lastLineBreak with
  | None => []
  | Some b => breaksUpTo b
  end.

(** A list of break positions that leaves no line empty: strictly increasing
    and starting after the first character. *)
Definition properBreaks (breaks : list nat) : Prop :=
  StronglySorted lt breaks /\ Forall (fun k => (1 <= k)%nat) breaks.

Section LineBreaks.
Context {E : TextEnv}.
Variable glyphMap : GlyphMap.
Variable imagePositions : ImagePositions.
Variable spacing : Q.
Variable maxWidth : Q.
Variable layoutTextSize : Q.

(** One pass of the [for] loop of [determineLineBreaks] at index [i]; the
    state is [currentX] and [potentialLineBreaks]. *)
Definition lineBreakStep (logicalInput : TaggedString) (targetWidth : Q)
           (hasServerSuggestedBreakpoints : bool)
           (state : Q * list Break) (i : nat) : JS.completion (Q * list Break) :=
  let '(currentX, potentialLineBreaks) := state in
  let len := length (text logicalInput) in
  let section := getSection logicalInput i in
  let codePoint := getCharCode logicalInput i in
  currentX <-
    (if negb (at_code whitespace codePoint) then
       advance <- getGlyphAdvance glyphMap imagePositions spacing layoutTextSize
                                  codePoint section ;;
       JS.Normal (currentX + advance)
     else JS.Normal currentX) ;;
  if (i + 1 <? len)%nat then
    let ideographicBreak := at_code charAllowsIdeographicBreaking codePoint in
    mayBreak <-
      (if at_code breakable codePoint || ideographicBreak then JS.Normal true
       else
         match section with
         | None => JS.Throw JS.TypeError
         | Some s =>
             JS.Normal
               (nonEmpty (imageName s)
                || (negb (i + 2 =? len)%nat
                    && at_code breakableBefore (getCharCode logicalInput (i + 1))))
         end) ;;
    if mayBreak then
      JS.Normal
        (currentX,
         potentialLineBreaks
         ++ [evaluateBreak (i + 1) currentX targetWidth potentialLineBreaks
               (calculatePenalty codePoint (getCharCode logicalInput (i + 1))
                  (ideographicBreak && hasServerSuggestedBreakpoints))
               false])
    else JS.Normal (currentX, potentialLineBreaks)
  else JS.Normal (currentX, potentialLineBreaks).

Fixpoint lineBreakLoop (logicalInput : TaggedString) (targetWidth : Q)
         (hasServerSuggestedBreakpoints : bool) (indices : list nat)
         (state : Q * list Break) : JS.completion (Q * list Break) :=
  match indices with
  | [] => JS.Normal state
  | i :: rest =>
      state' <- lineBreakStep logicalInput targetWidth hasServerSuggestedBreakpoints
                              state i ;;
      lineBreakLoop logicalInput targetWidth hasServerSuggestedBreakpoints rest state'
  end.

(** [determineLineBreaks(logicalInput, spacing, maxWidth, ...)] *)
Definition determineLineBreaks (logicalInput : option TaggedString)
  : JS.completion (list nat) :=
  match logicalInput with
  | None => JS.Normal []
  | Some input =>
      targetWidth <- determineAverageLineWidth glyphMap imagePositions spacing
                       layoutTextSize input maxWidth ;;
      let hasServerSuggestedBreakpoints := existsb (Z.eqb 8203) (text input) in
      let len := length (text input) in
      final <- lineBreakLoop input targetWidth hasServerSuggestedBreakpoints
                 (seq 0 len) (0, []) ;;
      let '(currentX, potentialLineBreaks) := final in
      JS.Normal
        (leastBadBreaks
           (Some (evaluateBreak len currentX targetWidth potentialLineBreaks 0 true)))
  end.

End LineBreaks.

(** *** Icons *)

Inductive SymbolAnchor : Type :=
| anchor_center | anchor_left | anchor_right | anchor_top | anchor_bottom
| anchor_top_left | anchor_top_right | anchor_bottom_left | anchor_bottom_right.

(** [getAnchorAlignment(anchor)] *)
Definition getAnchorAlignment (anchor : SymbolAnchor) : Q * Q :=
  let horizontalAlign :=
    match anchor with
    | anchor_right | anchor_top_right | anchor_bottom_right => 1
    | anchor_left | anchor_top_left | anchor_bottom_left => 0
    | _ => 1 # 2
    end in
  let verticalAlign :=
    match anchor with
    | anchor_bottom | anchor_bottom_right | anchor_bottom_left => 1
    | anchor_top | anchor_top_right | anchor_top_left => 0
    | _ => 1 # 2
    end in
  (horizontalAlign, verticalAlign).

Record PositionedIcon : Type := {
  image : ImagePosition;
  icon_top : Q;
  icon_bottom : Q;
  icon_left : Q;
  icon_right : Q;
  collisionPadding : option (Q * Q * Q * Q)
}.

(** [shapeIcon(image, iconOffset, iconAnchor)] *)
Definition shapeIcon (img : ImagePosition) (iconOffset : Q * Q) (iconAnchor : SymbolAnchor)
  : PositionedIcon :=
  let '(horizontalAlign, verticalAlign) := getAnchorAlignment iconAnchor in
  let dx := fst iconOffset in
  let dy := snd iconOffset in
  let x1 := dx - fst (displaySize img) * horizontalAlign in
  let x2 := x1 + fst (displaySize img) in
  let y1 := dy - snd (displaySize img) * verticalAlign in
  let y2 := y1 + snd (displaySize img) in
  {| image := img; icon_top := y1; icon_bottom := y2; icon_left := x1; icon_right := x2;
     collisionPadding := None |}.

Record Box : Type := { x1 : Q; y1 : Q; x2 : Q; y2 : Q }.

Definition TextFit_eqb (a b : TextFit) : bool :=
  match a, b with
  | stretchOrShrink, stretchOrShrink | stretchOnly, stretchOnly
  | proportional, proportional => true
  | _, _ => false
  end.

Definition Qlt_bool (a b : Q) : bool := negb (Qle_bool b a).

(** [Math.ceil] *)
Definition Math_ceil (q : Q) : Q := inject_Z (Qceiling q).

(** [applyTextFit(shapedIcon)]; reading [content[2]] of an image without a
    content rectangle throws. *)
Definition applyTextFit (shapedIcon : PositionedIcon) : JS.completion Box :=
  let iconLeft := icon_left shapedIcon in
  let iconTop := icon_top shapedIcon in
  let iconWidth := icon_right shapedIcon - iconLeft in
  let iconHeight := icon_bottom shapedIcon - iconTop in
  match content (image shapedIcon) with
  | None => JS.Throw JS.TypeError
  | Some (c0, c1, c2, c3) =>
      let contentWidth := c2 - c0 in
      let contentHeight := c3 - c1 in
      let textFitWidth :=
        match textFitWidth (image shapedIcon) with Some f => f | None => stretchOrShrink end in
      let textFitHeight :=
        match textFitHeight (image shapedIcon) with Some f => f | None => stretchOrShrink end in
      let contentAspectRatio := contentWidth / contentHeight in
      let '(iconLeft, iconTop, iconWidth, iconHeight) :=
        if TextFit_eqb textFitHeight proportional then
          if (TextFit_eqb textFitWidth stretchOnly
              && Qlt_bool (iconWidth / iconHeight) contentAspectRatio)
             || TextFit_eqb textFitWidth proportional
          then
            let newIconWidth := Math_ceil (iconHeight * contentAspectRatio) in
            (iconLeft * (newIconWidth / iconWidth), iconTop, newIconWidth, iconHeight)
          else (iconLeft, iconTop, iconWidth, iconHeight)
        else if TextFit_eqb textFitWidth proportional then
          if TextFit_eqb textFitHeight stretchOnly
             && negb (Qeq_bool contentAspectRatio 0)
             && Qlt_bool contentAspectRatio (iconWidth / iconHeight)
          then
            let newIconHeight := Math_ceil (iconWidth / contentAspectRatio) in
            (iconLeft, iconTop * (newIconHeight / iconHeight), iconWidth, newIconHeight)
          else (iconLeft, iconTop, iconWidth, iconHeight)
        else (iconLeft, iconTop, iconWidth, iconHeight) in
      JS.Normal {| x1 := iconLeft; y1 := iconTop;
                   x2 := iconLeft + iconWidth; y2 := iconTop + iconHeight |}
  end.

(** *** Positioned glyphs *)

Inductive WritingMode : Type := wm_none | wm_horizontal | wm_vertical | wm_horizontalOnly.

Record Rect : Type := { rect_x : Q; rect_y : Q; rect_w : Q; rect_h : Q }.

Record PositionedGlyph : Type := {
  pg_glyph : Z;
  pg_imageName : option String.string;
  pg_x : Q;
  pg_y : Q;
  pg_vertical : bool;
  pg_scale : Q;
  pg_fontStack : String.string;
  pg_sectionIndex : nat;
  pg_metrics : GlyphMetrics;
  pg_rect : option Rect
}.

Record PositionedLine : Type := {
  positionedGlyphs : list PositionedGlyph;
  lineOffset : Q
}.

Record Shaping : Type := {
  positionedLines : list PositionedLine;
  sh_top : Q;
  sh_bottom : Q;
  sh_left : Q;
  sh_right : Q;
  writingMode : WritingMode;
  sh_text : list Z;
  iconsInText : bool;
  verticalizable : bool
}.

(** [positionedGlyphs[j].x -= lineIndent] *)
Definition moveLeft (lineIndent : Q) (g : PositionedGlyph) : PositionedGlyph :=
  {| pg_glyph := pg_glyph g; pg_imageName := pg_imageName g;
     pg_x := pg_x g - lineIndent; pg_y := pg_y g;
     pg_vertical := pg_vertical g; pg_scale := pg_scale g;
     pg_fontStack := pg_fontStack g; pg_sectionIndex := pg_sectionIndex g;
     pg_metrics := pg_metrics g; pg_rect := pg_rect g |}.

(** The array after [for (j = start; j <= end; j++) update(array[j])], the
    first element of [l] being at index [j0]. *)
Fixpoint updateRange {A : Type} (update : A -> A) (start stop j0 : nat) (l : list A)
  : list A :=
  match l with
  | [] => []
  | a :: l' =>
      (if ((start <=? j0) && (j0 <=? stop))%nat then update a else a)
        :: updateRange update start stop (S j0) l'
  end.

(** [justifyLine(positionedGlyphs, start, end, justify)]: the array after the
    call, its glyphs being distinct objects as [shapeLines] creates them.
    Reading [metrics] of a missing last glyph throws. *)
Definition justifyLine (glyphs : list PositionedGlyph) (start stop : nat) (justify : Q)
  : JS.completion (list PositionedGlyph) :=
  if Qeq_bool justify 0 then JS.Normal glyphs
  else
    match nth_error glyphs stop with
    | None => JS.Throw JS.TypeError
    | Some lastPositionedGlyph =>
        let lastAdvance :=
          gm_advance (pg_metrics lastPositionedGlyph) * pg_scale lastPositionedGlyph in
        let lineIndent := (pg_x lastPositionedGlyph + lastAdvance) * justify in
        JS.Normal (updateRange (moveLeft lineIndent) start stop 0 glyphs)
    end.

#[local] Open Scope string_scope.

(** [fitIconToText(shapedIcon, shapedText, textFit, padding, iconOffset,
    fontScale)]; [padding] is [top, right, bottom, left]. *)
Definition fitIconToText (shapedIcon : PositionedIcon) (shapedText : Shaping)
           (textFit : String.string) (padding : Q * Q * Q * Q) (iconOffset : Q * Q)
           (fontScale : Q) : PositionedIcon :=
  let img := image shapedIcon in
  let '(padding0, padding1, padding2, padding3) := padding in
  let collisionPadding :=
    match content img with
    | Some (c0, c1, c2, c3) =>
        let pixelRatio := if Qeq_bool (pixelRatio img) 0 then 1 else pixelRatio img in
        Some (c0 / pixelRatio, c1 / pixelRatio,
              fst (displaySize img) - c2 / pixelRatio,
              snd (displaySize img) - c3 / pixelRatio)
    | None => None
    end in
  let textLeft := sh_left shapedText * fontScale in
  let textRight := sh_right shapedText * fontScale in
  let '(left', right') :=
    if String.eqb textFit "width" || String.eqb textFit "both" then
      (fst iconOffset + textLeft - padding3, fst iconOffset + textRight + padding1)
    else
      let left' := fst iconOffset + (textLeft + textRight - fst (displaySize img)) / 2 in
      (left', left' + fst (displaySize img)) in
  let textTop := sh_top shapedText * fontScale in
  let textBottom := sh_bottom shapedText * fontScale in
  let '(top', bottom') :=
    if String.eqb textFit "height" || String.eqb textFit "both" then
      (snd iconOffset + textTop - padding0, snd iconOffset + textBottom + padding2)
    else
      let top' := snd iconOffset + (textTop + textBottom - snd (displaySize img)) / 2 in
      (top', top' + snd (displaySize img)) in
  {| image := img; icon_top := top'; icon_bottom := bottom';
     icon_left := left'; icon_right := right'; collisionPadding := collisionPadding |}.

End Shaping.

(** ** Sample data for text shaping *)

Module ShapingScenario.
Import Shaping.
Import String.StringSyntax.
#[local] Open Scope string_scope.

(** Ideographs break anywhere; one em is 24 units. *)
#[export] Instance sampleEnv : TextEnv := {
  charAllowsIdeographicBreaking := fun c => ((19968 <=? c) && (c <=? 40959))%Z;
  ONE_EM := 24
}.

(** Every glyph of the font [Sans] advances by 10 units. *)
Definition sampleGlyphs : GlyphMap :=
  fun font =>
    if String.eqb font "Sans"
    then Some (fun _ =>
                 Some {| sg_metrics := {| gm_width := 8; gm_height := 12; gm_left := 1;
                                          gm_top := -2; gm_advance := 10 |} |})
    else None.

Definition markerImage : ImagePosition :=
  {| displaySize := (20, 10); pixelRatio := 1; content := Some (2, 2, 18, 8);
     textFitWidth := Some stretchOnly; textFitHeight := Some proportional |}.

Definition sampleImages : ImagePositions :=
  fun name => if String.eqb name "marker" then Some markerImage else None.

(** The text [" Main St (East) "] followed by the image [marker]. *)
Definition sampleFormatted : list FormattedSection :=
  [ {| fs_text := [32; 77; 97; 105; 110; 32; 83; 116; 32]%Z; fs_image := None;
       fs_scale := None; fs_fontStack := None; fs_verticalAlign := None |};
    {| fs_text := [40; 69; 97; 115; 116; 41; 32]%Z; fs_image := None;
       fs_scale := Some (3 # 2); fs_fontStack := Some "Sans";
       fs_verticalAlign := Some va_center |};
    {| fs_text := []; fs_image := Some "marker";
       fs_scale := None; fs_fontStack := None; fs_verticalAlign := None |} ].

Definition sampleText : TaggedString := fromFeature sampleFormatted "Sans".

(** A string whose only character has no section. *)
Definition untagged : TaggedString :=
  {| text := [65%Z]; sectionIndex := []; sections := []; imageSectionID := None |}.

Definition sampleIcon : PositionedIcon :=
  {| image := markerImage; icon_top := 0; icon_bottom := 10;
     icon_left := 0; icon_right := 20; collisionPadding := None |}.

Definition sampleShaping : Shaping :=
  {| positionedLines := []; sh_top := -12; sh_bottom := 12; sh_left := -40;
     sh_right := 40; writingMode := wm_horizontal; sh_text := [];
     iconsInText := false; verticalizable := false |}.

Definition glyphAt (x : Q) : PositionedGlyph :=
  {| pg_glyph := 77; pg_imageName := None; pg_x := x; pg_y := 0;
     pg_vertical := false; pg_scale := 1; pg_fontStack := "Sans";
     pg_sectionIndex := 0;
     pg_metrics := {| gm_width := 8; gm_height := 12; gm_left := 1;
                      gm_top := -2; gm_advance := 10 |};
     pg_rect := None |}.

Definition sampleGlyphLine : list PositionedGlyph := [glyphAt 0; glyphAt 10; glyphAt 20].

End ShapingScenario.

(* ================================================================== *)
(** * Properties *)

Import CoveringTiles.

(** ** The ordering step *)

Section SortFacts.
Variable A : Type.
Variable key : A -> Q.

Let byKey : A -> A -> Q := fun a b => key a - key b.

Lemma byKey_le (a b : A) : Qle_bool (byKey a b) 0 = true <-> key a <= key b.
Proof.
  unfold byKey. rewrite Qle_bool_iff. split; intro Hle; lra.
Qed.

Lemma insert_In (a : A) (l : list A) (e : A) :
  In e (JS.insert byKey a l) <-> e = a \/ In e l.
Proof.
  induction l as [|b l IH]; simpl.
  - intuition congruence.
  - destruct (Qle_bool (byKey a b) 0); simpl; [|rewrite IH]; intuition congruence.
Qed.

Lemma sort_In (l : list A) (e : A) : In e (JS.sort byKey l) <-> In e l.
Proof.
  induction l as [|a l IH]; simpl; [tauto|].
  rewrite insert_In, IH. intuition congruence.
Qed.

Lemma insert_sorted (a : A) (l : list A) :
  StronglySorted (JS.ascending key) l ->
  StronglySorted (JS.ascending key) (JS.insert byKey a l).
Proof.
  induction 1 as [|b l Hs IH Hb]; simpl.
  - repeat constructor.
  - destruct (Qle_bool (byKey a b) 0) eqn:Hab.
    + apply byKey_le in Hab.
      constructor; [constructor; assumption|].
      constructor; [exact Hab|].
      rewrite Forall_forall in *. intros c Hc.
      unfold JS.ascending in *. specialize (Hb c Hc). lra.
    + assert (Hba : key b <= key a).
      { destruct (Qlt_le_dec (key b) (key a)) as [Hlt|Hle]; [lra|].
        apply byKey_le in Hle. congruence. }
      constructor; [exact IH|].
      rewrite Forall_forall in *. intros c Hc.
      apply insert_In in Hc. destruct Hc as [->|Hc]; [exact Hba|auto].
Qed.

Lemma sort_sorted (l : list A) : StronglySorted (JS.ascending key) (JS.sort byKey l).
Proof.
  induction l as [|a l IH]; simpl; [constructor|].
  apply insert_sorted, IH.
Qed.

Lemma sort_of_sorted (l : list A) :
  StronglySorted (JS.ascending key) l -> JS.sort byKey l = l.
Proof.
  induction 1 as [|a l Hs IH Ha]; simpl; [reflexivity|].
  rewrite IH. destruct l as [|b l]; simpl; [reflexivity|].
  inversion Ha as [|? ? Hab _]; subst.
  apply byKey_le in Hab. rewrite Hab. reflexivity.
Qed.

Lemma sort_idempotent (l : list A) :
  JS.sort byKey (JS.sort byKey l) = JS.sort byKey l.
Proof. apply sort_of_sorted, sort_sorted. Qed.

Lemma sort_Forall (Q0 : A -> Prop) (l : list A) :
  Forall Q0 l -> Forall Q0 (JS.sort byKey l).
Proof.
  rewrite !Forall_forall. intros Hl e He. apply Hl, sort_In, He.
Qed.

End SortFacts.

(** ** The visibility classifier *)

Section ClassifierFacts.
Context {P : Primitives}.

Lemma isTileVisible_typed (frustum : Frustum) (aabb : Aabb) (plane : option vec4) :
  exists r, isTileVisible frustum (JsAabb aabb) (plane_value plane) = JS.Normal r.
Proof.
  destruct plane as [p|]; unfold isTileVisible; simpl.
  - destruct (intersectsFrustum aabb frustum), (intersectsPlane aabb p);
      simpl; eexists; reflexivity.
  - eexists; reflexivity.
Qed.

(** C4. Without a plane the classifier returns the box-against-frustum test;
    with a plane it returns [Full] exactly when both tests are [Full], [None]
    exactly when one of them is [None], and [Partial] in every other case. *)
Theorem isTileVisible_classifies (frustum : Frustum) (aabb : Aabb) (plane : option vec4) :
  match plane with
  | None =>
      isTileVisible frustum (JsAabb aabb) (plane_value None)
      = JS.Normal (intersectsFrustum aabb frustum)
  | Some p =>
      let frustumTest := intersectsFrustum aabb frustum in
      let planeTest := intersectsPlane aabb p in
      exists r,
        isTileVisible frustum (JsAabb aabb) (plane_value (Some p)) = JS.Normal r /\
        (r = IntersectionResult.Full <->
         frustumTest = IntersectionResult.Full /\ planeTest = IntersectionResult.Full) /\
        (r = IntersectionResult.None <->
         frustumTest = IntersectionResult.None \/ planeTest = IntersectionResult.None) /\
        (r = IntersectionResult.Partial <->
         ~ (frustumTest = IntersectionResult.Full /\ planeTest = IntersectionResult.Full) /\
         ~ (frustumTest = IntersectionResult.None \/ planeTest = IntersectionResult.None))
  end.
Proof.
  destruct plane as [p|]; [|reflexivity].
  unfold isTileVisible; simpl.
  destruct (intersectsFrustum aabb frustum), (intersectsPlane aabb p); simpl;
    eexists; (split; [reflexivity|]);
    repeat split; intros; try congruence; try tauto;
    try (intuition congruence).
Qed.

End ClassifierFacts.

(** ** One iteration of the traversal *)

Section EngineFacts.
Context {M : MathFns} {P : Primitives} {T : TileIDs}.
Variable transform : IReadonlyTransform.
Variable frustum : Frustum.
Variable plane : option vec4.
Variables cameraCoord centerCoord : MercatorCoordinate.
Variable options : CoveringTilesOptions.
Variable details : CoveringTilesDetails.

#[local] Abbreviation body := (loopBody transform frustum plane cameraCoord centerCoord options details).
#[local] Abbreviation after := (afterVisibility transform cameraCoord centerCoord options details).
#[local] Abbreviation target := (targetZ transform cameraCoord centerCoord options details).
#[local] Abbreviation wanted := (thisTileDesiredZ transform cameraCoord centerCoord options details).
#[local] Abbreviation desired := (tileDesiredZ transform cameraCoord centerCoord options details).
#[local] Abbreviation numeric := (numericTargets transform cameraCoord centerCoord options details).
#[local] Abbreviation dist := (distToTile2dOf cameraCoord details).
#[local] Abbreviation lo := (minZoom options).
#[local] Abbreviation hi := (maxZoom transform options).
#[local] Abbreviation nominal := (nominalZ transform options).
#[local] Abbreviation boxOf it :=
  (getTileAABB details (tileIDOf it) (wrap it) (tr_elevation transform) options).
#[local] Abbreviation run := (loop transform frustum plane cameraCoord centerCoord options details).
#[local] Abbreviation events := (trace transform frustum plane cameraCoord centerCoord options details).

Lemma fold_push (cs st : list CoveringTilesStackEntry) :
  fold_left (fun st c => push c st) cs st = rev cs ++ st.
Proof.
  revert st. induction cs as [|c cs IH]; intro st; simpl; [reflexivity|].
  rewrite IH, <- app_assoc. reflexivity.
Qed.

(** The clamped target zoom is [NaN] exactly when the zoom computed for the
    tile is, and otherwise a whole number that is at most [maxZoom]. *)
Lemma target_cases (d : Q) :
  (desired d = JS.NaN /\ target d = JS.NaN)
  \/ (desired d <> JS.NaN /\ exists n, target d = JS.Fin n /\ (n <= hi)%Z).
Proof.
  unfold targetZ, thisTileDesiredZ.
  destruct (desired d) as [z| | |]; cbn.
  - right. split; [discriminate|]. eexists. split; [reflexivity|]. lia.
  - right. split; [discriminate|]. eexists. split; [reflexivity|]. lia.
  - right. split; [discriminate|]. eexists. split; [reflexivity|]. lia.
  - left. auto.
Qed.

(** The zoom wanted for a tile, once clamped from below, is [NaN], infinite,
    or a whole number that is not negative. *)
Lemma wanted_cases (d : Q) :
  wanted d = JS.NaN \/ wanted d = JS.PosInfinity
  \/ exists n, wanted d = JS.Fin n /\ (0 <= n)%Z.
Proof.
  unfold thisTileDesiredZ.
  destruct (desired d) as [z| | |]; cbn; auto.
  - right. right. eexists. split; [reflexivity|]. lia.
  - right. right. eexists. split; [reflexivity|]. lia.
Qed.

Lemma ge_target (z : Z) (d : Q) :
  JS.ge (JS.Fin z) (target d) = true <-> exists n, target d = JS.Fin n /\ (n <= z)%Z.
Proof.
  destruct (target_cases d) as [(_ & Ht) | (_ & n & Ht & _)]; rewrite Ht; cbn.
  - split; [discriminate|]. intros (n & Hn & _). discriminate.
  - split.
    + intro H. exists n. split; [reflexivity|]. lia.
    + intros (m & Hm & Hle). injection Hm as <-. lia.
Qed.

(** A node is not at its target yet: the target is [NaN], or a level below
    which the node lies. *)
Lemma not_ge_target (z : Z) (d : Q) :
  JS.ge (JS.Fin z) (target d) = false <->
  target d = JS.NaN \/ exists n, target d = JS.Fin n /\ (z < n <= hi)%Z.
Proof.
  destruct (target_cases d) as [(_ & Ht) | (_ & n & Ht & Hn)]; rewrite Ht; cbn.
  - split; auto.
  - split.
    + intro H. right. exists n. split; [reflexivity|]. lia.
    + intros [H | (m & Hm & Hlt)]; [discriminate|]. injection Hm as <-. lia.
Qed.

Lemma numeric_target (d : Q) :
  numeric -> exists n, target d = JS.Fin n /\ (n <= hi)%Z.
Proof.
  intro Hnum. destruct (target_cases d) as [(Hd & _) | (_ & H)]; [|exact H].
  exfalso. exact (Hnum d Hd).
Qed.

(** What the constructor returns when it does not throw. *)
Lemma new_OverscaledTileID_normal (oz : JS.special Z) (w z x0 y0 : Z)
      (id : OverscaledTileID) :
  new_OverscaledTileID oz w z x0 y0 = JS.Normal id ->
  id = {| overscaledZ := oz; tile_wrap := w;
          canonical := {| cz := z; cx := x0; cy := y0 |} |}.
Proof.
  unfold new_OverscaledTileID. destruct (refuses oz w z x0 y0); [discriminate|].
  intro H. injection H as <-. reflexivity.
Qed.

Lemma new_OverscaledTileID_cases (oz : JS.special Z) (w z x0 y0 : Z) :
  new_OverscaledTileID oz w z x0 y0 = JS.Throw JS.PlainError
  \/ new_OverscaledTileID oz w z x0 y0
     = JS.Normal {| overscaledZ := oz; tile_wrap := w;
                    canonical := {| cz := z; cx := x0; cy := y0 |} |}.
Proof. unfold new_OverscaledTileID. destruct (refuses oz w z x0 y0); auto. Qed.

(** The ways the code after the visibility test can go: subdivide, drop,
    emit, or throw from the constructor of the identifier. *)
Lemma after_cases (it : CoveringTilesStackEntry) (aabb : Aabb) (fv : bool) :
  (JS.ge (JS.Fin (zoom it)) (target (dist it aabb)) = false /\
   after it aabb fv
   = JS.Normal
       (Subdivide (children it (getWrap details centerCoord (tileIDOf it) (wrap it)) fv)))
  \/ (JS.ge (JS.Fin (zoom it)) (target (dist it aabb)) = true /\ (zoom it < lo)%Z /\
      after it aabb fv = JS.Normal Dropped)
  \/ (JS.ge (JS.Fin (zoom it)) (target (dist it aabb)) = true /\ (lo <= zoom it)%Z /\
      (after it aabb fv = JS.Throw JS.PlainError
       \/ exists r,
            after it aabb fv = JS.Normal (Emit r) /\
            tileID r = emittedID transform cameraCoord centerCoord options details it aabb /\
            distanceSq r =
              vec2_sqrLen
                (fst (centerPoint transform centerCoord options) - (1 # 2) - inject_Z (x it),
                 snd (centerPoint transform centerCoord options) - (1 # 2) - inject_Z (y it)))).
Proof.
  unfold afterVisibility. fold (tileIDOf it). fold (dist it aabb).
  destruct (JS.ge (JS.Fin (zoom it)) (target (dist it aabb))) eqn:Hz.
  - destruct (zoom it <? lo)%Z eqn:Hm.
    + right; left. repeat split; lia.
    + right; right. split; [reflexivity|]. split; [lia|].
      match goal with
      | |- context [new_OverscaledTileID ?oz ?w ?z ?a ?b] =>
          destruct (new_OverscaledTileID_cases oz w z a b) as [Hc|Hc]; rewrite Hc
      end; cbn [JS.bind]; [left; reflexivity|].
      right. eexists. split; [reflexivity|]. cbn [tileID distanceSq].
      split; [|reflexivity]. unfold emittedID.
      destruct (zoom it =? hi)%Z, (reparseOverscaled options); reflexivity.
  - left. split; reflexivity.
Qed.

(** At or beyond its target and not below [minZoom], a node whose identifier
    the constructor accepts is emitted. *)
Lemma after_emits (it : CoveringTilesStackEntry) (aabb : Aabb) (fv : bool) :
  JS.ge (JS.Fin (zoom it)) (target (dist it aabb)) = true ->
  (lo <= zoom it)%Z ->
  (let id := emittedID transform cameraCoord centerCoord options details it aabb in
   refuses (overscaledZ id) (tile_wrap id) (zoom it) (x it) (y it) = false) ->
  exists r,
    after it aabb fv = JS.Normal (Emit r) /\
    tileID r = emittedID transform cameraCoord centerCoord options details it aabb.
Proof.
  cbv zeta. unfold emittedID. cbn [overscaledZ tile_wrap].
  intros Hz Hm Hr.
  unfold afterVisibility. fold (tileIDOf it). fold (dist it aabb).
  rewrite Hz. replace (zoom it <? lo)%Z with false by (symmetry; apply Z.ltb_ge; lia).
  unfold new_OverscaledTileID.
  replace (if (zoom it =? hi)%Z
           then if reparseOverscaled options then wanted (dist it aabb) else JS.Fin (zoom it)
           else JS.Fin (zoom it))
    with (if (zoom it =? hi)%Z && reparseOverscaled options
          then wanted (dist it aabb) else JS.Fin (zoom it))
    by (destruct (zoom it =? hi)%Z, (reparseOverscaled options); reflexivity).
  rewrite Hr. cbn [JS.bind]. eexists. split; reflexivity.
Qed.

(** The ways one iteration can go: the box construction throws; or the entry
    is already fully visible and the test is skipped; or the test is made and
    either culls the entry or lets it through. *)
Lemma body_cases (it : CoveringTilesStackEntry) :
  (exists e, boxOf it = JS.Throw e /\ body it = JS.Throw e)
  \/ exists aabb,
       boxOf it = JS.Normal aabb /\
       ((fullyVisible it = true /\ body it = after it aabb true)
        \/ (fullyVisible it = false /\
            exists r,
              isTileVisible frustum (JsAabb aabb) (plane_value plane) = JS.Normal r /\
              ((r = IntersectionResult.None /\ body it = JS.Normal Culled)
               \/ (r <> IntersectionResult.None /\
                   body it
                   = after it aabb (IntersectionResult.eqb r IntersectionResult.Full))))).
Proof.
  unfold loopBody. fold (tileIDOf it).
  destruct (boxOf it) as [aabb|e] eqn:Hbox; simpl; [|left; eauto].
  right. exists aabb. split; [reflexivity|].
  destruct (fullyVisible it) eqn:Hfv; simpl; [left; auto|].
  right. split; [reflexivity|].
  destruct (isTileVisible_typed frustum aabb plane) as [r Hr]. rewrite Hr. simpl.
  exists r. split; [reflexivity|].
  destruct r; simpl; [left; auto | right | right]; (split; [discriminate|reflexivity]).
Qed.

(** A normal completion other than [Culled] is the code after the test, run
    with the flag the entry carries or the test has just set. *)
Lemma body_after (it : CoveringTilesStackEntry) (o : Outcome) :
  body it = JS.Normal o -> o <> Culled ->
  exists aabb fv,
    boxOf it = JS.Normal aabb /\
    (fullyVisible it = true -> fv = true) /\
    after it aabb fv = JS.Normal o.
Proof.
  intros Hb Ho.
  destruct (body_cases it) as [(e & _ & He) | (aabb & Hbox & [(Hfv & Hr) | (Hfv & r & _ & [(_ & Hr) | (_ & Hr)])])];
    rewrite Hb in *; try discriminate.
  - exists aabb, true. auto.
  - injection Hr as ->. contradiction.
  - exists aabb, (IntersectionResult.eqb r IntersectionResult.Full).
    repeat split; auto. congruence.
Qed.

Lemma children_zoom (it : CoveringTilesStackEntry) (w : Z) (fv : bool) :
  Forall (fun c => zoom c = (zoom it + 1)%Z /\ wrap c = w /\ fullyVisible c = fv)
         (children it w fv).
Proof. unfold children. repeat constructor. Qed.

(** Subdivision: only while the node is not at its target zoom, into four
    children one level down that inherit the wrap and the visibility flag. *)
Lemma body_subdivide (it : CoveringTilesStackEntry) (cs : list CoveringTilesStackEntry) :
  body it = JS.Normal (Subdivide cs) ->
  exists aabb fv,
    boxOf it = JS.Normal aabb /\
    JS.ge (JS.Fin (zoom it)) (target (dist it aabb)) = false /\
    (fullyVisible it = true -> fv = true) /\
    cs = children it (getWrap details centerCoord (tileIDOf it) (wrap it)) fv.
Proof.
  intro Hb.
  destruct (body_after it Hb) as (aabb & fv & Hbox & Hfv & Ho); [discriminate|].
  exists aabb, fv.
  destruct (after_cases it aabb fv)
    as [(Hz & Ha) | [(_ & _ & Ha) | (_ & _ & [Ha | (r & Ha & _)])]];
    rewrite Ha in Ho; try discriminate.
  injection Ho as <-. auto.
Qed.

(** With numeric targets a node is subdivided only strictly below its target
    zoom, which is at most [maxZoom]. *)
Lemma body_subdivide_numeric (it : CoveringTilesStackEntry)
      (cs : list CoveringTilesStackEntry) :
  numeric ->
  body it = JS.Normal (Subdivide cs) ->
  exists aabb fv n,
    boxOf it = JS.Normal aabb /\
    target (dist it aabb) = JS.Fin n /\ (zoom it < n <= hi)%Z /\
    (fullyVisible it = true -> fv = true) /\
    cs = children it (getWrap details centerCoord (tileIDOf it) (wrap it)) fv.
Proof.
  intros Hnum Hb.
  destruct (body_subdivide it Hb) as (aabb & fv & Hbox & Hz & Hfv & Hcs).
  apply not_ge_target in Hz.
  destruct (numeric_target (dist it aabb) Hnum) as (n & Hn & _).
  destruct Hz as [Hz | (m & Hm & Hlt)]; [congruence|].
  exists aabb, fv, m. auto.
Qed.

(** Emission: at or beyond the target zoom, which is then a number, and not
    below the zoom floor. *)
Lemma body_emit (it : CoveringTilesStackEntry) (r : CoveringTilesResult) :
  body it = JS.Normal (Emit r) ->
  exists aabb,
    boxOf it = JS.Normal aabb /\
    (exists n, target (dist it aabb) = JS.Fin n /\ (n <= zoom it)%Z) /\
    (lo <= zoom it)%Z /\
    tileID r = emittedID transform cameraCoord centerCoord options details it aabb /\
    distanceSq r =
      vec2_sqrLen
        (fst (centerPoint transform centerCoord options) - (1 # 2) - inject_Z (x it),
         snd (centerPoint transform centerCoord options) - (1 # 2) - inject_Z (y it)).
Proof.
  intro Hb.
  destruct (body_after it Hb) as (aabb & fv & Hbox & Hfv & Ho); [discriminate|].
  exists aabb.
  destruct (after_cases it aabb fv)
    as [(Hz & Ha) | [(_ & _ & Ha) | (Hz & Hm & [Ha | (r' & Ha & Hid & Hd)])]];
    rewrite Ha in Ho; try discriminate.
  injection Ho as <-. apply ge_target in Hz. auto.
Qed.

(** A zoom-floor drop happens only below [minZoom]. *)
Lemma body_dropped (it : CoveringTilesStackEntry) :
  body it = JS.Normal Dropped -> (zoom it < lo)%Z.
Proof.
  intro Hb.
  destruct (body_after it Hb) as (aabb & fv & Hbox & Hfv & Ho); [discriminate|].
  destruct (after_cases it aabb fv)
    as [(Hz & Ha) | [(_ & Hm & Ha) | (_ & _ & [Ha | (r & Ha & _)])]];
    rewrite Ha in Ho; try discriminate.
  exact Hm.
Qed.

(** ** The loop *)


Lemma quadtreeSize_pos (h : nat) : (1 <= quadtreeSize h)%nat.
Proof. destruct h; simpl; lia. Qed.

Lemma weight_children (it : CoveringTilesStackEntry) (w : Z) (fv : bool) :
  (zoom it < hi)%Z ->
  (stackWeight transform options (rev (children it w fv)) + 1
   = weight transform options it)%nat.
Proof.
  intro Hz. unfold stackWeight, weight, children.
  cbn [map rev app list_sum fold_right zoom].
  replace (Z.to_nat (hi - zoom it)) with (S (Z.to_nat (hi - (zoom it + 1)))) by lia.
  cbn [quadtreeSize]. lia.
Qed.

Lemma stackWeight_app (s1 s2 : list CoveringTilesStackEntry) :
  stackWeight transform options (s1 ++ s2)
  = (stackWeight transform options s1 + stackWeight transform options s2)%nat.
Proof. unfold stackWeight. rewrite map_app, list_sum_app. reflexivity. Qed.

(** With numeric targets a budget of [stackWeight stack] iterations empties
    the stack (or reaches a throw). *)
Lemma run_enough_fuel (fuel : nat) (stack : list CoveringTilesStackEntry)
      (res : list CoveringTilesResult) :
  numeric ->
  (stackWeight transform options stack <= fuel)%nat ->
  exists r, run fuel stack res = Some r.
Proof.
  intro Hnum. revert stack res.
  induction fuel as [|fuel IH]; intros stack res Hw.
  - destruct stack as [|it stack]; [eexists; reflexivity|].
    unfold stackWeight in Hw. cbn [map list_sum fold_right] in Hw.
    pose proof (quadtreeSize_pos (Z.to_nat (hi - zoom it))).
    unfold weight in Hw. lia.
  - destruct stack as [|it stack]; [eexists; reflexivity|].
    assert (Hit : (stackWeight transform options (it :: stack)
                   = weight transform options it + stackWeight transform options stack)%nat)
      by reflexivity.
    pose proof (quadtreeSize_pos (Z.to_nat (hi - zoom it))) as Hpos.
    fold (weight transform options it) in Hpos.
    cbn [loop].
    destruct (body it) as [[| |r0|cs]|e] eqn:Hb; try (apply IH; lia).
    + apply (body_subdivide_numeric it Hnum) in Hb.
      destruct Hb as (aabb & fv & n & _ & _ & Hz & _ & ->).
      apply IH. rewrite fold_push, stackWeight_app.
      assert (Hlt : (zoom it < hi)%Z) by lia.
      pose proof (@weight_children it
                    (getWrap details centerCoord (tileIDOf it) (wrap it)) fv Hlt) as Hc.
      lia.
    + eexists; reflexivity.
Qed.

Lemma emitted_app (t1 t2 : list (CoveringTilesStackEntry * JS.completion Outcome)) :
  emitted (t1 ++ t2) = emitted t1 ++ emitted t2.
Proof. unfold emitted. apply flat_map_app. Qed.

Lemma emitted_In (tr : list (CoveringTilesStackEntry * JS.completion Outcome))
      (r : CoveringTilesResult) :
  In r (emitted tr) <-> exists it, In (it, JS.Normal (Emit r)) tr.
Proof.
  unfold emitted. rewrite in_flat_map. split.
  - intros ([it o] & Hin & Hr). simpl in Hr.
    destruct o as [[| |r0|cs]|e]; simpl in Hr; try contradiction.
    destruct Hr as [->|[]]. exists it. exact Hin.
  - intros (it & Hin). exists (it, JS.Normal (Emit r)). simpl. auto.
Qed.

(** The list the loop returns is the initial accumulator followed by the
    entries emitted along the trace. *)
Lemma run_result (fuel : nat) (stack : list CoveringTilesStackEntry)
      (res out : list CoveringTilesResult) :
  run fuel stack res = Some (JS.Normal out) ->
  out = res ++ emitted (events fuel stack).
Proof.
  revert stack res.
  induction fuel as [|fuel IH]; intros stack res Hrun.
  - destruct stack; simpl in Hrun; [|discriminate].
    injection Hrun as <-. simpl. rewrite app_nil_r. reflexivity.
  - destruct stack as [|it stack].
    + simpl in Hrun. injection Hrun as <-. simpl. rewrite app_nil_r. reflexivity.
    + cbn [loop trace] in *. unfold emitted. cbn [flat_map snd]. fold emitted.
      destruct (body it) as [[| |r0|cs]|e]; try discriminate;
        apply IH in Hrun; rewrite Hrun; simpl; try reflexivity.
      rewrite <- app_assoc. reflexivity.
Qed.

(** Every event of a trace records what the loop body does on its entry. *)
Lemma events_body (fuel : nat) (stack : list CoveringTilesStackEntry) :
  Forall (fun ev => snd ev = body (fst ev)) (events fuel stack).
Proof.
  revert stack. induction fuel as [|fuel IH]; intro stack; [constructor|].
  destruct stack as [|it stack]; [constructor|].
  cbn [trace]. constructor; [reflexivity|].
  destruct (body it) as [[| |r0|cs]|e]; try apply IH. constructor.
Qed.

(** A property of stack entries that subdivision passes on to the children
    holds of every entry the loop pops. *)
Lemma events_invariant (I : CoveringTilesStackEntry -> Prop) :
  (forall it cs, I it -> body it = JS.Normal (Subdivide cs) -> Forall I cs) ->
  forall fuel stack,
    Forall I stack -> Forall (fun ev => I (fst ev)) (events fuel stack).
Proof.
  intros Hstep fuel. induction fuel as [|fuel IH]; intros stack Hst; [constructor|].
  destruct stack as [|it stack]; [constructor|].
  inversion Hst as [|? ? Hit Hrest]; subst.
  cbn [trace]. constructor; [exact Hit|].
  destruct (body it) as [[| |r0|cs]|e] eqn:Hb; try (apply IH; assumption).
  - apply IH. rewrite fold_push. apply Forall_app. split; [|assumption].
    apply Forall_rev. eapply Hstep; eassumption.
  - constructor.
Qed.

Lemma initialStack_roots :
  Forall (fun it => zoom it = 0%Z /\ fullyVisible it = false)
         (initialStack transform).
Proof.
  unfold initialStack. destruct (tr_renderWorldCopies transform); repeat constructor.
Qed.


(** Every popped entry is a root or descends from one. *)
Lemma events_descend (fuel : nat) :
  Forall (fun ev =>
            In (fst ev) (initialStack transform)
            \/ exists root,
                 In root (initialStack transform) /\
                 descendant transform frustum plane cameraCoord centerCoord options details
                            root (fst ev))
         (events fuel (initialStack transform)).
Proof.
  apply events_invariant
    with (I := fun it =>
                 In it (initialStack transform)
                 \/ exists root,
                      In root (initialStack transform) /\
                      descendant transform frustum plane cameraCoord centerCoord options
                                 details root it).
  - intros it cs Hit Hb. apply Forall_forall. intros c Hc.
    assert (Hchild : child_of transform frustum plane cameraCoord centerCoord options details it c)
      by (exists cs; auto).
    right. destruct Hit as [Hroot | (root & Hroot & Hd)].
    + exists it. split; [assumption|]. apply descendant_child. exact Hchild.
    + exists root. split; [assumption|]. eapply descendant_step; eassumption.
  - apply Forall_forall. auto.
Qed.

(** ** Results of a call *)

#[local] Abbreviation entries :=
  (coveringTilesEntries transform frustum plane cameraCoord centerCoord options details).
#[local] Abbreviation tiles :=
  (coveringTiles transform frustum plane cameraCoord centerCoord options details).

Lemma coveringTiles_entries (fuel : nat) (ids : list OverscaledTileID) :
  tiles fuel = Some (JS.Normal ids) ->
  exists es, entries fuel = Some (JS.Normal es) /\ ids = map tileID es.
Proof.
  unfold coveringTiles.
  destruct (entries fuel) as [[es|e]|]; try discriminate.
  intro H. injection H as <-. eauto.
Qed.

(** Every entry of the sorted result was pushed by an iteration of the loop. *)
Lemma entries_emitted (fuel : nat) (es : list CoveringTilesResult) :
  entries fuel = Some (JS.Normal es) ->
  forall r, In r es ->
    exists it,
      In (it, JS.Normal (Emit r)) (events fuel (initialStack transform)) /\
      body it = JS.Normal (Emit r).
Proof.
  unfold coveringTilesEntries.
  destruct (run fuel (initialStack transform) []) as [[out|e]|] eqn:Hrun; try discriminate.
  intro H. injection H as <-. intros r Hr.
  unfold sortResult in Hr. apply sort_In in Hr.
  apply run_result in Hrun. simpl in Hrun. subst out.
  apply emitted_In in Hr. destruct Hr as (it & Hin).
  exists it. split; [exact Hin|].
  pose proof (events_body fuel (initialStack transform)) as Hb.
  rewrite Forall_forall in Hb.
  specialize (Hb _ Hin). simpl in Hb. auto.
Qed.


(** C5. The returned identifiers are those of result entries in ascending
    order of [distanceSq], and sorting these entries once more leaves them as
    they are. *)
Theorem coveringTiles_sorted (fuel : nat) (ids : list OverscaledTileID) :
  tiles fuel = Some (JS.Normal ids) ->
  exists es,
    entries fuel = Some (JS.Normal es) /\
    ids = map tileID es /\
    StronglySorted (JS.ascending distanceSq) es /\
    sortResult es = es.
Proof.
  intro Hrun.
  apply coveringTiles_entries in Hrun. destruct Hrun as (es & Hes & ->).
  exists es. split; [exact Hes|]. split; [reflexivity|].
  unfold coveringTilesEntries in Hes.
  destruct (run fuel (initialStack transform) []) as [[out|e]|]; try discriminate.
  injection Hes as <-. unfold sortResult. split.
  - apply sort_sorted.
  - apply sort_idempotent.
Qed.

(** C6 (amended). The overscaled zoom of an emitted entry is the zoom of its
    node, except when that zoom equals the effective maximum zoom and
    [reparseOverscaled] is set: then it is the zoom wanted for the tile,
    clamped from below at 0 and not clamped from above. *)
Theorem overscaledZ_of_emitted (fuel : nat) (es : list CoveringTilesResult) :
  entries fuel = Some (JS.Normal es) ->
  Forall (fun r =>
            exists it aabb,
              In (it, JS.Normal (Emit r)) (events fuel (initialStack transform)) /\
              boxOf it = JS.Normal aabb /\
              cz (canonical (tileID r)) = zoom it /\
              overscaledZ (tileID r) =
                if (zoom it =? hi)%Z && reparseOverscaled options
                then JS.Math_max (JS.Fin 0%Z) (desired (dist it aabb))
                else JS.Fin (zoom it))
         es.
Proof.
  intro Hes. apply Forall_forall. intros r Hr.
  destruct (entries_emitted fuel Hes r Hr) as (it & Hin & Hb).
  apply body_emit in Hb. destruct Hb as (aabb & Hbox & _ & _ & Hid & _).
  exists it, aabb. rewrite Hid. cbn [emittedID canonical cz overscaledZ]. auto.
Qed.

Lemma desired_fixed (d : Q) :
  allowVariableZoom details = false ->
  desired d = JS.Fin (desiredZ transform options).
Proof. intro Hv. unfold tileDesiredZ. rewrite Hv. reflexivity. Qed.

Lemma target_fixed (d : Q) :
  allowVariableZoom details = false -> target d = JS.Fin nominal.
Proof.
  intro Hv. unfold targetZ, thisTileDesiredZ. rewrite (desired_fixed d Hv). reflexivity.
Qed.

(** Without per-tile zoom every target is the desired zoom, a number. *)
Lemma fixed_numeric : allowVariableZoom details = false -> numeric.
Proof. intros Hv d. rewrite (desired_fixed d Hv). discriminate. Qed.

(** Without per-tile zoom the traversal never goes below the nominal level. *)
Lemma events_nominal_range (fuel : nat) :
  allowVariableZoom details = false ->
  Forall (fun ev => (zoom (fst ev) <= Z.max 0 nominal)%Z)
         (events fuel (initialStack transform)).
Proof.
  intro Hv.
  apply events_invariant with (I := fun it => (zoom it <= Z.max 0 nominal)%Z).
  - intros it cs Hit Hb. apply (body_subdivide_numeric it (fixed_numeric Hv)) in Hb.
    destruct Hb as (aabb & fv & n & _ & Hn & Hz & _ & ->).
    rewrite (target_fixed _ Hv) in Hn. injection Hn as <-.
    eapply Forall_impl; [|apply children_zoom].
    intros c (Hc & _). simpl in Hc. lia.
  - eapply Forall_impl; [|apply initialStack_roots]. intros it (Hz & _). simpl in Hz. lia.
Qed.

(** C7 (amended). With per-tile zoom disabled and a non-negative effective
    maximum zoom, a [minZoom] above the nominal zoom makes every call with
    enough budget return the empty list (unless the box construction of the
    details throws). *)
Theorem minZoom_above_nominal_empty :
  allowVariableZoom details = false ->
  (0 <= hi)%Z ->
  (nominal < lo)%Z ->
  exists fuel0, forall fuel, (fuel0 <= fuel)%nat ->
    tiles fuel = Some (JS.Normal []) \/ exists e, tiles fuel = Some (JS.Throw e).
Proof.
  intros Hv Hhi Hlo.
  exists (stackWeight transform options (initialStack transform)). intros fuel Hfuel.
  destruct (run_enough_fuel (initialStack transform) [] (fixed_numeric Hv) Hfuel)
    as (r & Hrun).
  unfold coveringTiles, coveringTilesEntries. rewrite Hrun.
  destruct r as [out|e]; [left|right; eauto].
  apply run_result in Hrun. simpl in Hrun.
  assert (Hout : out = []).
  { destruct out as [|r out]; [reflexivity|exfalso].
    assert (Hr : In r (emitted (events fuel (initialStack transform))))
      by (rewrite <- Hrun; left; reflexivity).
    apply emitted_In in Hr. destruct Hr as (it & Hin).
    pose proof (events_body fuel (initialStack transform)) as Hb.
    pose proof (events_nominal_range fuel Hv) as Hz.
    rewrite Forall_forall in Hb, Hz.
    specialize (Hb _ Hin). specialize (Hz _ Hin). simpl in Hb, Hz.
    symmetry in Hb. apply body_emit in Hb.
    destruct Hb as (aabb & _ & _ & Hm & _).
    assert (0 <= nominal)%Z by (unfold nominalZ; lia).
    lia. }
  rewrite Hout. reflexivity.
Qed.

Lemma middleDistanceSq_nominal (x0 y0 : Z) :
  middleDistanceSq transform centerCoord options nominal x0 y0
  == vec2_sqrLen
       (fst (centerPoint transform centerCoord options) - (1 # 2) - inject_Z x0,
        snd (centerPoint transform centerCoord options) - (1 # 2) - inject_Z y0).
Proof.
  unfold middleDistanceSq. rewrite Z.sub_diag.
  unfold vec2_sqrLen. cbn [fst snd]. change (2 ^ 0) with 1. ring.
Qed.

(** C8 (amended). For an emitted entry whose node is at the nominal zoom,
    [distanceSq] is the squared distance between the middle of the tile,
    [(x + 1/2, y + 1/2)], and the view centre scaled by [2 ^ nominalZ]. *)
Theorem distanceSq_of_emitted (fuel : nat) (es : list CoveringTilesResult) :
  entries fuel = Some (JS.Normal es) ->
  Forall (fun r =>
            cz (canonical (tileID r)) = nominal ->
            distanceSq r
            == middleDistanceSq transform centerCoord options
                 (cz (canonical (tileID r)))
                 (cx (canonical (tileID r)))
                 (cy (canonical (tileID r))))
         es.
Proof.
  intro Hes. apply Forall_forall. intros r Hr Hnom.
  destruct (entries_emitted fuel Hes r Hr) as (it & _ & Hb).
  apply body_emit in Hb. destruct Hb as (aabb & _ & _ & _ & Hid & Hd).
  rewrite Hnom, Hd, Hid. cbn [emittedID canonical cx cy]. symmetry.
  apply middleDistanceSq_nominal.
Qed.

(** ** Fully visible subtrees *)

#[local] Abbreviation descends :=
  (descendant transform frustum plane cameraCoord centerCoord options details).
#[local] Abbreviation isFull :=
  (classifiedFull transform frustum plane options details).

Lemma fullyVisible_children (it : CoveringTilesStackEntry)
      (cs : list CoveringTilesStackEntry) :
  fullyVisible it = true \/ isFull it ->
  body it = JS.Normal (Subdivide cs) ->
  Forall (fun c => fullyVisible c = true) cs.
Proof.
  intros Hit Hb.
  assert (Hcs : exists w, cs = children it w true).
  { destruct Hit as [Hfv | (Hfv & aabb & Hbox & Hvis)].
    - apply body_subdivide in Hb. destruct Hb as (aabb & fv & _ & _ & Hin & ->).
      rewrite (Hin Hfv). eauto.
    - destruct (body_cases it)
        as [(e & He & _) | (aabb' & Hbox' & [(Hfv' & _) | (_ & r & Hr & [(Hn & _) | (_ & Hbody)])])];
        try congruence.
      assert (aabb' = aabb) by congruence. subst aabb'.
      assert (r = IntersectionResult.Full) by congruence. subst r.
      rewrite Hb in Hbody. simpl in Hbody.
      destruct (after_cases it aabb true)
        as [(_ & Ha) | [(_ & _ & Ha) | (_ & _ & [Ha | (r & Ha & _)])]];
        rewrite Ha in Hbody; try discriminate.
      injection Hbody as ->. eauto. }
  destruct Hcs as (w & ->).
  eapply Forall_impl; [|apply children_zoom]. intros c (_ & _ & Hc). exact Hc.
Qed.

Lemma descendant_fullyVisible (n d : CoveringTilesStackEntry) :
  fullyVisible n = true \/ isFull n -> descends n d -> fullyVisible d = true.
Proof.
  intros Hn Hd. induction Hd as [c (cs & Hb & Hc) | m c Hm IH (cs & Hb & Hc)].
  - pose proof (fullyVisible_children Hn Hb) as Hall.
    rewrite Forall_forall in Hall. auto.
  - pose proof (fullyVisible_children (or_introl IH) Hb) as Hall.
    rewrite Forall_forall in Hall. auto.
Qed.

(** An entry that carries the flag is never culled, whatever the frustum. *)
Lemma fullyVisible_body (d : CoveringTilesStackEntry) :
  fullyVisible d = true ->
  body d <> JS.Normal Culled /\
  (forall (frustum' : Frustum) (plane' : option vec4),
      loopBody transform frustum' plane' cameraCoord centerCoord options details d = body d) /\
  ((exists e, boxOf d = JS.Throw e /\ body d = JS.Throw e)
   \/ exists aabb,
        boxOf d = JS.Normal aabb /\
        body d = after d aabb true /\
        ((exists cs, body d = JS.Normal (Subdivide cs))
         <-> JS.ge (JS.Fin (zoom d)) (target (dist d aabb)) = false)).
Proof.
  intro Hfv. split; [|split].
  - intro Hb.
    destruct (body_cases d)
      as [(e & _ & He) | (aabb & _ & [(_ & Ha) | (Hfv' & _)])]; try congruence.
    rewrite Hb in Ha.
    destruct (after_cases d aabb true)
      as [(_ & H1) | [(_ & _ & H1) | (_ & _ & [H1 | (r & H1 & _)])]];
      congruence.
  - intros frustum' plane'. unfold loopBody.
    destruct (getTileAABB details _ _ _ _); simpl; [|reflexivity].
    rewrite Hfv. reflexivity.
  - destruct (body_cases d)
      as [(e & He & Hb) | (aabb & Hbox & [(_ & Ha) | (Hfv' & _)])]; try congruence;
      [left; eauto|].
    right. exists aabb. split; [exact Hbox|]. split; [exact Ha|].
    rewrite Ha.
    destruct (after_cases d aabb true)
      as [(Hz & H1) | [(Hz & _ & H1) | (Hz & _ & [H1 | (r & H1 & _)])]];
      rewrite H1; split; intro H; try congruence;
      try (destruct H as (cs & H); discriminate).
    eauto.
Qed.

(** C9. Below a node that is fully visible (classified [Full], or carrying
    the flag already) every descendant carries the flag, is never discarded
    by the visibility test, which it does not consult, and is dropped only
    when its zoom is below [minZoom]; its box is still built and its target
    zoom still decides between emitting and subdividing. *)
Theorem fullyVisible_never_culled (n d : CoveringTilesStackEntry) :
  fullyVisible n = true \/ isFull n ->
  descends n d ->
  fullyVisible d = true /\
  body d <> JS.Normal Culled /\
  (body d = JS.Normal Dropped -> (zoom d < lo)%Z) /\
  (forall (frustum' : Frustum) (plane' : option vec4),
      loopBody transform frustum' plane' cameraCoord centerCoord options details d = body d) /\
  ((exists e, boxOf d = JS.Throw e /\ body d = JS.Throw e)
   \/ exists aabb,
        boxOf d = JS.Normal aabb /\
        body d = after d aabb true /\
        ((exists cs, body d = JS.Normal (Subdivide cs))
         <-> JS.ge (JS.Fin (zoom d)) (target (dist d aabb)) = false)) /\
  (forall fuel o,
      In (d, o) (events fuel (initialStack transform)) ->
      o <> JS.Normal Culled /\ (o = JS.Normal Dropped -> (zoom d < lo)%Z)).
Proof.
  intros Hn Hd.
  pose proof (descendant_fullyVisible Hn Hd) as Hfv.
  destruct (fullyVisible_body d Hfv) as (Hnc & Hindep & Hlod).
  split; [exact Hfv|]. split; [exact Hnc|]. split; [apply body_dropped|].
  split; [exact Hindep|]. split; [exact Hlod|].
  intros fuel o Hin.
  pose proof (events_body fuel (initialStack transform)) as Hb.
  rewrite Forall_forall in Hb. specialize (Hb _ Hin). simpl in Hb. subst o.
  split; [exact Hnc|apply body_dropped].
Qed.

(** ** Termination *)


(** A traversal throws only what the box construction of the details throws
    or what the constructor of the identifiers throws. *)
Lemma body_throws (it : CoveringTilesStackEntry) (e : JS.Error) :
  body it = JS.Throw e -> boxOf it = JS.Throw e \/ e = JS.PlainError.
Proof.
  intro Hb.
  destruct (body_cases it)
    as [(e1 & He1 & Hb1) | (aabb & _ & [(_ & Ha) | (_ & r & _ & [(_ & Ha) | (_ & Ha)])])];
    rewrite Hb in *; try discriminate.
  - left. congruence.
  - right. destruct (after_cases it aabb true)
      as [(_ & H1) | [(_ & _ & H1) | (_ & _ & [H1 | (r & H1 & _)])]]; congruence.
  - right. destruct (after_cases it aabb (IntersectionResult.eqb r IntersectionResult.Full))
      as [(_ & H1) | [(_ & _ & H1) | (_ & _ & [H1 | (r' & H1 & _)])]]; congruence.
Qed.

(** ** When the zoom computed for a tile is not a number *)

(** A node whose computed zoom is [NaN] is subdivided, whatever its zoom. *)
Lemma nan_subdivides (it : CoveringTilesStackEntry) (aabb : Aabb) (fv : bool) :
  desired (dist it aabb) = JS.NaN ->
  after it aabb fv
  = JS.Normal
      (Subdivide (children it (getWrap details centerCoord (tileIDOf it) (wrap it)) fv)).
Proof.
  intro Hd.
  destruct (after_cases it aabb fv) as [(_ & Ha) | [(Hz & _) | (Hz & _)]];
    [exact Ha| |];
    apply ge_target in Hz; destruct Hz as (n & Hn & _);
    destruct (target_cases (dist it aabb)) as [(_ & Ht) | (Hne & _)]; congruence.
Qed.

(** If every node is subdivided, no number of iterations empties the stack. *)
Lemma run_without_end :
  (forall it, exists cs, cs <> [] /\ body it = JS.Normal (Subdivide cs)) ->
  forall fuel stack res, stack <> [] -> run fuel stack res = None.
Proof.
  intros Hall fuel. induction fuel as [|fuel IH]; intros stack res Hne;
    (destruct stack as [|it stack]; [contradiction|]); [reflexivity|].
  simpl. destruct (Hall it) as (cs & Hcs & Hb). rewrite Hb.
  apply IH. rewrite fold_push. destruct cs as [|c cs]; [contradiction|].
  simpl. intro H. apply app_eq_nil in H. destruct H as [H _].
  apply app_eq_nil in H. destruct H as [_ H]. discriminate.
Qed.

(** ** When the zoom computed for a tile is a number *)

Lemma isNegative_false (q : Q) : 0 <= q -> JS.isNegative q = false.
Proof.
  intro H. unfold JS.isNegative. apply negb_false_iff. apply Qle_bool_iff. exact H.
Qed.

Lemma Qeq_bool_false (q : Q) : ~ q == 0 -> Qeq_bool q 0 = false.
Proof.
  intro H. destruct (Qeq_bool q 0) eqn:E; [|reflexivity].
  apply Qeq_bool_iff in E. contradiction.
Qed.

Lemma log2_positive (q : Q) : 0 < q -> Math.log2 (JS.Fin q) = JS.Fin (Math_log2 q).
Proof.
  intro H. unfold Math.log2.
  rewrite isNegative_false by lra. rewrite Qeq_bool_false by lra. reflexivity.
Qed.

Lemma div_positive (a b : Q) : ~ b == 0 -> JS.div (JS.Fin a) (JS.Fin b) = JS.Fin (a / b).
Proof. intro H. unfold JS.div. rewrite Qeq_bool_false by exact H. reflexivity. Qed.

Lemma Qdiv_pos (a b : Q) : 0 < a -> 0 < b -> 0 < a / b.
Proof. intros Ha Hb. apply Qlt_shift_div_l; [exact Hb|]. lra. Qed.

(** With the camera and the centre at different heights, positive tile
    sizes and a field of view whose half has a positive cosine, the zoom
    computed for a tile is a whole number. *)
Lemma desired_number (L : MathLaws M) (d : Q) :
  ~ distanceZ cameraCoord centerCoord == 0 ->
  0 < tr_tileSize transform ->
  0 < tileSize options ->
  0 < Math_cos (tr_fov transform / 2 * Math_PI / 180) ->
  exists n, desired d = JS.Fin n.
Proof.
  intros Hdz Hts Hots Hfov. unfold tileDesiredZ.
  destruct (allowVariableZoom details); [|eauto].
  rewrite (div_positive d Hdz). cbn [Math.atan Math.cos]. unfold scaleZoom.
  rewrite (log2_positive (Math_cos_atan _)).
  assert (H3 : 0 < Math_hypot d (distanceZ cameraCoord centerCoord))
    by (apply Math_hypot_leg; exact Hdz).
  assert (Hc3 : 0 < distanceToCenter3d cameraCoord centerCoord)
    by (apply Math_hypot_leg; exact Hdz).
  rewrite (@div_positive (tr_tileSize transform) (tileSize options)) by lra.
  cbn [JS.mul].
  rewrite (@div_positive _ (Math_hypot d (distanceZ cameraCoord centerCoord))) by lra.
  rewrite (@div_positive _ (Math_cos (tr_fov transform / 2 * Math_PI / 180))) by lra.
  rewrite log2_positive.
  - cbn [JS.mul JS.add]. rewrite div_positive by (intro H2; discriminate H2).
    cbn [JS.add]. destruct (roundZoom options); cbn; eauto.
  - apply Qdiv_pos; [|exact Hfov]. apply Qdiv_pos; [|exact H3].
    apply Qmult_lt_0_compat; [|exact Hc3]. apply Qdiv_pos; assumption.
Qed.

Lemma numeric_of_laws (L : MathLaws M) :
  ~ distanceZ cameraCoord centerCoord == 0 ->
  0 < tr_tileSize transform ->
  0 < tileSize options ->
  0 < Math_cos (tr_fov transform / 2 * Math_PI / 180) ->
  numeric.
Proof.
  intros Hdz Hts Hots Hfov d.
  destruct (desired_number L d Hdz Hts Hots Hfov) as (n & ->). discriminate.
Qed.

End EngineFacts.

(* ================================================================== *)
(** * The planar-only routine and the provider *)

Section MercatorFacts.
Context {M : MathFns} {P : Primitives} {T : TileIDs}.

(** The provider's box construction completes normally unless the
    constructor of the identifier, called when terrain is configured,
    throws. *)
Lemma provider_getTileAABB_cases (tid : TileXYZ) (w : Z) (e : Q)
      (options : CoveringTilesOptions) :
  (exists aabb,
      MercatorCoveringTilesDetailsProvider.getTileAABB tid w e options = JS.Normal aabb)
  \/ (terrain options <> None /\
      refuses (JS.Fin (tz tid)) w (tz tid) (tx tid) (ty tid) = true /\
      MercatorCoveringTilesDetailsProvider.getTileAABB tid w e options
      = JS.Throw JS.PlainError).
Proof.
  unfold MercatorCoveringTilesDetailsProvider.getTileAABB, new_OverscaledTileID.
  destruct (terrain options) as [t|]; [|left; eexists; reflexivity].
  destruct (refuses (JS.Fin (tz tid)) w (tz tid) (tx tid) (ty tid)) eqn:Hr.
  - right. split; [discriminate|]. split; reflexivity.
  - left. cbn [JS.bind]. eexists. reflexivity.
Qed.

Lemma provider_getTileAABB_normal (tid : TileXYZ) (w : Z) (e : Q)
      (options : CoveringTilesOptions) :
  terrain options = None ->
  exists aabb,
    MercatorCoveringTilesDetailsProvider.getTileAABB tid w e options = JS.Normal aabb.
Proof.
  intro Ht.
  destruct (provider_getTileAABB_cases tid w e options) as [H | (Hne & _)];
    [exact H|contradiction].
Qed.

(** Without terrain the stand-alone function builds the same box. *)
Lemma getTileAABB_without_terrain (tid : TileXYZ) (w : Z) (e : Q)
      (options : CoveringTilesOptions) :
  terrain options = None ->
  MercatorCoveringTiles.getTileAABB tid w e options
  = MercatorCoveringTilesDetailsProvider.getTileAABB tid w e options.
Proof.
  intro Ht.
  unfold MercatorCoveringTiles.getTileAABB, MercatorCoveringTilesDetailsProvider.getTileAABB.
  rewrite Ht. reflexivity.
Qed.

Lemma getTileAABB_with_terrain (tid : TileXYZ) (w : Z) (e : Q)
      (options : CoveringTilesOptions) :
  terrain options <> None ->
  MercatorCoveringTiles.getTileAABB tid w e options = JS.Throw JS.ReferenceError.
Proof.
  intro Ht. unfold MercatorCoveringTiles.getTileAABB.
  destruct (terrain options); [reflexivity|contradiction].
Qed.

(** The planar-only routine starts from the same roots as the engine. *)
Lemma initialStack_agrees (transform : IReadonlyTransform) :
  MercatorCoveringTiles.initialStack transform = initialStack transform.
Proof. reflexivity. Qed.

(** The engine run with the provider throws nothing but what the
    constructor of the identifiers throws. *)
Lemma provider_throws (transform : IReadonlyTransform) (frustum : Frustum)
      (plane : option vec4) (cameraCoord centerCoord : MercatorCoordinate)
      (options : CoveringTilesOptions) (it : CoveringTilesStackEntry) (e : JS.Error) :
  loopBody transform frustum plane cameraCoord centerCoord options
    MercatorCoveringTilesDetailsProvider.details it = JS.Throw e ->
  e = JS.PlainError.
Proof.
  intro Hb. apply body_throws in Hb. destruct Hb as [Hbox | He]; [|exact He].
  cbn [MercatorCoveringTilesDetailsProvider.details getTileAABB] in Hbox.
  destruct (provider_getTileAABB_cases (tileIDOf it) (wrap it) (tr_elevation transform)
              options) as [(aabb & Ha) | (_ & _ & Ha)]; congruence.
Qed.

(** The planar-only routine throws on its first iteration: a
    [ReferenceError] from the box construction when terrain is configured,
    and otherwise a [TypeError] from the classifier, which is handed the
    plane where it expects the box. *)
Lemma mercatorCoveringTiles_throws (transform : IReadonlyTransform) (frustum : Frustum)
      (plane : option vec4) (cameraCoord centerCoord : MercatorCoordinate)
      (options : CoveringTilesOptions) (fuel : nat) :
  MercatorCoveringTiles.mercatorCoveringTiles transform frustum plane cameraCoord
    centerCoord options (S fuel)
  = Some (JS.Throw (match terrain options with
                    | Some _ => JS.ReferenceError
                    | None => JS.TypeError
                    end)).
Proof.
  unfold MercatorCoveringTiles.mercatorCoveringTiles, MercatorCoveringTiles.initialStack.
  cbn [MercatorCoveringTiles.loop].
  unfold MercatorCoveringTiles.loopBody, MercatorCoveringTiles.getTileAABB,
    MercatorCoveringTiles.newRootTile.
  destruct (terrain options) as [t|]; simpl; [reflexivity|].
  destruct plane; reflexivity.
Qed.

(** C2. With terrain configured the stand-alone [getTileAABB] throws a
    [ReferenceError] for every tile, and so does every traversal whose details
    build their boxes with it. *)
Theorem getTileAABB_throws_with_terrain (options : CoveringTilesOptions) :
  terrain options <> None ->
  (forall tid w e,
      MercatorCoveringTiles.getTileAABB tid w e options = JS.Throw JS.ReferenceError) /\
  (forall transform frustum plane cameraCoord centerCoord details fuel,
      getTileAABB details = MercatorCoveringTiles.getTileAABB ->
      coveringTiles transform frustum plane cameraCoord centerCoord options details (S fuel)
      = Some (JS.Throw JS.ReferenceError)).
Proof.
  intro Ht. split.
  - intros tid w e. apply getTileAABB_with_terrain, Ht.
  - intros transform frustum plane cameraCoord centerCoord details fuel Hbox.
    unfold coveringTiles, coveringTilesEntries, initialStack, push.
    cbn [loop]. unfold loopBody. rewrite Hbox.
    rewrite getTileAABB_with_terrain by exact Ht. reflexivity.
Qed.

End MercatorFacts.

(* ================================================================== *)
(** * Scenarios *)

Section Scenarios.
Import Scenario.


(** The stand-ins have the three properties asked of the real functions. *)
Lemma rationalMath_laws : MathLaws rationalMath.
Proof.
  split.
  - intro q. cbn. destruct (Qeq_bool q (PI_approx / 3)); reflexivity.
  - intros q Hq. cbn. destruct (Qeq_bool q (PI_approx / 3)); reflexivity.
  - intros a b Hb. cbn.
    assert (Hab : 0 < Qabs b).
    { destruct (Q_dec b 0) as [[Hlt|Hgt]|Heq]; [| |contradiction].
      - rewrite Qabs_neg by lra. lra.
      - rewrite Qabs_pos by lra. lra. }
    pose proof (Qabs_nonneg a).
    destruct (Qeq_bool a 0); [exact Hab|].
    destruct (Qeq_bool b 0) eqn:Eb; [apply Qeq_bool_iff in Eb; contradiction|].
    lra.
Qed.

(** Scenario A: sixteen tiles at zoom 2. *)
Example scenarioA :
  exists ids,
    run (transformAt 2 false) unitSquare (optionsRange (Some 0%Z) (Some 5%Z) false)
        fixedZoomDetails 21 = Some (JS.Normal ids) /\
    length ids = 16%nat /\
    Forall (fun id => cz (canonical id) = 2%Z /\ tile_wrap id = 0%Z) ids.
Proof.
  eexists. split; [vm_compute; reflexivity|].
  split; [reflexivity|]. repeat constructor.
Qed.

(** C1. At an input with terrain configured the planar-only routine throws a
    [ReferenceError], while the engine given an instance of the planar
    provider returns the root tile; this holds whatever the transcendental
    functions are, as long as they have the three properties of the real
    ones. *)
Theorem mercatorCoveringTiles_differs_from_engine (M : MathFns) (L : MathLaws M)
        (fuel : nat) :
  @MercatorCoveringTiles.mercatorCoveringTiles M planar checkedIDs (transformAt 2 false)
    unitSquare None overheadCamera mapCenter (optionsTerrain (Some 0%Z)) (S fuel)
  = Some (JS.Throw JS.ReferenceError)
  /\ @coveringTiles M planar checkedIDs (transformAt 2 false) unitSquare None overheadCamera
       mapCenter (optionsTerrain (Some 0%Z))
       (@MercatorCoveringTilesDetailsProvider.details M planar checkedIDs)
       (S fuel)
     = Some (JS.Normal [tile 0 0 0 0 0]).
Proof.
  split; [apply (@mercatorCoveringTiles_throws M planar checkedIDs)|].
  set (t := transformAt 2 false). set (o := optionsTerrain (Some 0%Z)).
  set (d := @MercatorCoveringTilesDetailsProvider.details M planar checkedIDs).
  assert (Hnum : @numericTargets M t overheadCamera mapCenter o d).
  { apply (@numeric_of_laws M t overheadCamera mapCenter o d L).
    - intro H. vm_compute in H. discriminate.
    - reflexivity.
    - reflexivity.
    - apply Math_cos_zero. cbn [tr_fov t transformAt]. unfold Qdiv. ring. }
  assert (Hbody : exists r,
             @loopBody M planar checkedIDs t unitSquare None overheadCamera mapCenter o d
               rootTile
             = JS.Normal (Emit r) /\ tileID r = tile 0 0 0 0 0).
  { destruct (@body_cases M planar checkedIDs t unitSquare None overheadCamera mapCenter o d
                rootTile)
      as [(e & He & _) | (aabb & Hbox & [(Hfv & _) | (_ & r & Hr & Hcases)])];
      try discriminate.
    injection Hbox as <-.
    assert (r = IntersectionResult.Full) by (vm_compute in Hr; congruence). subst r.
    destruct Hcases as [(Hn & _) | (_ & Hb)]; [discriminate|].
    rewrite Hb. simpl IntersectionResult.eqb.
    match goal with |- context [afterVisibility _ _ _ _ _ _ ?b _] => set (aabb := b) end.
    destruct (@numeric_target M t overheadCamera mapCenter o d
                (distToTile2dOf overheadCamera d rootTile aabb) Hnum) as (n & Hn & Hle).
    change (maxZoom t o) with 0%Z in Hle.
    destruct (@after_emits M checkedIDs t overheadCamera mapCenter o d rootTile aabb true)
      as (r & Ha & Hid).
    - apply ge_target. exists n. split; [exact Hn|]. cbn [zoom rootTile]. exact Hle.
    - vm_compute. discriminate.
    - reflexivity.
    - exists r. split; [exact Ha|]. rewrite Hid. reflexivity. }
  destruct Hbody as (r & Hb & Hid).
  unfold coveringTiles, coveringTilesEntries.
  change (initialStack t) with [rootTile]. cbn [loop]. rewrite Hb.
  destruct fuel; simpl; rewrite Hid; reflexivity.
Qed.

Lemma mercatorCoveringTiles_differs_from_engine_witness :
  @MercatorCoveringTiles.mercatorCoveringTiles rationalMath planar checkedIDs
    (transformAt 2 false) unitSquare None overheadCamera mapCenter
    (optionsTerrain (Some 0%Z)) 1
  = Some (JS.Throw JS.ReferenceError)
  /\ @coveringTiles rationalMath planar checkedIDs (transformAt 2 false) unitSquare None
       overheadCamera mapCenter (optionsTerrain (Some 0%Z))
       (@MercatorCoveringTilesDetailsProvider.details rationalMath planar checkedIDs) 1
     = Some (JS.Normal [tile 0 0 0 0 0]).
Proof.
  exact (@mercatorCoveringTiles_differs_from_engine rationalMath rationalMath_laws 0).
Defined.

Lemma getTileAABB_throws_with_terrain_witness :
  terrain (optionsTerrain (Some 0%Z)) <> None /\
  @MercatorCoveringTiles.getTileAABB checkedIDs {| tx := 0; ty := 0; tz := 0 |} 0 0
    (optionsTerrain (Some 0%Z))
  = JS.Throw JS.ReferenceError.
Proof.
  assert (Ht : terrain (optionsTerrain (Some 0%Z)) <> None) by discriminate.
  split; [exact Ht|].
  apply (proj1 (@getTileAABB_throws_with_terrain rationalMath planar checkedIDs _ Ht)).
Defined.


(** A camera level with the view centre and over the root tile: the zoom
    computed for the root is [NaN], the root is subdivided although the
    maximum zoom is 0, and a tile of zoom 1 is returned. *)
Lemma nan_target_exceeds_maxZoom :
  let t := transformAt 0 false in
  let o := optionsRange (Some 0%Z) (Some 0%Z) false in
  maxZoom t o = 0%Z /\
  @tileDesiredZ rationalMath t levelCamera pointOnMap o variableZoomDetails 0 = JS.NaN /\
  @coveringTiles rationalMath planar checkedIDs t farView None levelCamera pointOnMap o
    variableZoomDetails 5
  = Some (JS.Normal [tile 1 0 1 1 1]).
Proof. repeat split; vm_compute; reflexivity. Qed.




Lemma coveringTiles_sorted_witness :
  let t := transformAt 2 false in
  let o := optionsRange (Some 0%Z) (Some 5%Z) false in
  exists ids,
    run t unitSquare o fixedZoomDetails 21 = Some (JS.Normal ids) /\
    exists es,
      runEntries t unitSquare o fixedZoomDetails 21 = Some (JS.Normal es) /\
      ids = map tileID es /\
      StronglySorted (JS.ascending distanceSq) es /\
      @sortResult es = es.
Proof.
  intros t o.
  eexists. split; [vm_compute; reflexivity|].
  apply (@coveringTiles_sorted rationalMath planar checkedIDs t unitSquare None
           overheadCamera mapCenter o fixedZoomDetails 21).
  vm_compute. reflexivity.
Defined.

(** With [reparseOverscaled] and a wanted zoom of 5 above the maximum zoom 1,
    the tiles at zoom 1 get overscaled zoom 5, not the clamped target 1. *)
Lemma overscaledZ_exceeds_maxZoom :
  let t := transformAt 5 false in
  let o := optionsRange (Some 0%Z) (Some 1%Z) true in
  exists ids,
    run t unitSquare o fixedZoomDetails 5 = Some (JS.Normal ids) /\
    In (tile 5 0 1 0 0) ids /\
    (forall d, @targetZ rationalMath t overheadCamera mapCenter o fixedZoomDetails d
               = JS.Fin 1%Z) /\
    ~ Forall (fun id => JS.ge (JS.Fin (maxZoom t o)) (overscaledZ id) = true) ids.
Proof.
  eexists. split; [vm_compute; reflexivity|].
  split; [simpl; tauto|]. split; [reflexivity|].
  intro H. inversion H as [|id ids Hid _]; subst.
  vm_compute in Hid. discriminate.
Qed.

Lemma overscaledZ_of_emitted_witness :
  let t := transformAt 5 false in
  let o := optionsRange (Some 0%Z) (Some 1%Z) true in
  exists es,
    runEntries t unitSquare o fixedZoomDetails 5 = Some (JS.Normal es) /\
    Forall (fun r =>
              exists it aabb,
                In (it, JS.Normal (Emit r))
                   (@trace rationalMath planar checkedIDs t unitSquare None overheadCamera
                      mapCenter o fixedZoomDetails 5 (initialStack t)) /\
                getTileAABB fixedZoomDetails (tileIDOf it) (wrap it) (tr_elevation t) o
                = JS.Normal aabb /\
                cz (canonical (tileID r)) = zoom it /\
                overscaledZ (tileID r) =
                  if (zoom it =? maxZoom t o)%Z && reparseOverscaled o
                  then JS.Math_max (JS.Fin 0%Z)
                         (@tileDesiredZ rationalMath t overheadCamera mapCenter o
                            fixedZoomDetails
                            (distToTile2dOf overheadCamera fixedZoomDetails it aabb))
                  else JS.Fin (zoom it))
           es.
Proof.
  intros t o.
  eexists. split; [vm_compute; reflexivity|].
  apply (@overscaledZ_of_emitted rationalMath planar checkedIDs t unitSquare None
           overheadCamera mapCenter o fixedZoomDetails 5).
  vm_compute. reflexivity.
Defined.

(** Per-tile zoom: the nominal zoom is 2 and [minZoom] is 3, yet the tile
    under the camera is wanted at zoom 3 and is returned. *)
Lemma variable_zoom_emits_above_nominal :
  nominalZ wideTransform optionsFloor3 = 2%Z /\
  minZoom optionsFloor3 = 3%Z /\
  @coveringTiles rationalMath planar checkedIDs wideTransform nearPoint None cameraOverPoint
    pointOnMap optionsFloor3 variableZoomDetails 13
  = Some (JS.Normal [tile 3 0 3 2 2]).
Proof. repeat split; vm_compute; reflexivity. Qed.

(** Negative maximum zoom: the nominal zoom is -1, below [minZoom] 0, and the
    root tile is returned. *)
Lemma negative_nominal_emits_root :
  let t := transformAt 1 false in
  let o := optionsRange (Some 0%Z) (Some (-1)%Z) false in
  (nominalZ t o < minZoom o)%Z /\
  run t unitSquare o fixedZoomDetails 1 = Some (JS.Normal [tile 0 0 0 0 0]).
Proof. split; vm_compute; reflexivity. Qed.

Lemma minZoom_above_nominal_empty_witness :
  let t := transformAt 1 false in
  let o := optionsRange (Some 3%Z) (Some 5%Z) false in
  allowVariableZoom fixedZoomDetails = false /\
  (0 <= maxZoom t o)%Z /\
  (nominalZ t o < minZoom o)%Z /\
  exists fuel0, forall fuel, (fuel0 <= fuel)%nat ->
    run t unitSquare o fixedZoomDetails fuel = Some (JS.Normal [])
    \/ exists e, run t unitSquare o fixedZoomDetails fuel = Some (JS.Throw e).
Proof.
  intros t o.
  assert (Hv : allowVariableZoom fixedZoomDetails = false) by reflexivity.
  assert (Hhi : (0 <= maxZoom t o)%Z) by (vm_compute; discriminate).
  assert (Hlo : (nominalZ t o < minZoom o)%Z) by (vm_compute; reflexivity).
  split; [exact Hv|]. split; [exact Hhi|]. split; [exact Hlo|].
  exact (@minZoom_above_nominal_empty rationalMath planar checkedIDs t unitSquare None
           overheadCamera mapCenter o fixedZoomDetails Hv Hhi Hlo).
Defined.

(** Scenario D of the specification, evaluated: nothing is returned. *)
Example scenarioD :
  run (transformAt 1 false) unitSquare (optionsRange (Some 3%Z) (Some 5%Z) false)
      fixedZoomDetails 5
  = Some (JS.Normal []).
Proof. vm_compute. reflexivity. Qed.

(** The root tile at nominal zoom 0 with the view centre in its middle: the
    code stores distance 0, the corner is at squared distance 1/2. *)
Lemma distanceSq_is_not_corner_distance :
  let t := transformAt 0 false in
  let o := optionsRange None None false in
  exists r,
    runEntries t unitSquare o fixedZoomDetails 1 = Some (JS.Normal [r]) /\
    tileID r = tile 0 0 0 0 0 /\
    distanceSq r == 0 /\
    cornerDistanceSq t mapCenter o 0 0 0 == 1 # 2 /\
    ~ distanceSq r
      == cornerDistanceSq t mapCenter o (cz (canonical (tileID r)))
           (cx (canonical (tileID r))) (cy (canonical (tileID r))).
Proof.
  eexists. split; [vm_compute; reflexivity|].
  repeat split; try reflexivity. intro H. vm_compute in H. discriminate.
Qed.

(** The tile (3, 2, 2) returned at nominal zoom 2: the stored distance uses
    the column and row as they are, without rescaling them to zoom 2. *)
Lemma distanceSq_is_not_rescaled :
  exists r,
    @coveringTilesEntries rationalMath planar checkedIDs wideTransform nearPoint None
      cameraOverPoint pointOnMap optionsFloor3 variableZoomDetails 13
    = Some (JS.Normal [r]) /\
    tileID r = tile 3 0 3 2 2 /\
    distanceSq r == 169 # 50 /\
    middleDistanceSq wideTransform pointOnMap optionsFloor3 3 2 2 == 1 # 200.
Proof.
  eexists. split; [vm_compute; reflexivity|].
  repeat split; reflexivity.
Qed.

Lemma distanceSq_of_emitted_witness :
  let t := transformAt 2 false in
  let o := optionsRange (Some 0%Z) (Some 5%Z) false in
  exists es,
    runEntries t unitSquare o fixedZoomDetails 21 = Some (JS.Normal es) /\
    Forall (fun r =>
              cz (canonical (tileID r)) = nominalZ t o ->
              distanceSq r
              == middleDistanceSq t mapCenter o (cz (canonical (tileID r)))
                   (cx (canonical (tileID r))) (cy (canonical (tileID r))))
           es /\
    Forall (fun r => cz (canonical (tileID r)) = nominalZ t o) es.
Proof.
  intros t o.
  eexists. split; [vm_compute; reflexivity|]. split.
  - apply (@distanceSq_of_emitted rationalMath planar checkedIDs t unitSquare None
             overheadCamera mapCenter o fixedZoomDetails 21).
    vm_compute. reflexivity.
  - repeat constructor.
Defined.

Lemma fullyVisible_never_culled_witness :
  let t := transformAt 2 false in
  let o := optionsRange (Some 0%Z) (Some 5%Z) false in
  @classifiedFull planar t unitSquare None o fixedZoomDetails rootTile /\
  @descendant rationalMath planar checkedIDs t unitSquare None overheadCamera mapCenter o
    fixedZoomDetails rootTile firstChild /\
  @loopBody rationalMath planar checkedIDs t unitSquare None overheadCamera mapCenter o
    fixedZoomDetails firstChild
  <> JS.Normal Culled.
Proof.
  intros t o.
  assert (Hfull : @classifiedFull planar t unitSquare None o fixedZoomDetails rootTile).
  { split; [reflexivity|]. eexists. split; [reflexivity|]. vm_compute. reflexivity. }
  assert (Hdesc : @descendant rationalMath planar checkedIDs t unitSquare None
                    overheadCamera mapCenter o fixedZoomDetails rootTile firstChild).
  { apply descendant_child. eexists. split; [vm_compute; reflexivity|]. simpl. tauto. }
  split; [exact Hfull|]. split; [exact Hdesc|].
  exact (proj1 (proj2 (@fullyVisible_never_culled rationalMath planar checkedIDs t
                         unitSquare None overheadCamera mapCenter o fixedZoomDetails
                         rootTile firstChild (or_intror Hfull) Hdesc))).
Defined.



(** The camera level with the view centre and over every tile: the zoom
    computed for every tile is [NaN], nothing is culled, and the loop
    subdivides for ever: no budget of iterations suffices. *)
Lemma nan_target_never_terminates :
  let t := transformAt 0 false in
  let o := optionsRange (Some 0%Z) (Some 0%Z) false in
  @tileDesiredZ rationalMath t levelCamera pointOnMap o nearDetails 0 = JS.NaN /\
  forall fuel,
    @coveringTiles rationalMath planar checkedIDs t unitSquare None levelCamera pointOnMap o
      nearDetails fuel = None.
Proof.
  intros t o.
  assert (Hnan : @tileDesiredZ rationalMath t levelCamera pointOnMap o nearDetails 0 = JS.NaN)
    by (vm_compute; reflexivity).
  split; [exact Hnan|]. intro fuel.
  unfold coveringTiles, coveringTilesEntries.
  rewrite (@run_without_end rationalMath planar checkedIDs t unitSquare None levelCamera
             pointOnMap o nearDetails); [reflexivity| |discriminate].
  intro it. eexists. split; [|].
  2:{ destruct (@body_cases rationalMath planar checkedIDs t unitSquare None levelCamera
                  pointOnMap o nearDetails it)
        as [(e & He & _) | (aabb & Hbox & [(_ & Hb) | (_ & r & Hr & Hcases)])];
        [discriminate| |].
      - rewrite Hb. apply nan_subdivides. exact Hnan.
      - injection Hbox as <-.
        assert (r = IntersectionResult.Full) by (vm_compute in Hr; congruence). subst r.
        destruct Hcases as [(Hn & _) | (_ & Hb)]; [discriminate|].
        rewrite Hb. apply nan_subdivides. exact Hnan. }
  unfold children. discriminate.
Qed.

End Scenarios.

(* ================================================================== *)
(** * Further properties of the traversal *)

(** ** The 32-bit shifts on tile coordinates *)

Lemma ToInt32_small (n : Z) : (0 <= n < 2 ^ 31)%Z -> JS.ToInt32 n = n.
Proof.
  intro Hn. unfold JS.ToInt32.
  rewrite Z.mod_small by (change (2 ^ 32)%Z with (2 * 2 ^ 31)%Z; lia).
  destruct (n >=? 2 ^ 31)%Z eqn:He; [lia|reflexivity].
Qed.

Lemma shl_double (a : Z) : (0 <= a < 2 ^ 30)%Z -> JS.shl a 1 = (2 * a)%Z.
Proof.
  intro Ha. unfold JS.shl.
  change (2 ^ 31)%Z with (2 * 2 ^ 30)%Z in *.
  rewrite (@ToInt32_small a) by (change (2 ^ 31)%Z with (2 * 2 ^ 30)%Z; lia).
  change (1 mod 32)%Z with 1%Z. rewrite Z.shiftl_mul_pow2 by lia.
  change (2 ^ 1)%Z with 2%Z.
  rewrite ToInt32_small by (change (2 ^ 31)%Z with (2 * 2 ^ 30)%Z; lia). lia.
Qed.

Lemma shl_one (z : Z) : (0 <= z <= 30)%Z -> JS.shl 1 z = (2 ^ z)%Z.
Proof.
  intro Hz. unfold JS.shl.
  rewrite (@ToInt32_small 1) by (split; [lia|reflexivity]).
  rewrite Z.mod_small by lia. rewrite Z.shiftl_mul_pow2 by lia. rewrite Z.mul_1_l.
  apply ToInt32_small. split; [apply Z.pow_nonneg; lia|].
  apply Z.pow_lt_mono_r; lia.
Qed.

(** Beyond zoom 30 the doubled column no longer fits 32 bits. *)
Example shl_double_overflow : JS.shl (2 ^ 30) 1 = (- 2 ^ 31)%Z.
Proof. reflexivity. Qed.

Lemma pow2_succ (z : Z) : (0 <= z)%Z -> (2 ^ (z + 1) = 2 * 2 ^ z)%Z.
Proof. intro Hz. rewrite Z.pow_add_r by lia. change (2 ^ 1)%Z with 2%Z. lia. Qed.

(** The children of a valid entry above zoom 31: the four quadrants. *)
Lemma children_addresses (it : CoveringTilesStackEntry) (w : Z) (fv : bool) :
  Address.valid (Address.ofEntry it) -> (zoom it <= 30)%Z ->
  children it w fv
  = map (fun q =>
           {| zoom := zoom it + 1;
              x := 2 * x it + fst q;
              y := 2 * y it + snd q;
              wrap := w;
              fullyVisible := fv |})
        [(0, 0); (1, 0); (0, 1); (1, 1)]%Z.
Proof.
  intros (Hz & Hx & Hy) Hz30. simpl in Hz, Hx, Hy.
  assert (H30 : (2 ^ zoom it <= 2 ^ 30)%Z) by (apply Z.pow_le_mono_r; lia).
  unfold children. cbn [map fst snd].
  rewrite !shl_double by lia. reflexivity.
Qed.


(** ** Addresses: subtrees and quadrants *)

Section AddressFacts.
Import Address.











End AddressFacts.



Section TraversalExtras.
Context {M : MathFns} {P : Primitives} {T : TileIDs}.
Variable transform : IReadonlyTransform.
Variable frustum : Frustum.
Variable plane : option vec4.
Variables cameraCoord centerCoord : MercatorCoordinate.
Variable options : CoveringTilesOptions.
Variable details : CoveringTilesDetails.

#[local] Abbreviation body :=
  (loopBody transform frustum plane cameraCoord centerCoord options details).
#[local] Abbreviation numeric :=
  (numericTargets transform cameraCoord centerCoord options details).
#[local] Abbreviation lo := (minZoom options).
#[local] Abbreviation hi := (maxZoom transform options).
#[local] Abbreviation nominal := (nominalZ transform options).
#[local] Abbreviation run :=
  (loop transform frustum plane cameraCoord centerCoord options details).
#[local] Abbreviation events :=
  (trace transform frustum plane cameraCoord centerCoord options details).
#[local] Abbreviation entries :=
  (coveringTilesEntries transform frustum plane cameraCoord centerCoord options details).
#[local] Abbreviation tiles :=
  (coveringTiles transform frustum plane cameraCoord centerCoord options details).

(** A property of stack entries that holds of the roots and is passed on by
    subdivision holds of the node of every returned tile. *)
Lemma tiles_from_entries (I : CoveringTilesStackEntry -> Prop)
      (fuel : nat) (ids : list OverscaledTileID) :
  (forall it cs, I it -> body it = JS.Normal (Subdivide cs) -> Forall I cs) ->
  Forall I (initialStack transform) ->
  tiles fuel = Some (JS.Normal ids) ->
  Forall (fun id =>
            exists it r,
              I it /\ body it = JS.Normal (Emit r) /\ tileID r = id)
         ids.
Proof.
  intros Hstep Hinit Hrun.
  apply coveringTiles_entries in Hrun. destruct Hrun as (es & Hes & ->).
  apply Forall_map, Forall_forall. intros r Hr.
  destruct (entries_emitted transform frustum plane cameraCoord centerCoord options
              details fuel Hes r Hr) as (it & Hin & Hb).
  pose proof (@events_invariant M P T transform frustum plane cameraCoord centerCoord options
                details I Hstep fuel _ Hinit) as Hall.
  rewrite Forall_forall in Hall. specialize (Hall _ Hin). simpl in Hall.
  exists it, r. auto.
Qed.

(** X1. When the details leave the wrap as it is (as the planar ones do),
    every returned tile has wrap 0 if world copies are not rendered, and a
    wrap between -3 and 3 if they are. *)
Theorem coveringTiles_wrap_range (fuel : nat) (ids : list OverscaledTileID) :
  (forall c t w, getWrap details c t w = w) ->
  tiles fuel = Some (JS.Normal ids) ->
  Forall (fun id =>
            if tr_renderWorldCopies transform
            then (-3 <= tile_wrap id <= 3)%Z
            else tile_wrap id = 0%Z)
         ids.
Proof.
  intros Hwrap Hrun.
  pose (I := fun it : CoveringTilesStackEntry =>
               if tr_renderWorldCopies transform
               then (-3 <= wrap it <= 3)%Z else wrap it = 0%Z).
  assert (Hall := @tiles_from_entries I fuel ids).
  eapply Forall_impl; [|apply Hall; try assumption].
  - intros id (it & r & Hit & Hb & <-).
    apply body_emit in Hb. destruct Hb as (aabb & _ & _ & _ & Hid & _).
    rewrite Hid. unfold emittedID. cbn [tile_wrap]. rewrite Hwrap. exact Hit.
  - intros it cs Hit Hb. apply body_subdivide in Hb.
    destruct Hb as (aabb & fv & _ & _ & _ & ->). rewrite Hwrap.
    eapply Forall_impl; [|apply children_zoom].
    intros c (_ & Hw & _). unfold I. rewrite Hw. exact Hit.
  - unfold I, initialStack.
    destruct (tr_renderWorldCopies transform); repeat constructor; simpl; lia.
Qed.

(** X2. With per-tile zoom disabled and a non-negative maximum zoom, every
    returned tile is at the nominal zoom. *)
Theorem coveringTiles_uniform_zoom (fuel : nat) (ids : list OverscaledTileID) :
  allowVariableZoom details = false ->
  (0 <= hi)%Z ->
  tiles fuel = Some (JS.Normal ids) ->
  Forall (fun id => cz (canonical id) = nominal) ids.
Proof.
  intros Hv Hhi Hrun.
  apply coveringTiles_entries in Hrun. destruct Hrun as (es & Hes & ->).
  apply Forall_map, Forall_forall. intros r Hr.
  destruct (entries_emitted transform frustum plane cameraCoord centerCoord options
              details fuel Hes r Hr) as (it & Hin & Hb).
  pose proof (events_nominal_range transform frustum plane cameraCoord centerCoord options
                details fuel Hv) as Hz.
  rewrite Forall_forall in Hz. specialize (Hz _ Hin). simpl in Hz.
  apply body_emit in Hb. destruct Hb as (aabb & _ & (n & Ht & Hn) & _ & Hid & _).
  rewrite (target_fixed transform cameraCoord centerCoord options details _ Hv) in Ht.
  injection Ht as <-.
  rewrite Hid. simpl.
  assert (0 <= nominal)%Z by (unfold nominalZ; lia). lia.
Qed.

(** X3. Without [reparseOverscaled] no returned tile is overscaled: its
    overscaled zoom is its canonical zoom. *)
Theorem coveringTiles_not_overscaled (fuel : nat) (ids : list OverscaledTileID) :
  reparseOverscaled options = false ->
  tiles fuel = Some (JS.Normal ids) ->
  Forall (fun id => overscaledZ id = JS.Fin (cz (canonical id))) ids.
Proof.
  intros Hre Hrun.
  apply coveringTiles_entries in Hrun. destruct Hrun as (es & Hes & ->).
  apply Forall_map, Forall_forall. intros r Hr.
  destruct (entries_emitted transform frustum plane cameraCoord centerCoord options
              details fuel Hes r Hr) as (it & _ & Hb).
  apply body_emit in Hb. destruct Hb as (aabb & _ & _ & _ & Hid & _).
  rewrite Hid. unfold emittedID. cbn [overscaledZ canonical cz].
  rewrite Hre, andb_false_r. reflexivity.
Qed.








End TraversalExtras.

(* ================================================================== *)
(** * Further properties of the planar provider *)

Section ProviderExtras.
Context {M : MathFns} {P : Primitives} {T : TileIDs}.

Lemma quadrant_low (X D q : Q) : 0 < q -> 0 <= D -> X / q <= (2 * X + D) / (2 * q).
Proof.
  intros Hq HD.
  assert (Heq : (2 * X + D) / (2 * q) == X / q + D / (2 * q)) by (field; lra).
  rewrite Heq.
  assert (0 <= D / (2 * q)) by (apply Qle_shift_div_l; lra). lra.
Qed.

Lemma quadrant_high (X D q : Q) :
  0 < q -> D <= 1 -> (2 * X + D + 1) / (2 * q) <= (X + 1) / q.
Proof.
  intros Hq HD.
  assert (Heq : (X + 1) / q == (2 * X + D + 1) / (2 * q) + (1 - D) / (2 * q))
    by (field; lra).
  rewrite Heq.
  assert (0 <= (1 - D) / (2 * q)) by (apply Qle_shift_div_l; lra). lra.
Qed.

Lemma quadrant_width (X D q : Q) :
  0 < q -> (2 * X + D + 1) / (2 * q) - (2 * X + D) / (2 * q) == ((X + 1) / q - X / q) / 2.
Proof. intro Hq. field. lra. Qed.

Lemma pow2_positive (z : Z) : (0 <= z)%Z -> 0 < inject_Z (2 ^ z).
Proof.
  intro Hz. change 0 with (inject_Z 0). rewrite <- Zlt_Qlt.
  apply Z.pow_pos_nonneg; lia.
Qed.

(** X7. Down to zoom 30, and when the constructor of tile identifiers, which
    the provider calls if terrain is configured, accepts the tile and its
    child, the provider builds a box for both, and the box of the child lies
    inside the box of the parent and is half as wide and half as high. *)
Theorem provider_child_box_nested (it c : CoveringTilesStackEntry) (w : Z) (fv : bool)
        (elevation : Q) (options : CoveringTilesOptions) :
  Address.valid (Address.ofEntry it) ->
  (zoom it <= 29)%Z ->
  In c (children it w fv) ->
  (terrain options <> None ->
   refuses (JS.Fin (zoom it)) w (zoom it) (x it) (y it) = false /\
   refuses (JS.Fin (zoom c)) w (zoom c) (x c) (y c) = false) ->
  exists b bc,
    MercatorCoveringTilesDetailsProvider.getTileAABB (tileIDOf it) w elevation options
    = JS.Normal b /\
    MercatorCoveringTilesDetailsProvider.getTileAABB (tileIDOf c) w elevation options
    = JS.Normal bc /\
    aabb_x0 b <= aabb_x0 bc /\ aabb_x1 bc <= aabb_x1 b /\
    aabb_y0 b <= aabb_y0 bc /\ aabb_y1 bc <= aabb_y1 b /\
    aabb_x1 bc - aabb_x0 bc == (aabb_x1 b - aabb_x0 b) / 2 /\
    aabb_y1 bc - aabb_y0 bc == (aabb_y1 b - aabb_y0 b) / 2.
Proof.
  intros Hv Hz29 Hc Hacc.
  rewrite (children_addresses w fv Hv) in Hc by lia.
  destruct Hv as (Hz & Hx & Hy). cbn in Hz, Hx, Hy.
  assert (Hq : 0 < inject_Z (2 ^ zoom it)) by (apply pow2_positive; exact Hz).
  assert (Hshape : exists dx dy, (0 <= dx <= 1)%Z /\ (0 <= dy <= 1)%Z /\
            zoom c = (zoom it + 1)%Z /\ x c = (2 * x it + dx)%Z /\ y c = (2 * y it + dy)%Z).
  { cbn [map In fst snd] in Hc.
    destruct Hc as [<-|[<-|[<-|[<-|[]]]]]; cbn [zoom x y];
      [exists 0%Z, 0%Z|exists 1%Z, 0%Z|exists 0%Z, 1%Z|exists 1%Z, 1%Z];
      repeat split; lia. }
  destruct Hshape as (dx & dy & Hdx & Hdy & Hcz & Hcx & Hcy).
  unfold MercatorCoveringTilesDetailsProvider.getTileAABB, new_OverscaledTileID, tileIDOf.
  cbn [tx ty tz].
  destruct (terrain options) as [t|];
    [destruct Hacc as (Hi & Hch); [discriminate|]; rewrite Hi, Hch; cbn [JS.bind]|];
    rewrite Hcz, Hcx, Hcy;
    rewrite !shl_one by lia; rewrite pow2_succ by lia;
    cbv beta iota zeta;
    (eexists; eexists; split; [reflexivity|]; split; [reflexivity|]);
    unfold aabb_x0, aabb_x1, aabb_y0, aabb_y1; cbn [aabb_min aabb_max fst snd];
    rewrite !inject_Z_plus, !inject_Z_mult;
    set (q := inject_Z (2 ^ zoom it)) in *;
    set (X := inject_Z (x it)); set (Y := inject_Z (y it));
    assert (HDx : 0 <= inject_Z dx <= 1)
      by (change 0 with (inject_Z 0); change 1 with (inject_Z 1); rewrite <- !Zle_Qle; lia);
    assert (HDy : 0 <= inject_Z dy <= 1)
      by (change 0 with (inject_Z 0); change 1 with (inject_Z 1); rewrite <- !Zle_Qle; lia);
    change (inject_Z 2) with 2; change (inject_Z 1) with 1;
    pose proof (@quadrant_low X (inject_Z dx) q Hq (proj1 HDx));
    pose proof (@quadrant_high X (inject_Z dx) q Hq (proj2 HDx));
    pose proof (@quadrant_low Y (inject_Z dy) q Hq (proj1 HDy));
    pose proof (@quadrant_high Y (inject_Z dy) q Hq (proj2 HDy));
    pose proof (@quadrant_width X (inject_Z dx) q Hq);
    pose proof (@quadrant_width Y (inject_Z dy) q Hq);
    generalize dependent (X / q); generalize dependent ((X + 1) / q);
    generalize dependent ((2 * X + inject_Z dx) / (2 * q));
    generalize dependent ((2 * X + inject_Z dx + 1) / (2 * q));
    generalize dependent (Y / q); generalize dependent ((Y + 1) / q);
    generalize dependent ((2 * Y + inject_Z dy) / (2 * q));
    generalize dependent ((2 * Y + inject_Z dy + 1) / (2 * q));
    generalize (inject_Z w);
    intros; unfold Qdiv in *; change (/ 2) with (1 # 2) in *; repeat split; lra.
Qed.

End ProviderExtras.

(* ================================================================== *)
(** * The further properties on the scenarios *)

Section ExtraScenarios.
Import Scenario.

Lemma coveringTiles_wrap_range_witness :
  let t := transformAt 1 true in
  let o := optionsRange (Some 0%Z) (Some 5%Z) false in
  let v := {| vx0 := -1; vx1 := 2; vy0 := 0; vy1 := 1 |} in
  (forall c a w, getWrap fixedZoomDetails c a w = w) /\
  exists ids,
    run t v o fixedZoomDetails 40 = Some (JS.Normal ids) /\
    length ids = 12%nat /\
    Forall (fun id => (-3 <= tile_wrap id <= 3)%Z) ids.
Proof.
  intros t o v.
  assert (Hw : forall c a w, getWrap fixedZoomDetails c a w = w) by reflexivity.
  split; [exact Hw|].
  eexists. split; [vm_compute; reflexivity|]. split; [reflexivity|].
  apply (@coveringTiles_wrap_range rationalMath planar checkedIDs t v None overheadCamera
           mapCenter o fixedZoomDetails 40 _ Hw).
  vm_compute. reflexivity.
Defined.


Lemma coveringTiles_uniform_zoom_witness :
  let t := transformAt 2 false in
  let o := optionsRange (Some 0%Z) (Some 5%Z) false in
  allowVariableZoom fixedZoomDetails = false /\
  (0 <= maxZoom t o)%Z /\
  exists ids,
    run t unitSquare o fixedZoomDetails 21 = Some (JS.Normal ids) /\
    Forall (fun id => cz (canonical id) = nominalZ t o) ids.
Proof.
  intros t o.
  assert (Hv : allowVariableZoom fixedZoomDetails = false) by reflexivity.
  assert (Hhi : (0 <= maxZoom t o)%Z) by (vm_compute; discriminate).
  split; [exact Hv|]. split; [exact Hhi|].
  eexists. split; [vm_compute; reflexivity|].
  apply (@coveringTiles_uniform_zoom rationalMath planar checkedIDs t unitSquare None
           overheadCamera mapCenter o fixedZoomDetails 21 _ Hv Hhi).
  vm_compute. reflexivity.
Defined.

Lemma coveringTiles_not_overscaled_witness :
  let t := transformAt 5 false in
  let o := optionsRange (Some 0%Z) (Some 1%Z) false in
  reparseOverscaled o = false /\
  exists ids,
    run t unitSquare o fixedZoomDetails 5 = Some (JS.Normal ids) /\
    Forall (fun id => overscaledZ id = JS.Fin (cz (canonical id))) ids.
Proof.
  intros t o.
  assert (Hre : reparseOverscaled o = false) by reflexivity.
  split; [exact Hre|].
  eexists. split; [vm_compute; reflexivity|].
  apply (@coveringTiles_not_overscaled rationalMath planar checkedIDs t unitSquare None
           overheadCamera mapCenter o fixedZoomDetails 5 _ Hre).
  vm_compute. reflexivity.
Defined.



Lemma provider_child_box_nested_witness :
  let o := optionsTerrain (Some 0%Z) in
  Address.valid (Address.ofEntry rootTile) /\
  (zoom rootTile <= 29)%Z /\
  In firstChild (children rootTile 0 true) /\
  (terrain o <> None ->
   @refuses checkedIDs (JS.Fin (zoom rootTile)) 0 (zoom rootTile) (x rootTile) (y rootTile)
   = false /\
   @refuses checkedIDs (JS.Fin (zoom firstChild)) 0 (zoom firstChild) (x firstChild)
     (y firstChild)
   = false) /\
  exists b bc,
    @MercatorCoveringTilesDetailsProvider.getTileAABB checkedIDs (tileIDOf rootTile) 0 0 o
    = JS.Normal b /\
    @MercatorCoveringTilesDetailsProvider.getTileAABB checkedIDs (tileIDOf firstChild) 0 0 o
    = JS.Normal bc /\
    aabb_x1 bc - aabb_x0 bc == (aabb_x1 b - aabb_x0 b) / 2.
Proof.
  intro o.
  assert (Hv : Address.valid (Address.ofEntry rootTile))
    by (unfold Address.valid; cbn; lia).
  assert (Hz : (zoom rootTile <= 29)%Z) by (cbn; lia).
  assert (Hc : In firstChild (children rootTile 0 true)) by (left; reflexivity).
  assert (Hacc : terrain o <> None ->
            @refuses checkedIDs (JS.Fin (zoom rootTile)) 0 (zoom rootTile) (x rootTile)
              (y rootTile) = false /\
            @refuses checkedIDs (JS.Fin (zoom firstChild)) 0 (zoom firstChild)
              (x firstChild) (y firstChild) = false)
    by (intros _; split; reflexivity).
  split; [exact Hv|]. split; [exact Hz|]. split; [exact Hc|]. split; [exact Hacc|].
  destruct (@provider_child_box_nested checkedIDs rootTile firstChild 0 true 0 o Hv Hz Hc
              Hacc)
    as (b & bc & Hb & Hbc & _ & _ & _ & _ & Hwd & _).
  exists b, bc. auto.
Defined.

End ExtraScenarios.

(* ================================================================== *)
(** * Text shaping *)

Section TaggedStringFacts.
Import Shaping.

Lemma forallb_lt_weaken (l : list nat) (n m : nat) :
  (n <= m)%nat ->
  forallb (fun k => (k <? n)%nat) l = true ->
  forallb (fun k => (k <? m)%nat) l = true.
Proof.
  intros Hle H. rewrite forallb_forall in *. intros k Hk.
  specialize (H k Hk). apply Nat.ltb_lt in H. apply Nat.ltb_lt. lia.
Qed.

Lemma wellTagged_iff (ts : TaggedString) :
  wellTagged ts = true <->
  length (text ts) = length (sectionIndex ts)
  /\ Forall (fun k => (k < length (sections ts))%nat) (sectionIndex ts).
Proof.
  unfold wellTagged. rewrite andb_true_iff, Nat.eqb_eq, forallb_forall, Forall_forall.
  split; intros [H1 H2]; split; auto; intros k Hk; specialize (H2 k Hk);
    apply Nat.ltb_lt; exact H2.
Qed.

Lemma addTextSection_wellTagged ts section font :
  wellTagged ts = true -> wellTagged (addTextSection ts section font) = true.
Proof.
  rewrite !wellTagged_iff. intros [Hlen Hall]. unfold addTextSection. cbn.
  rewrite !length_app, repeat_length. cbn. split; [lia|].
  apply Forall_app. split.
  - eapply Forall_impl; [|exact Hall]. cbn. intros; lia.
  - apply Forall_forall. intros k Hk. apply repeat_spec in Hk. lia.
Qed.

Lemma addImageSection_wellTagged ts section :
  wellTagged ts = true -> wellTagged (addImageSection ts section) = true.
Proof.
  intros H. unfold addImageSection.
  destruct (String.length _ =? 0)%nat; [exact H|].
  destruct (getNextImageSectionCharCode ts) as [[c|] id'].
  - apply wellTagged_iff in H. destruct H as [Hlen Hall].
    apply wellTagged_iff. cbn. rewrite !length_app. cbn. split; [lia|].
    apply Forall_app. split.
    + eapply Forall_impl; [|exact Hall]. cbn. intros; lia.
    + constructor; [lia|constructor].
  - exact H.
Qed.

Lemma getSection_wellTagged ts i :
  wellTagged ts = true -> (i < length (text ts))%nat ->
  exists s, getSection ts i = Some s.
Proof.
  intros H Hi. apply wellTagged_iff in H. destruct H as [Hlen Hall].
  unfold getSection.
  destruct (nth_error (sectionIndex ts) i) as [k|] eqn:Hk.
  - assert (Hin : In k (sectionIndex ts)) by (eapply nth_error_In; eauto).
    rewrite Forall_forall in Hall. specialize (Hall k Hin).
    destruct (nth_error (sections ts) k) eqn:Hs; [eauto|].
    apply nth_error_None in Hs. lia.
  - apply nth_error_None in Hk. lia.
Qed.

(** X10. [TaggedString.fromFeature] builds a string whose section table is
    complete: the text and the array of section indices have the same length,
    and [getSection] is defined at every position of the text. *)
Theorem fromFeature_sections_complete (formatted : list FormattedSection)
        (defaultFontStack : String.string) :
  let ts := fromFeature formatted defaultFontStack in
  length (text ts) = length (sectionIndex ts)
  /\ forall i, (i < length (text ts))%nat -> exists s, getSection ts i = Some s.
Proof.
  assert (H : wellTagged (fromFeature formatted defaultFontStack) = true).
  { unfold fromFeature.
    assert (G : forall l ts, wellTagged ts = true ->
              wellTagged (fold_left
                (fun result section =>
                   match fs_image section with
                   | None => addTextSection result section defaultFontStack
                   | Some _ => addImageSection result section
                   end) l ts) = true).
    { induction l as [|a l IH]; intros ts Hts; cbn; [exact Hts|].
      apply IH. destruct (fs_image a).
      - apply addImageSection_wellTagged; exact Hts.
      - apply addTextSection_wellTagged; exact Hts. }
    apply G. reflexivity. }
  cbv zeta. split.
  - apply wellTagged_iff in H. tauto.
  - intros i Hi. apply getSection_wellTagged; assumption.
Qed.

Lemma combine_app_same {A B : Type} (l1 l2 : list A) (k1 k2 : list B) :
  length l1 = length k1 ->
  combine (l1 ++ l2) (k1 ++ k2) = combine l1 k1 ++ combine l2 k2.
Proof.
  revert k1. induction l1 as [|a l1 IH]; intros [|b k1] H; cbn in *; try discriminate.
  - reflexivity.
  - f_equal. apply IH. lia.
Qed.

Lemma imageChars_app ts t' si' new :
  wellTagged ts = true ->
  imageChars {| text := text ts ++ t'; sectionIndex := sectionIndex ts ++ si';
                sections := sections ts ++ new;
                imageSectionID := imageSectionID ts |}
  = imageChars ts
    ++ map fst (filter (fun '(_, k) => isImage (nth_error (sections ts ++ new) k))
                  (combine t' si')).
Proof.
  intros H. apply wellTagged_iff in H. destruct H as [Hlen Hall].
  unfold imageChars. cbn [text sectionIndex sections].
  rewrite combine_app_same by exact Hlen.
  rewrite filter_app, map_app. f_equal. f_equal.
  apply filter_ext_in. intros [c k] Hin.
  apply in_combine_r in Hin. rewrite Forall_forall in Hall.
  specialize (Hall k Hin). rewrite nth_error_app1 by exact Hall. reflexivity.
Qed.

Lemma imageChars_id ts id :
  imageChars {| text := text ts; sectionIndex := sectionIndex ts;
                sections := sections ts; imageSectionID := id |} = imageChars ts.
Proof. reflexivity. Qed.

Lemma nth_error_last_added {A : Type} (l : list A) (x : A) :
  nth_error (l ++ [x]) (length (l ++ [x]) - 1) = Some x.
Proof.
  rewrite length_app. cbn. replace (length l + 1 - 1)%nat with (length l) by lia.
  rewrite nth_error_app2 by lia. rewrite Nat.sub_diag. reflexivity.
Qed.

Lemma filter_repeat_text (secs : list SectionOptions) (idx : nat) (t' : list Z) (m : nat) :
  isImage (nth_error secs idx) = false ->
  filter (fun '(_, k) => isImage (nth_error secs k)) (combine t' (repeat idx m)) = [].
Proof.
  intros H. revert m. induction t' as [|c t' IH]; intros [|m]; cbn; try reflexivity.
  rewrite H. apply IH.
Qed.

Lemma addTextSection_imageChars ts section font :
  wellTagged ts = true ->
  imageChars (addTextSection ts section font) = imageChars ts.
Proof.
  intros H. unfold addTextSection. cbv zeta.
  rewrite (@imageChars_app ts _ _ _ H).
  rewrite filter_repeat_text.
  - cbn. apply app_nil_r.
  - rewrite nth_error_last_added. reflexivity.
Qed.

Lemma nonEmpty_of_length (name : String.string) :
  (String.length name =? 0)%nat = false -> nonEmpty (Some name) = true.
Proof. destruct name; cbn; [discriminate|reflexivity]. Qed.

Lemma addTextSection_imageState ts n section font :
  imageState ts n -> imageState (addTextSection ts section font) n.
Proof.
  intros (Hw & Hn & Hc & Hid). split; [|split; [|split]].
  - apply addTextSection_wellTagged; exact Hw.
  - exact Hn.
  - rewrite addTextSection_imageChars by exact Hw. exact Hc.
  - exact Hid.
Qed.

Lemma addImageSection_imageState ts n section :
  imageState ts n -> exists n', imageState (addImageSection ts section) n'.
Proof.
  intros Hst. pose proof Hst as (Hw & Hn & Hc & Hid).
  pose proof (@addImageSection_wellTagged ts section Hw) as Hw'.
  unfold addImageSection in *.
  destruct (String.length _ =? 0)%nat eqn:Hname; [exists n; exact Hst|].
  set (name := match fs_image section with
               | Some n0 => n0 | None => String.EmptyString end) in *.
  assert (Hadd : forall c id',
    imageChars {| text := text ts ++ [c];
                  sectionIndex := sectionIndex ts
                    ++ [(length (sections ts ++ [forImage name (fs_verticalAlign section)]) - 1)%nat];
                  sections := sections ts ++ [forImage name (fs_verticalAlign section)];
                  imageSectionID := id' |} = imageChars ts ++ [c]).
  { intros c id'.
    transitivity (imageChars
      {| text := text ts ++ [c];
         sectionIndex := sectionIndex ts
           ++ [(length (sections ts ++ [forImage name (fs_verticalAlign section)]) - 1)%nat];
         sections := sections ts ++ [forImage name (fs_verticalAlign section)];
         imageSectionID := imageSectionID ts |}); [reflexivity|].
    rewrite (@imageChars_app ts _ _ _ Hw). f_equal.
    cbn [combine filter]. rewrite nth_error_last_added.
    cbn [isImage forImage imageName]. rewrite (nonEmpty_of_length _ Hname).
    reflexivity. }
  unfold getNextImageSectionCharCode in *. rewrite Hid in *.
  destruct (n =? 0)%nat eqn:Hz.
  - apply Nat.eqb_eq in Hz. subst n. exists 1%nat. split; [|split; [|split]].
    + exact Hw'.
    + lia.
    + cbv zeta. rewrite Hadd, Hc. reflexivity.
    + reflexivity.
  - apply Nat.eqb_neq in Hz.
    assert (Hnz : ((PUAbegin + Z.of_nat n - 1) =? 0)%Z = false)
      by (apply Z.eqb_neq; unfold PUAbegin; lia).
    rewrite Hnz in *.
    destruct (PUAbegin + Z.of_nat n - 1 >=? PUAend)%Z eqn:Hge.
    + exists n. split; [|split; [|split]]; try assumption.
      cbn [imageSectionID]. destruct (n =? 0)%nat eqn:E; [apply Nat.eqb_eq in E; lia|].
      reflexivity.
    + assert (Z.of_nat n < 6400)%Z.
      { rewrite Z.geb_leb in Hge. apply Z.leb_gt in Hge.
        unfold PUAbegin, PUAend in Hge. lia. }
      exists (S n). split; [|split; [|split]].
      * exact Hw'.
      * lia.
      * cbv zeta. rewrite Hadd, Hc. rewrite seq_S, map_app. cbn.
        do 3 f_equal. lia.
      * cbn [imageSectionID Nat.eqb]. f_equal. lia.
Qed.

(** X11. The images of a formatted text are numbered from U+E000 upwards in
    the order they appear: the code units that [fromFeature] inserts for image
    sections are 0xE000, 0xE001, ..., and there are at most 6400 of them
    (images beyond that are left out). *)
Theorem fromFeature_image_codes (formatted : list FormattedSection)
        (defaultFontStack : String.string) :
  exists n : nat,
    (Z.of_nat n <= 6400)%Z
    /\ imageChars (fromFeature formatted defaultFontStack)
       = map (fun k => (PUAbegin + Z.of_nat k)%Z) (seq 0 n).
Proof.
  assert (G : forall l ts n, imageState ts n ->
            exists n', imageState (fold_left
              (fun result section =>
                 match fs_image section with
                 | None => addTextSection result section defaultFontStack
                 | Some _ => addImageSection result section
                 end) l ts) n').
  { induction l as [|a l IH]; intros ts n Hst; cbn [fold_left]; [eauto|].
    destruct (fs_image a) eqn:Ha.
    - destruct (@addImageSection_imageState ts n a Hst) as [n' Hst'].
      exact (IH _ _ Hst').
    - exact (IH _ _ (@addTextSection_imageState ts n a defaultFontStack Hst)). }
  destruct (G formatted emptyTagged 0%nat) as (n & _ & Hn & Hc & _).
  { split; [|split; [|split]]; try reflexivity. cbn. lia. }
  exists n. split; assumption.
Qed.

Lemma leadingWhitespace_le (l : list Z) : (leadingWhitespace l <= length l)%nat.
Proof. induction l as [|c l IH]; cbn; [lia|]. destruct (whitespace c); cbn; lia. Qed.

Lemma leadingWhitespace_firstn (l : list Z) :
  forallb whitespace (firstn (leadingWhitespace l) l) = true.
Proof.
  induction l as [|c l IH]; cbn; [reflexivity|].
  destruct (whitespace c) eqn:Hc; cbn; [rewrite Hc; exact IH|reflexivity].
Qed.

Lemma leadingWhitespace_skipn (l : list Z) :
  startsWithWhitespace (skipn (leadingWhitespace l) l) = false.
Proof.
  induction l as [|c l IH]; cbn; [reflexivity|].
  destruct (whitespace c) eqn:Hc; cbn; [exact IH|exact Hc].
Qed.

Lemma leadingWhitespace_zero (l : list Z) :
  startsWithWhitespace l = false -> leadingWhitespace l = 0%nat.
Proof. destruct l as [|c l]; cbn; [reflexivity|]. intros ->. reflexivity. Qed.

Lemma startsWithWhitespace_firstn (l : list Z) (k : nat) :
  startsWithWhitespace l = false -> startsWithWhitespace (firstn k l) = false.
Proof. destruct l, k; cbn; auto. Qed.

Lemma substring_slice {A : Type} (l : list A) (b e : nat) :
  (b <= e <= length l)%nat -> substring b e l = slice b e l.
Proof.
  intros H. unfold substring.
  rewrite !Nat.min_l by lia. rewrite Nat.max_r by lia. reflexivity.
Qed.

Lemma slice_split {A : Type} (l : list A) (b e : nat) :
  l = firstn b l ++ slice b e l ++ skipn (e - b) (skipn b l).
Proof.
  unfold slice. rewrite firstn_skipn. rewrite firstn_skipn. reflexivity.
Qed.

(** The two positions computed by [trim]. *)
Lemma trim_bounds (t : list Z) :
  let b := leadingWhitespace t in
  let e := (length t - leadingWhitespace (rev (skipn b t)))%nat in
  (b <= e <= length t)%nat.
Proof.
  cbv zeta. pose proof (leadingWhitespace_le t).
  pose proof (leadingWhitespace_le (rev (skipn (leadingWhitespace t) t))) as H1.
  rewrite length_rev, length_skipn in H1. lia.
Qed.

Lemma trim_text_ends (ts : TaggedString) :
  startsWithWhitespace (text (trim ts)) = false
  /\ startsWithWhitespace (rev (text (trim ts))) = false.
Proof.
  unfold trim. cbn [text].
  rewrite substring_slice by apply trim_bounds.
  set (b := leadingWhitespace (text ts)).
  set (rest := skipn b (text ts)).
  set (t := leadingWhitespace (rev rest)).
  assert (Hlen : length rest = (length (text ts) - b)%nat)
    by (unfold rest; apply length_skipn).
  pose proof (leadingWhitespace_le (text ts)) as Hb. fold b in Hb.
  pose proof (leadingWhitespace_le (rev rest)) as Ht. fold t in Ht.
  rewrite length_rev in Ht.
  unfold slice. fold rest.
  replace (length (text ts) - t - b)%nat with (length rest - t)%nat by lia.
  split.
  - apply startsWithWhitespace_firstn. apply leadingWhitespace_skipn.
  - rewrite <- skipn_rev. apply leadingWhitespace_skipn.
Qed.

(** X12. [trim] removes white space only, and all of it at both ends: the
    text is the trimmed text between two runs of white space, the trimmed text
    neither starts nor ends with white space, and the section indices are cut
    at the same two positions, so every remaining character keeps its
    section. *)
Theorem trim_strips_whitespace (ts : TaggedString)
        (Hlen : length (text ts) = length (sectionIndex ts)) :
  exists (pre post : list Z) (ipre ipost : list nat),
    text ts = pre ++ text (trim ts) ++ post
    /\ sectionIndex ts = ipre ++ sectionIndex (trim ts) ++ ipost
    /\ length ipre = length pre /\ length ipost = length post
    /\ forallb whitespace pre = true /\ forallb whitespace post = true
    /\ startsWithWhitespace (text (trim ts)) = false
    /\ startsWithWhitespace (rev (text (trim ts))) = false.
Proof.
  pose proof (trim_text_ends ts) as [Hs He].
  pose proof (trim_bounds (text ts)) as Hb. cbv zeta in Hb.
  unfold trim in *. cbn [text sectionIndex] in *.
  rewrite substring_slice in * by exact Hb.
  set (b := leadingWhitespace (text ts)) in *.
  set (rest := skipn b (text ts)) in *.
  set (t := leadingWhitespace (rev rest)) in *.
  set (e := (length (text ts) - t)%nat) in *.
  exists (firstn b (text ts)), (skipn (e - b) (skipn b (text ts))),
         (firstn b (sectionIndex ts)), (skipn (e - b) (skipn b (sectionIndex ts))).
  split; [apply slice_split|].
  split; [apply slice_split|].
  split; [rewrite !length_firstn; lia|].
  split; [rewrite !length_skipn; lia|].
  split; [apply leadingWhitespace_firstn|].
  split; [|split; assumption].
  fold rest.
  assert (Hlr : length rest = (length (text ts) - b)%nat)
    by (unfold rest; apply length_skipn).
  pose proof (leadingWhitespace_le (rev rest)) as Ht. fold t in Ht.
  rewrite length_rev in Ht.
  replace (e - b)%nat with (length rest - t)%nat by (unfold e; lia).
  pose proof (leadingWhitespace_firstn (rev rest)) as Hw. fold t in Hw.
  rewrite firstn_rev in Hw.
  rewrite forallb_forall in *. intros c Hc. apply Hw. apply -> in_rev. exact Hc.
Qed.

(** X13. [trim] is idempotent: trimming a trimmed string changes nothing. *)
Theorem trim_idempotent (ts : TaggedString) : trim (trim ts) = trim ts.
Proof.
  pose proof (trim_text_ends ts) as [Hs He].
  apply leadingWhitespace_zero in Hs. apply leadingWhitespace_zero in He.
  assert (Hsi : (length (sectionIndex (trim ts)) <= length (text (trim ts)))%nat).
  { pose proof (trim_bounds (text ts)) as Hb. cbv zeta in Hb.
    unfold trim. cbn [text sectionIndex].
    rewrite substring_slice by exact Hb. unfold slice.
    rewrite !length_firstn, !length_skipn. lia. }
  remember (trim ts) as r eqn:Hr.
  unfold trim. rewrite Hs. cbn [skipn]. rewrite He, Nat.sub_0_r.
  rewrite substring_slice by lia. unfold slice. cbn [skipn].
  rewrite Nat.sub_0_r, firstn_all, firstn_all2 by exact Hsi.
  destruct r; reflexivity.
Qed.

End TaggedStringFacts.

Section LineBreakFacts.
Import Shaping.

Lemma slice_skipn {A : Type} (l : list A) (s p : nat) :
  (s <= p)%nat -> slice s p l ++ skipn p l = skipn s l.
Proof.
  intros H. unfold slice.
  replace (skipn p l) with (skipn (p - s) (skipn s l)).
  - apply firstn_skipn.
  - rewrite skipn_skipn. f_equal. lia.
Qed.

Lemma breakLines_fold (input : TaggedString) (points : list nat) :
  length (text input) = length (sectionIndex input) ->
  forall (lines : list TaggedString) (start : nat),
    Forall (le start) points ->
    StronglySorted le points ->
    Forall (fun p => (p <= length (text input))%nat) points ->
    (start <= length (text input))%nat ->
    concat (map text lines) ++ skipn start (text input) = text input ->
    concat (map sectionIndex lines) ++ skipn start (sectionIndex input)
    = sectionIndex input ->
    Forall (fun line => sections line = sections input) lines ->
    let r := fold_left
               (fun '(lines, start) lineBreak =>
                  (lines ++ [taggedSubstring input start lineBreak], lineBreak))
               points (lines, start) in
    concat (map text (fst r)) ++ skipn (snd r) (text input) = text input
    /\ concat (map sectionIndex (fst r)) ++ skipn (snd r) (sectionIndex input)
       = sectionIndex input
    /\ Forall (fun line => sections line = sections input) (fst r)
    /\ (snd r <= length (text input))%nat.
Proof.
  intros Hlen. induction points as [|p points IH];
    intros lines start Hge Hsorted Hle Hstart Ht Hsi Hsec; cbn [fold_left].
  - cbn. auto.
  - inversion Hge as [|? ? Hsp Hge']; subst.
    inversion Hsorted as [|? ? Hsorted' Hall]; subst.
    inversion Hle as [|? ? Hp Hle']; subst.
    apply IH; try assumption.
    + rewrite map_app, concat_app. cbn [map concat taggedSubstring text].
      rewrite app_nil_r, <- app_assoc.
      rewrite substring_slice by lia. rewrite slice_skipn by exact Hsp. exact Ht.
    + rewrite map_app, concat_app. cbn [map concat taggedSubstring sectionIndex].
      rewrite app_nil_r, <- app_assoc.
      rewrite slice_skipn by exact Hsp. exact Hsi.
    + apply Forall_app. split; [exact Hsec|]. constructor; [reflexivity|constructor].
Qed.

(** X14. [breakLines] cuts the string without losing or repeating anything:
    for break points in non-decreasing order and within the text, the texts
    of the lines concatenate to the input text, their section indices to the
    input's section indices, and every line refers to the input's sections. *)
Theorem breakLines_round_trip (input : TaggedString) (lineBreakPoints : list nat)
        (Hlen : length (text input) = length (sectionIndex input))
        (Hsorted : StronglySorted le lineBreakPoints)
        (Hle : Forall (fun p => (p <= length (text input))%nat) lineBreakPoints) :
  let lines := breakLines input lineBreakPoints in
  concat (map text lines) = text input
  /\ concat (map sectionIndex lines) = sectionIndex input
  /\ Forall (fun line => sections line = sections input) lines.
Proof.
  cbv zeta. unfold breakLines.
  destruct (@breakLines_fold input lineBreakPoints Hlen [] 0%nat)
    as (Ht & Hsi & Hsec & Hstart); try assumption; try reflexivity.
  - apply Forall_forall. intros; lia.
  - lia.
  - constructor.
  - cbv zeta in *.
    destruct (fold_left _ lineBreakPoints ([], 0%nat)) as [lines start].
    cbn [fst snd] in *.
    destruct (start <? length (text input))%nat eqn:Hlt.
    + apply Nat.ltb_lt in Hlt.
      rewrite !map_app, !concat_app. cbn [map concat taggedSubstring text sectionIndex].
      rewrite !app_nil_r. rewrite substring_slice by lia.
      unfold slice. rewrite !firstn_all2 by (rewrite length_skipn; lia).
      repeat split; try assumption.
      apply Forall_app. split; [exact Hsec|]. constructor; [reflexivity|constructor].
    + apply Nat.ltb_ge in Hlt.
      rewrite skipn_all2 in Ht by lia. rewrite skipn_all2 in Hsi by lia.
      rewrite app_nil_r in *. auto.
Qed.

Lemma Qle_bool_false (a b : Q) : Qle_bool a b = false -> b <= a.
Proof.
  intros H. apply Qlt_le_weak. apply Qnot_le_lt. intros Hle.
  apply Qle_bool_iff in Hle. congruence.
Qed.

Lemma evaluateBreak_fold (breakX targetWidth penalty : Q) (isLastBreak : bool)
      (cands : list Break) :
  forall (best : option Break) (bb : Q),
    let cost p := calculateBadness (breakX - bx p) targetWidth penalty isLastBreak
                  + badness p in
    let r := fold_left
               (fun '(bestPriorBreak, bestBreakBadness) potentialBreak =>
                  if Qle_bool (cost potentialBreak) bestBreakBadness
                  then (Some potentialBreak, cost potentialBreak)
                  else (bestPriorBreak, bestBreakBadness))
               cands (best, bb) in
    snd r <= bb
    /\ (forall p, In p cands -> snd r <= cost p)
    /\ ((fst r = best /\ snd r = bb)
        \/ exists p, In p cands /\ fst r = Some p /\ snd r = cost p).
Proof.
  induction cands as [|c cands IH]; intros best bb cost; cbn [fold_left].
  - cbn. split; [apply Qle_refl|]. split; [intros p []|]. left. auto.
  - destruct (Qle_bool (cost c) bb) eqn:Hc.
    + destruct (IH (Some c) (cost c)) as (H1 & H2 & H3). fold cost in H1, H2, H3.
      apply Qle_bool_iff in Hc.
      split; [eapply Qle_trans; eassumption|].
      split.
      * intros p [<-|Hp]; [exact H1|apply H2; exact Hp].
      * right. destruct H3 as [[Hf Hs]|(p & Hp & Hf & Hs)].
        -- exists c. split; [left; reflexivity|]. split; assumption.
        -- exists p. split; [right; exact Hp|]. split; assumption.
    + destruct (IH best bb) as (H1 & H2 & H3). fold cost in H1, H2, H3.
      apply Qle_bool_false in Hc.
      split; [exact H1|].
      split.
      * intros p [<-|Hp]; [eapply Qle_trans; eassumption|apply H2; exact Hp].
      * destruct H3 as [[Hf Hs]|(p & Hp & Hf & Hs)]; [left; auto|].
        right. exists p. split; [right; exact Hp|]. split; assumption.
Qed.

Lemma evaluateBreak_index i x tw cands pen isLast :
  index (evaluateBreak i x tw cands pen isLast) = i.
Proof. unfold evaluateBreak. destruct (fold_left _ _ _). reflexivity. Qed.

Lemma evaluateBreak_prior i x tw cands pen isLast :
  priorBreak (evaluateBreak i x tw cands pen isLast) = None
  \/ exists p, In p cands /\ priorBreak (evaluateBreak i x tw cands pen isLast) = Some p.
Proof.
  pose proof (@evaluateBreak_fold x tw pen isLast cands None
                (calculateBadness x tw pen isLast)) as H.
  cbv zeta in H. unfold evaluateBreak.
  destruct (fold_left _ _ _) as [best bb]. cbn [fst snd priorBreak] in *.
  destruct H as (_ & _ & [[-> _]|(p & Hp & -> & _)]); [left; reflexivity|].
  right. exists p. auto.
Qed.

(** X15. [evaluateBreak] picks the cheapest way to end a line at the given
    position: the badness it returns is at most the cost of a first line
    ending there and at most the cost through every candidate prior break,
    and it is the cost of the prior break it records (no prior break meaning
    a first line). *)
Theorem evaluateBreak_optimal (breakIndex : nat) (breakX targetWidth : Q)
        (potentialBreaks : list Break) (penalty : Q) (isLastBreak : bool) :
  let b := evaluateBreak breakIndex breakX targetWidth potentialBreaks penalty
             isLastBreak in
  let cost p := calculateBadness (breakX - bx p) targetWidth penalty isLastBreak
                + badness p in
  let first := calculateBadness breakX targetWidth penalty isLastBreak in
  badness b <= first
  /\ (forall p, In p potentialBreaks -> badness b <= cost p)
  /\ match priorBreak b with
     | None => badness b = first
     | Some p => In p potentialBreaks /\ badness b = cost p
     end.
Proof.
  pose proof (@evaluateBreak_fold breakX targetWidth penalty isLastBreak
                potentialBreaks None
                (calculateBadness breakX targetWidth penalty isLastBreak)) as H.
  cbv zeta in *. unfold evaluateBreak.
  destruct (fold_left _ _ _) as [best bb]. cbn [fst snd priorBreak badness] in *.
  destruct H as (H1 & H2 & H3). split; [exact H1|]. split; [exact H2|].
  destruct H3 as [[-> ->]|(p & Hp & -> & ->)]; auto.
Qed.

Lemma breaksUpTo_last (b : Break) :
  exists init, breaksUpTo b = init ++ [index b].
Proof. destruct b as [i x [p|] q]; cbn; eauto. exists []. reflexivity. Qed.

Lemma sorted_snoc (l : list nat) (k : nat) :
  StronglySorted lt l -> Forall (fun a => (a < k)%nat) l ->
  StronglySorted lt (l ++ [k]).
Proof.
  induction 1 as [|a l Hs IH Ha]; intros Hk; cbn.
  - repeat constructor.
  - inversion Hk; subst. constructor; [apply IH; assumption|].
    apply Forall_app. split; [exact Ha|]. constructor; [assumption|constructor].
Qed.

Lemma sorted_snoc_inv (l : list nat) (k : nat) :
  StronglySorted lt (l ++ [k]) -> Forall (fun a => (a < k)%nat) l.
Proof.
  induction l as [|a l IH]; cbn; intros H; [constructor|].
  inversion H as [|? ? Hs Ha]; subst. constructor; [|apply IH; exact Hs].
  apply Forall_app in Ha. destruct Ha as [_ Ha]. inversion Ha; assumption.
Qed.

Lemma properBreaks_below (b : Break) :
  properBreaks (breaksUpTo b) ->
  Forall (fun a => (a <= index b)%nat) (breaksUpTo b).
Proof.
  intros [Hs _]. destruct (breaksUpTo_last b) as [init Hb]. rewrite Hb in *.
  apply Forall_app. split.
  - eapply Forall_impl; [|apply sorted_snoc_inv; exact Hs]. cbn. intros; lia.
  - constructor; [lia|constructor].
Qed.

(** A break evaluated against proper candidates with smaller indices is
    proper. *)
Lemma evaluateBreak_proper i x tw cands pen isLast :
  (1 <= i)%nat ->
  Forall (fun p => properBreaks (breaksUpTo p) /\ (index p < i)%nat) cands ->
  properBreaks (breaksUpTo (evaluateBreak i x tw cands pen isLast)).
Proof.
  intros Hi Hc.
  pose proof (evaluateBreak_index i x tw cands pen isLast) as Hidx.
  pose proof (evaluateBreak_prior i x tw cands pen isLast) as Hp.
  destruct (evaluateBreak i x tw cands pen isLast) as [j y prior q].
  cbn [index priorBreak] in *. subst j. cbn [breaksUpTo].
  destruct Hp as [->|(p & Hin & ->)].
  - cbn. split; repeat constructor. exact Hi.
  - rewrite Forall_forall in Hc. destruct (Hc p Hin) as [Hpp Hlt].
    pose proof (properBreaks_below p Hpp) as Hbelow. destruct Hpp as [Hs H1].
    split.
    + apply sorted_snoc; [exact Hs|].
      eapply Forall_impl; [|exact Hbelow]. cbn. intros; lia.
    + apply Forall_app. split; [exact H1|]. constructor; [exact Hi|constructor].
Qed.

Lemma last_cons (l : list nat) (a d : nat) : last (a :: l) d = last l a.
Proof.
  revert a d. induction l as [|b l IH]; intros a d; [reflexivity|].
  change (last (a :: b :: l) d) with (last (b :: l) d).
  rewrite (IH b d), (IH b a). reflexivity.
Qed.

Lemma breakLines_fold_shape (input : TaggedString) (points : list nat) :
  forall (lines : list TaggedString) (start : nat),
    let r := fold_left
               (fun '(lines, start) lineBreak =>
                  (lines ++ [taggedSubstring input start lineBreak], lineBreak))
               points (lines, start) in
    length (fst r) = (length lines + length points)%nat
    /\ snd r = last points start.
Proof.
  induction points as [|p points IH]; intros lines start; cbn [fold_left].
  - cbn. split; [lia|reflexivity].
  - destruct (IH (lines ++ [taggedSubstring input start p]) p) as [H1 H2].
    cbv zeta. split.
    + rewrite H1, length_app. cbn. lia.
    + rewrite H2. symmetry. apply last_cons.
Qed.

Lemma breakLines_fold_nonempty (input : TaggedString) (points : list nat) :
  forall (lines : list TaggedString) (start : nat),
    Forall (lt start) points ->
    StronglySorted lt points ->
    Forall (fun p => (p <= length (text input))%nat) points ->
    Forall (fun line => text line <> []) lines ->
    Forall (fun line => text line <> [])
      (fst (fold_left
              (fun '(lines, start) lineBreak =>
                 (lines ++ [taggedSubstring input start lineBreak], lineBreak))
              points (lines, start))).
Proof.
  induction points as [|p points IH]; intros lines start Hgt Hs Hle Hne;
    cbn [fold_left]; [exact Hne|].
  inversion Hgt; subst. inversion Hs; subst. inversion Hle; subst.
  apply IH; try assumption.
  apply Forall_app. split; [exact Hne|]. constructor; [|constructor].
  cbn [taggedSubstring text]. rewrite substring_slice by lia.
  intros Hnil. apply (f_equal (@length Z)) in Hnil. unfold slice in Hnil.
  rewrite length_firstn, length_skipn in Hnil. cbn in Hnil. lia.
Qed.

Lemma sorted_lt_le (l : list nat) : StronglySorted lt l -> StronglySorted le l.
Proof.
  induction 1; constructor; [assumption|].
  eapply Forall_impl; [|eassumption]. cbn. intros; lia.
Qed.

Section Loop.
Context {E : TextEnv}.
Variable glyphMap : GlyphMap.
Variable imagePositions : ImagePositions.
Variable spacing : Q.
Variable maxWidth : Q.
Variable layoutTextSize : Q.

Lemma getGlyphAdvance_normal codePoint s :
  exists a, getGlyphAdvance glyphMap imagePositions spacing layoutTextSize
              codePoint (Some s) = JS.Normal a.
Proof.
  unfold getGlyphAdvance.
  destruct (negb (nonEmpty (imageName s))).
  - destruct (match glyphMap (fontStack s), codePoint with
              | Some positions, Some c => positions c
              | _, _ => None
              end); eauto.
  - destruct (imageName s) as [name|]; [|eauto].
    destruct (imagePositions name); eauto.
Qed.

Lemma totalAdvance_normal input indices :
  Forall (fun i => exists s, getSection input i = Some s) indices ->
  forall acc, exists total,
    totalAdvance glyphMap imagePositions spacing layoutTextSize input indices acc
    = JS.Normal total.
Proof.
  induction 1 as [|i indices [s Hs] _ IH]; intros acc; cbn [totalAdvance]; [eauto|].
  rewrite Hs.
  destruct (getGlyphAdvance_normal (getCharCode input i) s) as [a ->].
  cbn [JS.bind]. apply IH.
Qed.

Lemma totalAdvance_throws input indices :
  Exists (fun i => getSection input i = None) indices ->
  forall acc,
    totalAdvance glyphMap imagePositions spacing layoutTextSize input indices acc
    = JS.Throw JS.TypeError.
Proof.
  induction 1 as [i indices Hi|i indices _ IH]; intros acc; cbn [totalAdvance].
  - rewrite Hi. reflexivity.
  - destruct (getSection input i) as [s|]; [|reflexivity].
    destruct (getGlyphAdvance_normal (getCharCode input i) s) as [a ->].
    cbn [JS.bind]. apply IH.
Qed.

Lemma sections_defined input :
  wellTagged input = true ->
  forall i n, (i + n <= length (text input))%nat ->
    Forall (fun i => exists s, getSection input i = Some s) (seq i n).
Proof.
  intros Hw i n Hle. apply Forall_forall. intros j Hj. apply in_seq in Hj.
  apply getSection_wellTagged; [exact Hw|lia].
Qed.

(** Candidates collected up to position [i]. *)
Lemma lineBreakStep_proper input tw has cx pbs i :
  wellTagged input = true ->
  (i < length (text input))%nat ->
  Forall (fun p => properBreaks (breaksUpTo p)
                   /\ (index p <= i)%nat /\ (index p < length (text input))%nat) pbs ->
  exists cx' pbs',
    lineBreakStep glyphMap imagePositions spacing layoutTextSize input tw has
      (cx, pbs) i = JS.Normal (cx', pbs')
    /\ Forall (fun p => properBreaks (breaksUpTo p)
                        /\ (index p <= S i)%nat
                        /\ (index p < length (text input))%nat) pbs'.
Proof.
  intros Hw Hi Hpbs.
  assert (Hkeep : Forall (fun p => properBreaks (breaksUpTo p)
                        /\ (index p <= S i)%nat
                        /\ (index p < length (text input))%nat) pbs).
  { eapply Forall_impl; [|exact Hpbs]. cbn. intros p (H1 & H2 & H3). auto. }
  destruct (@getSection_wellTagged input i Hw Hi) as [s Hs].
  unfold lineBreakStep. rewrite Hs.
  assert (Hcx : exists cx1,
    (if negb (at_code whitespace (getCharCode input i))
     then JS.bind (getGlyphAdvance glyphMap imagePositions spacing layoutTextSize
                     (getCharCode input i) (Some s))
                  (fun advance => JS.Normal (cx + advance))
     else JS.Normal cx) = JS.Normal cx1).
  { destruct (negb _); [|eauto].
    destruct (getGlyphAdvance_normal (getCharCode input i) s) as [a ->].
    cbn [JS.bind]. eauto. }
  destruct Hcx as [cx1 ->]. cbn [JS.bind].
  destruct (i + 1 <? length (text input))%nat eqn:Hlt; [|eauto].
  apply Nat.ltb_lt in Hlt.
  match goal with
  | |- context [JS.bind ?c _] =>
      assert (Hmay : exists mayBreak, c = JS.Normal mayBreak)
        by (destruct (_ || _); eauto)
  end.
  destruct Hmay as [mayBreak ->]. cbn [JS.bind].
  destruct mayBreak; [|eauto].
  eexists _, _. split; [reflexivity|].
  apply Forall_app. split; [exact Hkeep|]. constructor; [|constructor].
  rewrite evaluateBreak_index. split; [|lia].
  apply evaluateBreak_proper; [lia|].
  eapply Forall_impl; [|exact Hpbs]. cbn. intros p (H1 & H2 & H3). split; [exact H1|lia].
Qed.

Lemma lineBreakLoop_proper input tw has :
  wellTagged input = true ->
  forall n i cx pbs,
    (i + n = length (text input))%nat ->
    Forall (fun p => properBreaks (breaksUpTo p)
                     /\ (index p <= i)%nat /\ (index p < length (text input))%nat) pbs ->
    exists cx' pbs',
      lineBreakLoop glyphMap imagePositions spacing layoutTextSize input tw has
        (seq i n) (cx, pbs) = JS.Normal (cx', pbs')
      /\ Forall (fun p => properBreaks (breaksUpTo p)
                          /\ (index p < length (text input))%nat) pbs'.
Proof.
  intros Hw. induction n as [|n IH]; intros i cx pbs Hin Hpbs; cbn [seq lineBreakLoop].
  - eexists _, _. split; [reflexivity|].
    eapply Forall_impl; [|exact Hpbs]. cbn. intros p (H1 & H2 & H3). auto.
  - destruct (@lineBreakStep_proper input tw has cx pbs i Hw) as (cx1 & pbs1 & -> & H1);
      [lia|exact Hpbs|].
    cbn [JS.bind]. apply IH; [lia|exact H1].
Qed.

Lemma determineAverageLineWidth_normal input :
  wellTagged input = true ->
  exists total,
    totalAdvance glyphMap imagePositions spacing layoutTextSize input
      (seq 0 (length (text input))) 0 = JS.Normal total
    /\ determineAverageLineWidth glyphMap imagePositions spacing layoutTextSize
         input maxWidth
       = JS.Normal (total / inject_Z (Z.max 1 (Qceiling (total / maxWidth)))).
Proof.
  intros Hw.
  destruct (@totalAdvance_normal input (seq 0 (length (text input)))
              (@sections_defined input Hw 0%nat _ (Nat.le_refl _)) 0) as [total Ht].
  exists total. split; [exact Ht|].
  unfold determineAverageLineWidth. rewrite Ht. reflexivity.
Qed.

Lemma determineLineBreaks_breaks input :
  wellTagged input = true ->
  exists init,
    determineLineBreaks glyphMap imagePositions spacing maxWidth layoutTextSize
      (Some input) = JS.Normal (init ++ [length (text input)])
    /\ StronglySorted lt (init ++ [length (text input)])
    /\ Forall (fun k => (1 <= k)%nat) init.
Proof.
  intros Hw. unfold determineLineBreaks.
  destruct (@determineAverageLineWidth_normal input Hw) as (total & _ & ->).
  cbn [JS.bind]. cbv zeta.
  set (tw := total / _).
  set (has := existsb _ _).
  destruct (@lineBreakLoop_proper input tw has Hw (length (text input)) 0%nat 0 [])
    as (cx & pbs & -> & Hpbs); [lia|constructor|].
  cbn [JS.bind leastBadBreaks].
  pose proof (evaluateBreak_index (length (text input)) cx tw pbs 0 true) as Hidx.
  pose proof (evaluateBreak_prior (length (text input)) cx tw pbs 0 true) as Hp.
  destruct (evaluateBreak (length (text input)) cx tw pbs 0 true) as [j y prior q].
  cbn [index priorBreak] in *. subst j. cbn [breaksUpTo].
  destruct Hp as [->|(p & Hin & ->)].
  - exists []. cbn. repeat split; repeat constructor.
  - rewrite Forall_forall in Hpbs. destruct (Hpbs p Hin) as [Hpp Hlt].
    pose proof (properBreaks_below p Hpp) as Hbelow. destruct Hpp as [Hs H1].
    exists (breaksUpTo p). split; [reflexivity|]. split; [|exact H1].
    apply sorted_snoc; [exact Hs|].
    eapply Forall_impl; [|exact Hbelow]. cbn. intros; lia.
Qed.

(** X16. For a string whose characters all have a section,
    [determineLineBreaks] returns break positions that are strictly
    increasing, start after the first character and end with the length of
    the text. *)
Theorem determineLineBreaks_increasing (input : TaggedString)
        (Hw : wellTagged input = true) (Hmax : 0 < maxWidth) :
  exists init,
    determineLineBreaks glyphMap imagePositions spacing maxWidth layoutTextSize
      (Some input) = JS.Normal (init ++ [length (text input)])
    /\ StronglySorted lt (init ++ [length (text input)])
    /\ Forall (fun k => (1 <= k)%nat) init.
Proof. exact (@determineLineBreaks_breaks input Hw). Qed.

(** X17. [determineLineBreaks] throws a TypeError when some character of the
    text has no section. *)
Theorem determineLineBreaks_missing_section (input : TaggedString)
        (Hmissing : Exists (fun i => getSection input i = None)
                           (seq 0 (length (text input))))
        (Hmax : 0 < maxWidth) :
  determineLineBreaks glyphMap imagePositions spacing maxWidth layoutTextSize
    (Some input) = JS.Throw JS.TypeError.
Proof.
  unfold determineLineBreaks, determineAverageLineWidth.
  rewrite totalAdvance_throws by exact Hmissing. reflexivity.
Qed.


(** X19. Breaking a text at the positions chosen by [determineLineBreaks]
    partitions it: the call returns, [breakLines] gives one line per break
    position, the lines concatenate to the text, and no line of a non-empty
    text is empty. *)
Theorem determined_lines_partition (input : TaggedString)
        (Hw : wellTagged input = true) (Hmax : 0 < maxWidth) :
  exists breaks,
    determineLineBreaks glyphMap imagePositions spacing maxWidth layoutTextSize
      (Some input) = JS.Normal breaks
    /\ let lines := breakLines input breaks in
       concat (map text lines) = text input
       /\ length lines = length breaks
       /\ (text input <> [] -> Forall (fun line => text line <> []) lines).
Proof.
  destruct (@determineLineBreaks_breaks input Hw) as (init & Hret & Hs & H1).
  exists (init ++ [length (text input)]). split; [exact Hret|].
  pose proof (sorted_snoc_inv _ _ Hs) as Hbelow.
  assert (Hle : Forall (fun p => (p <= length (text input))%nat)
                  (init ++ [length (text input)])).
  { apply Forall_app. split.
    - eapply Forall_impl; [|exact Hbelow]. cbn. intros; lia.
    - constructor; [lia|constructor]. }
  pose proof (proj1 (wellTagged_iff input) Hw) as [Hlen _].
  destruct (@breakLines_fold input (init ++ [length (text input)]) Hlen [] 0%nat)
    as (Ht & _ & _ & _); try assumption; try reflexivity.
  { apply Forall_forall. intros; lia. }
  { apply sorted_lt_le; exact Hs. }
  { lia. }
  { constructor. }
  pose proof (@breakLines_fold_shape input (init ++ [length (text input)]) [] 0%nat)
    as [Hn Hlast].
  pose proof (fun H => @breakLines_fold_nonempty input (init ++ [length (text input)])
                         [] 0%nat H Hs Hle (Forall_nil _)) as Hne.
  cbv zeta in *. unfold breakLines.
  destruct (fold_left _ (init ++ [length (text input)]) ([], 0%nat)) as [lines start].
  cbn [fst snd] in *. rewrite last_last in Hlast. subst start.
  rewrite Nat.ltb_irrefl. rewrite skipn_all in Ht. rewrite app_nil_r in Ht.
  split; [exact Ht|]. split; [exact Hn|].
  intros Hnonempty. apply Hne.
  apply Forall_app. split.
  - eapply Forall_impl; [|exact H1]. cbn. intros; lia.
  - constructor; [|constructor]. destruct (text input); [congruence|cbn; lia].
Qed.

End Loop.

End LineBreakFacts.

Section BadnessFacts.
Import Shaping.

(** X20. [calculatePenalty] is negative exactly for a break after a newline,
    which forces that break: after a newline the penalty lies between -10000
    and -9800, otherwise between 0 and 250. *)
Theorem calculatePenalty_newline (codePoint nextCodePoint : option Z)
        (penalizableIdeographicBreak : bool) :
  let penalty := calculatePenalty codePoint nextCodePoint penalizableIdeographicBreak in
  (codePoint = Some 10%Z -> -10000 <= penalty <= -9800)
  /\ (codePoint <> Some 10%Z -> 0 <= penalty <= 250).
Proof.
  cbv zeta. unfold calculatePenalty, at_code. split.
  - intros ->.
    destruct penalizableIdeographicBreak, nextCodePoint as [n|];
      try destruct (41 =? n)%Z; try destruct (65289 =? n)%Z;
      split; apply Qle_bool_iff; vm_compute; reflexivity.
  - intros Hne.
    assert (H10 : match codePoint with Some c => (10 =? c)%Z | None => false end = false).
    { destruct codePoint as [c|]; [|reflexivity].
      apply Z.eqb_neq. intros <-. apply Hne. reflexivity. }
    rewrite H10.
    destruct penalizableIdeographicBreak, codePoint as [c|], nextCodePoint as [n|];
      try destruct (40 =? c)%Z; try destruct (65288 =? c)%Z;
      try destruct (41 =? n)%Z; try destruct (65289 =? n)%Z;
      split; apply Qle_bool_iff; vm_compute; reflexivity.
Qed.

(** X21. On the last line [calculateBadness] is never negative and favours a
    line shorter than the target over a longer one: a last line that is [d]
    too long is four times as bad as one that is [d] too short. *)
Theorem calculateBadness_last_line (targetWidth penalty d : Q) (Hd : 0 < d) :
  0 <= calculateBadness (targetWidth - d) targetWidth penalty true
  /\ calculateBadness (targetWidth + d) targetWidth penalty true
     == 4 * calculateBadness (targetWidth - d) targetWidth penalty true.
Proof.
  unfold calculateBadness.
  destruct (Qle_bool targetWidth (targetWidth - d)) eqn:H1.
  { apply Qle_bool_iff in H1. lra. }
  destruct (Qle_bool targetWidth (targetWidth + d)) eqn:H2.
  2:{ apply Qle_bool_false in H2. lra. }
  cbn [negb]. split.
  - assert (H : (targetWidth - d - targetWidth) * (targetWidth - d - targetWidth) / 2
                == d * d / 2) by field.
    rewrite H. apply Qle_shift_div_l; [lra|]. nra.
  - field.
Qed.

End BadnessFacts.

Section IconFacts.
Import Shaping.

(** X22. [shapeIcon] places a box of the image's display size around the
    offset point: the box is as wide and as high as the image, contains the
    offset point, and for the [center] anchor has it in the middle. *)
Theorem shapeIcon_box (img : ImagePosition) (iconOffset : Q * Q) (iconAnchor : SymbolAnchor)
        (Hw : 0 <= fst (displaySize img)) (Hh : 0 <= snd (displaySize img)) :
  let icon := shapeIcon img iconOffset iconAnchor in
  icon_right icon - icon_left icon == fst (displaySize img)
  /\ icon_bottom icon - icon_top icon == snd (displaySize img)
  /\ icon_left icon <= fst iconOffset <= icon_right icon
  /\ icon_top icon <= snd iconOffset <= icon_bottom icon
  /\ (iconAnchor = anchor_center ->
      icon_left icon + icon_right icon == 2 * fst iconOffset
      /\ icon_top icon + icon_bottom icon == 2 * snd iconOffset).
Proof.
  cbv zeta. unfold shapeIcon.
  destruct (getAnchorAlignment iconAnchor) as [h v] eqn:Ha.
  cbn [icon_left icon_right icon_top icon_bottom].
  assert (Hh' : h == 0 \/ h == 1 # 2 \/ h == 1)
    by (destruct iconAnchor; inversion Ha; subst; intuition reflexivity).
  assert (Hv' : v == 0 \/ v == 1 # 2 \/ v == 1)
    by (destruct iconAnchor; inversion Ha; subst; intuition reflexivity).
  generalize dependent (fst (displaySize img)).
  generalize dependent (snd (displaySize img)).
  intros height Hh width Hw.
  split; [lra|]. split; [lra|].
  split; [destruct Hh' as [Hx| [Hx| Hx]]; rewrite Hx; split; lra|].
  split; [destruct Hv' as [Hx| [Hx| Hx]]; rewrite Hx; split; lra|].
  intros ->. inversion Ha; subst. split; lra.
Qed.

Lemma Qlt_bool_true (a b : Q) : Shaping.Qlt_bool a b = true -> a < b.
Proof.
  unfold Shaping.Qlt_bool. intros H. apply negb_true_iff in H.
  apply Qnot_le_lt. intros Hle. apply Qle_bool_iff in Hle. congruence.
Qed.

Lemma ceil_grows_width (w h a : Q) :
  0 < h -> w / h < a -> w <= Math_ceil (h * a).
Proof.
  intros Hh Hlt. unfold Math_ceil.
  eapply Qle_trans; [|apply Qle_ceiling].
  assert (Hq : w == h * (w / h)) by (symmetry; apply Qmult_div_r; lra).
  rewrite Hq. apply Qlt_le_weak. apply Qmult_lt_l; assumption.
Qed.

Lemma ceil_grows_height (w h a : Q) :
  0 < h -> 0 < a -> a < w / h -> h <= Math_ceil (w / a).
Proof.
  intros Hh Ha Hlt. unfold Math_ceil.
  eapply Qle_trans; [|apply Qle_ceiling].
  apply Qlt_le_weak. apply Qlt_shift_div_l; [exact Ha|].
  assert (Hq : w == h * (w / h)) by (symmetry; apply Qmult_div_r; lra).
  rewrite Hq. apply Qmult_lt_l; assumption.
Qed.

(** X23. An axis of an image that may only stretch is never shrunk by
    [applyTextFit]: for an image with a content rectangle and an icon of
    positive size, the call returns a box that is at least as wide as the icon
    when [textFitWidth] is [stretchOnly], and at least as high when
    [textFitHeight] is [stretchOnly], the other dimension being kept. *)
Theorem applyTextFit_stretchOnly_grows (shapedIcon : PositionedIcon) (c0 c1 c2 c3 : Q)
        (Hcontent : content (image shapedIcon) = Some (c0, c1, c2, c3))
        (Hcw : 0 < c2 - c0) (Hch : 0 < c3 - c1)
        (Hiw : 0 < icon_right shapedIcon - icon_left shapedIcon)
        (Hih : 0 < icon_bottom shapedIcon - icon_top shapedIcon) :
  exists box,
    applyTextFit shapedIcon = JS.Normal box
    /\ (textFitWidth (image shapedIcon) = Some stretchOnly ->
        icon_right shapedIcon - icon_left shapedIcon <= x2 box - x1 box
        /\ y2 box - y1 box == icon_bottom shapedIcon - icon_top shapedIcon)
    /\ (textFitHeight (image shapedIcon) = Some stretchOnly ->
        icon_bottom shapedIcon - icon_top shapedIcon <= y2 box - y1 box
        /\ x2 box - x1 box == icon_right shapedIcon - icon_left shapedIcon).
Proof.
  unfold applyTextFit. rewrite Hcontent.
  set (W := icon_right shapedIcon - icon_left shapedIcon) in *.
  set (H := icon_bottom shapedIcon - icon_top shapedIcon) in *.
  set (A := (c2 - c0) / (c3 - c1)).
  assert (HA : 0 < A) by (apply Qlt_shift_div_l; lra).
  destruct (textFitWidth (image shapedIcon)) as [[]|];
    destruct (textFitHeight (image shapedIcon)) as [[]|];
    cbn [TextFit_eqb andb orb negb];
    try (eexists; split; [reflexivity|]; cbn [x1 x2 y1 y2];
         split; intros Hfit; try discriminate Hfit; split; lra).
  - (* width stretchOnly, height proportional *)
    destruct (Shaping.Qlt_bool (W / H) A) eqn:Hlt; cbn [orb].
    + apply Qlt_bool_true in Hlt.
      pose proof (ceil_grows_width Hih Hlt) as Hg.
      eexists. split; [reflexivity|]. cbn [x1 x2 y1 y2].
      split; intros Hfit; try discriminate Hfit.
      generalize dependent (Math_ceil (H * A)). intros n Hg.
      generalize (icon_left shapedIcon * (n / W)). intros l. split; lra.
    + eexists. split; [reflexivity|]. cbn [x1 x2 y1 y2].
      split; intros Hfit; try discriminate Hfit. split; lra.
  - (* width proportional, height stretchOnly *)
    destruct (Qeq_bool A 0) eqn:H0; cbn [negb andb].
    { apply Qeq_bool_iff in H0. lra. }
    destruct (Shaping.Qlt_bool A (W / H)) eqn:Hlt.
    + apply Qlt_bool_true in Hlt.
      pose proof (ceil_grows_height Hih HA Hlt) as Hg.
      eexists. split; [reflexivity|]. cbn [x1 x2 y1 y2].
      split; intros Hfit; try discriminate Hfit.
      generalize dependent (Math_ceil (W / A)). intros n Hg.
      generalize (icon_top shapedIcon * (n / H)). intros l. split; lra.
    + eexists. split; [reflexivity|]. cbn [x1 x2 y1 y2].
      split; intros Hfit; try discriminate Hfit. split; lra.
Qed.

Import String.StringSyntax.
#[local] Open Scope string_scope.

(** X24. [fitIconToText] centres the icon on the text: in a direction that is
    not stretched the icon keeps the display size of its image and its middle
    is the middle of the scaled text moved by the icon offset; in a direction
    that is stretched, the icon covers the scaled text whenever the padding
    is not negative. *)
Theorem fitIconToText_centred (shapedIcon : PositionedIcon) (shapedText : Shaping)
        (textFit : String.string) (padding0 padding1 padding2 padding3 : Q)
        (iconOffset : Q * Q) (fontScale : Q)
        (Hp0 : 0 <= padding0) (Hp1 : 0 <= padding1)
        (Hp2 : 0 <= padding2) (Hp3 : 0 <= padding3) :
  let icon := fitIconToText shapedIcon shapedText textFit
                (padding0, padding1, padding2, padding3) iconOffset fontScale in
  let size := displaySize (image shapedIcon) in
  (if String.eqb textFit "width" || String.eqb textFit "both"
   then icon_left icon <= fst iconOffset + sh_left shapedText * fontScale
        /\ fst iconOffset + sh_right shapedText * fontScale <= icon_right icon
   else icon_right icon - icon_left icon == fst size
        /\ icon_left icon + icon_right icon
           == 2 * fst iconOffset
              + (sh_left shapedText * fontScale + sh_right shapedText * fontScale))
  /\ (if String.eqb textFit "height" || String.eqb textFit "both"
      then icon_top icon <= snd iconOffset + sh_top shapedText * fontScale
           /\ snd iconOffset + sh_bottom shapedText * fontScale <= icon_bottom icon
      else icon_bottom icon - icon_top icon == snd size
           /\ icon_top icon + icon_bottom icon
              == 2 * snd iconOffset
                 + (sh_top shapedText * fontScale + sh_bottom shapedText * fontScale)).
Proof.
  cbv zeta. unfold fitIconToText.
  generalize (sh_left shapedText * fontScale) (sh_right shapedText * fontScale)
             (sh_top shapedText * fontScale) (sh_bottom shapedText * fontScale).
  intros tl tr tt tb.
  generalize (fst (displaySize (image shapedIcon))) (snd (displaySize (image shapedIcon))).
  intros w h.
  destruct (String.eqb textFit "width" || String.eqb textFit "both");
    destruct (String.eqb textFit "height" || String.eqb textFit "both");
    cbn [icon_left icon_right icon_top icon_bottom];
    unfold Qdiv; change (/ 2) with (1 # 2);
    (split; split; lra).
Qed.

End IconFacts.

Section GlyphFacts.
Import Shaping.

Lemma updateRange_length {A : Type} (f : A -> A) (start stop j0 : nat) (l : list A) :
  length (updateRange f start stop j0 l) = length l.
Proof. revert j0. induction l as [|a l IH]; intros j0; cbn; [reflexivity|]. rewrite IH. reflexivity. Qed.

Lemma updateRange_nth {A : Type} (f : A -> A) (start stop : nat) (l : list A) :
  forall j0 j,
    nth_error (updateRange f start stop j0 l) j
    = option_map (fun a => if ((start <=? j0 + j) && (j0 + j <=? stop))%nat
                           then f a else a)
                 (nth_error l j).
Proof.
  induction l as [|a l IH]; intros j0 [|j]; cbn [updateRange nth_error option_map];
    try reflexivity.
  - rewrite Nat.add_0_r. reflexivity.
  - rewrite IH. replace (S j0 + j)%nat with (j0 + S j)%nat by lia. reflexivity.
Qed.

(** X25. [justifyLine] moves the glyphs of a line by one common amount: for a
    non-zero [justify] and a line [start..end] inside the array, the call
    returns, glyphs outside the line are untouched, distances between glyphs
    of the line are kept, and the right edge of the last glyph ends at
    [(1 - justify)] times its former position, that is at 0 for a
    right-justified line. *)
Theorem justifyLine_shifts_line (glyphs : list PositionedGlyph) (start stop : nat)
        (justify : Q) (lastGlyph : PositionedGlyph)
        (Hjustify : ~ justify == 0)
        (Hrange : (start <= stop)%nat)
        (Hlast : nth_error glyphs stop = Some lastGlyph) :
  exists (out : list PositionedGlyph) (lineIndent : Q),
    justifyLine glyphs start stop justify = JS.Normal out
    /\ length out = length glyphs
    /\ (forall j, (j < start \/ stop < j)%nat -> nth_error out j = nth_error glyphs j)
    /\ (forall j g, (start <= j <= stop)%nat -> nth_error glyphs j = Some g ->
          exists g', nth_error out j = Some g'
                     /\ pg_x g' == pg_x g - lineIndent
                     /\ pg_y g' = pg_y g
                     /\ pg_metrics g' = pg_metrics g /\ pg_scale g' = pg_scale g)
    /\ (pg_x lastGlyph - lineIndent)
       + gm_advance (pg_metrics lastGlyph) * pg_scale lastGlyph
       == (1 - justify)
          * (pg_x lastGlyph + gm_advance (pg_metrics lastGlyph) * pg_scale lastGlyph).
Proof.
  unfold justifyLine.
  destruct (Qeq_bool justify 0) eqn:H0; [apply Qeq_bool_iff in H0; contradiction|].
  rewrite Hlast.
  eexists _, _. split; [reflexivity|].
  split; [apply updateRange_length|].
  split; [|split].
  - intros j Hj. rewrite updateRange_nth. cbn [Nat.add].
    destruct (nth_error glyphs j) as [g|]; [|reflexivity]. cbn [option_map].
    destruct ((start <=? j) && (j <=? stop))%nat eqn:Hin; [|reflexivity].
    apply andb_true_iff in Hin. destruct Hin as [H1 H2].
    apply Nat.leb_le in H1. apply Nat.leb_le in H2. lia.
  - intros j g [H1 H2] Hg. rewrite updateRange_nth, Hg. cbn [Nat.add option_map].
    apply Nat.leb_le in H1. apply Nat.leb_le in H2. rewrite H1, H2. cbn [andb].
    eexists. split; [reflexivity|]. cbn [moveLeft pg_x pg_y pg_metrics pg_scale].
    split; [reflexivity|]. auto.
  - ring.
Qed.

End GlyphFacts.

Section ShapingScenarios.
Import Shaping ShapingScenario.

Lemma trim_strips_whitespace_witness :
  length (text sampleText) = length (sectionIndex sampleText)
  /\ exists (pre post : list Z) (ipre ipost : list nat),
       text sampleText = pre ++ text (trim sampleText) ++ post
       /\ sectionIndex sampleText = ipre ++ sectionIndex (trim sampleText) ++ ipost
       /\ length ipre = length pre /\ length ipost = length post
       /\ forallb whitespace pre = true /\ forallb whitespace post = true
       /\ startsWithWhitespace (text (trim sampleText)) = false
       /\ startsWithWhitespace (rev (text (trim sampleText))) = false.
Proof.
  split; [reflexivity|]. apply (@trim_strips_whitespace sampleText). reflexivity.
Defined.

Lemma breakLines_round_trip_witness :
  let lines := breakLines sampleText [5; 9; 9]%nat in
  length (text sampleText) = length (sectionIndex sampleText)
  /\ StronglySorted le [5; 9; 9]%nat
  /\ Forall (fun p => (p <= length (text sampleText))%nat) [5; 9; 9]%nat
  /\ length lines = 4%nat
  /\ concat (map text lines) = text sampleText
  /\ concat (map sectionIndex lines) = sectionIndex sampleText
  /\ Forall (fun line => sections line = sections sampleText) lines.
Proof.
  intros lines.
  assert (Hlen : length (text sampleText) = length (sectionIndex sampleText))
    by reflexivity.
  assert (Hsorted : StronglySorted le [5; 9; 9]%nat) by repeat constructor.
  assert (Hle : Forall (fun p => (p <= length (text sampleText))%nat) [5; 9; 9]%nat)
    by (vm_compute; repeat constructor).
  split; [exact Hlen|]. split; [exact Hsorted|]. split; [exact Hle|].
  split; [reflexivity|].
  exact (@breakLines_round_trip sampleText [5; 9; 9]%nat Hlen Hsorted Hle).
Defined.

Lemma determineLineBreaks_increasing_witness :
  wellTagged sampleText = true /\ 0 < 60
  /\ exists init,
       determineLineBreaks sampleGlyphs sampleImages 0 60 16 (Some sampleText)
       = JS.Normal (init ++ [length (text sampleText)])
       /\ StronglySorted lt (init ++ [length (text sampleText)])
       /\ Forall (fun k => (1 <= k)%nat) init.
Proof.
  split; [reflexivity|]. split; [reflexivity|].
  apply (@determineLineBreaks_increasing sampleEnv sampleGlyphs sampleImages 0 60 16
           sampleText); reflexivity.
Defined.

Lemma determineLineBreaks_missing_section_witness :
  getSection untagged 0 = None /\ 0 < 60
  /\ determineLineBreaks sampleGlyphs sampleImages 0 60 16 (Some untagged)
     = JS.Throw JS.TypeError.
Proof.
  split; [reflexivity|]. split; [reflexivity|].
  apply (@determineLineBreaks_missing_section sampleEnv sampleGlyphs sampleImages 0 60 16
           untagged).
  - left. reflexivity.
  - reflexivity.
Defined.


Lemma determined_lines_partition_witness :
  wellTagged sampleText = true /\ 0 < 60
  /\ exists breaks,
       determineLineBreaks sampleGlyphs sampleImages 0 60 16 (Some sampleText)
       = JS.Normal breaks
       /\ let lines := breakLines sampleText breaks in
          concat (map text lines) = text sampleText
          /\ length lines = length breaks
          /\ (text sampleText <> [] -> Forall (fun line => text line <> []) lines).
Proof.
  split; [reflexivity|]. split; [reflexivity|].
  apply (@determined_lines_partition sampleEnv sampleGlyphs sampleImages 0 60 16
           sampleText); reflexivity.
Defined.

Lemma calculateBadness_last_line_witness :
  0 < 5
  /\ 0 <= calculateBadness (60 - 5) 60 0 true
  /\ calculateBadness (60 + 5) 60 0 true == 4 * calculateBadness (60 - 5) 60 0 true.
Proof.
  split; [reflexivity|]. apply (@calculateBadness_last_line 60 0 5). reflexivity.
Defined.

Lemma shapeIcon_box_witness :
  let icon := shapeIcon markerImage (3, 4) anchor_top_left in
  0 <= fst (displaySize markerImage) /\ 0 <= snd (displaySize markerImage)
  /\ icon_right icon - icon_left icon == fst (displaySize markerImage)
  /\ icon_bottom icon - icon_top icon == snd (displaySize markerImage)
  /\ icon_left icon <= 3 <= icon_right icon
  /\ icon_top icon <= 4 <= icon_bottom icon
  /\ (anchor_top_left = anchor_center ->
      icon_left icon + icon_right icon == 2 * 3
      /\ icon_top icon + icon_bottom icon == 2 * 4).
Proof.
  intros icon.
  assert (Hw : 0 <= fst (displaySize markerImage)) by (vm_compute; discriminate).
  assert (Hh : 0 <= snd (displaySize markerImage)) by (vm_compute; discriminate).
  split; [exact Hw|]. split; [exact Hh|].
  exact (@shapeIcon_box markerImage (3, 4) anchor_top_left Hw Hh).
Defined.

Lemma applyTextFit_stretchOnly_grows_witness :
  content (image sampleIcon) = Some (2, 2, 18, 8)
  /\ 0 < 18 - 2 /\ 0 < 8 - 2
  /\ 0 < icon_right sampleIcon - icon_left sampleIcon
  /\ 0 < icon_bottom sampleIcon - icon_top sampleIcon
  /\ exists box,
       applyTextFit sampleIcon = JS.Normal box
       /\ (textFitWidth (image sampleIcon) = Some stretchOnly ->
           icon_right sampleIcon - icon_left sampleIcon <= x2 box - x1 box
           /\ y2 box - y1 box == icon_bottom sampleIcon - icon_top sampleIcon)
       /\ (textFitHeight (image sampleIcon) = Some stretchOnly ->
           icon_bottom sampleIcon - icon_top sampleIcon <= y2 box - y1 box
           /\ x2 box - x1 box == icon_right sampleIcon - icon_left sampleIcon).
Proof.
  do 5 (split; [reflexivity|]).
  apply (@applyTextFit_stretchOnly_grows sampleIcon 2 2 18 8); reflexivity.
Defined.

Lemma justifyLine_shifts_line_witness :
  ~ 1 == 0 /\ (0 <= 2)%nat /\ nth_error sampleGlyphLine 2 = Some (glyphAt 20)
  /\ exists (out : list PositionedGlyph) (lineIndent : Q),
    justifyLine sampleGlyphLine 0 2 1 = JS.Normal out
    /\ length out = length sampleGlyphLine
    /\ (forall j, (j < 0 \/ 2 < j)%nat -> nth_error out j = nth_error sampleGlyphLine j)
    /\ (forall j g, (0 <= j <= 2)%nat -> nth_error sampleGlyphLine j = Some g ->
          exists g', nth_error out j = Some g'
                     /\ pg_x g' == pg_x g - lineIndent
                     /\ pg_y g' = pg_y g
                     /\ pg_metrics g' = pg_metrics g /\ pg_scale g' = pg_scale g)
    /\ (pg_x (glyphAt 20) - lineIndent)
       + gm_advance (pg_metrics (glyphAt 20)) * pg_scale (glyphAt 20)
       == (1 - 1)
          * (pg_x (glyphAt 20)
             + gm_advance (pg_metrics (glyphAt 20)) * pg_scale (glyphAt 20)).
Proof.
  assert (Hj : ~ 1 == 0) by discriminate.
  assert (Hr : (0 <= 2)%nat) by repeat constructor.
  split; [exact Hj|]. split; [exact Hr|]. split; [reflexivity|].
  exact (@justifyLine_shifts_line sampleGlyphLine 0 2 1 (glyphAt 20) Hj Hr eq_refl).
Defined.

End ShapingScenarios.

Section IconScenarios.
Import Shaping ShapingScenario.
Import String.StringSyntax.
#[local] Open Scope string_scope.

Lemma fitIconToText_centred_witness :
  let icon := fitIconToText sampleIcon sampleShaping "width" (1, 2, 3, 4) (5, 6) 2 in
  0 <= 1 /\ 0 <= 2 /\ 0 <= 3 /\ 0 <= 4
  /\ (icon_left icon <= 5 + -40 * 2 /\ 5 + 40 * 2 <= icon_right icon)
  /\ icon_bottom icon - icon_top icon == 10
  /\ icon_top icon + icon_bottom icon == 2 * 6 + (-12 * 2 + 12 * 2).
Proof.
  intros icon.
  assert (H1 : 0 <= 1) by discriminate. assert (H2 : 0 <= 2) by discriminate.
  assert (H3 : 0 <= 3) by discriminate. assert (H4 : 0 <= 4) by discriminate.
  do 4 (split; [assumption|]).
  exact (@fitIconToText_centred sampleIcon sampleShaping "width" 1 2 3 4 (5, 6) 2
           H1 H2 H3 H4).
Defined.

End IconScenarios.
